(** * dns-performance-tester: the measurement core of [main.go]

    A shallow embedding of the Go program: the sequential code
    ([StartAndRecordLatencies], [calculateAverageDelay], [writeResultToCsv],
    the body of a worker) is written once, as terms of a small free monad
    [Prog] whose actions are the program's effects (a DNS lookup, a log
    line, a sleep, a clock reading, a write to the CSV writer's buffer).
    [run] executes such a term to completion against an environment of
    oracles; the goroutines of [main] and [performTestRound] are an
    interleaving machine whose workers execute the same terms one action at
    a time, with the channel, the wait group and the panics of Go. *)

From stdpp Require Import base list strings.
From Stdlib Require Import ZArith Lia.

Local Open Scope string_scope.
Local Open Scope list_scope.
Local Open Scope Z_scope.

(** ** Go values *)

(** [time.Duration] is an [int64] count of nanoseconds; arithmetic on it
    wraps around. *)
Definition Duration := Z.

Definition wrap64 (z : Z) : Z := (z + 2 ^ 63) mod 2 ^ 64 - 2 ^ 63.

Definition Millisecond : Duration := 1000000.

(** The largest allocation the Go runtime accepts on a 64-bit platform;
    [make] panics on a negative capacity and on one whose size is beyond
    this. *)
Definition maxAlloc : Z := 2 ^ 48.

Definition error := string.

Record Config := {
  Domains : list string;
  DNSServers : list string;
  TestCount : Z;
  QueryInterval : Duration;
  Concurrency : Z;
  LogToFile : bool;
  SaveCsv : bool;
  TestRounds : Z
}.

Record DnsTestResult := {
  Domain : string;
  Server : string;
  Timestamp : Z;
  Latency : Duration
}.

Module DnsWorkItem.
Record t := mk { Domain : string; DNSServer : string }.
End DnsWorkItem.

(** ** Effects *)

(** [PerformDNSLookup] (lines 163-193) reaches the network through two
    libraries; it is the resolver of the specification, an action the
    world answers. What it hands back to its caller: the elapsed time with
    a nil error, or an error (the reply message is dropped at the call). *)
Inductive LookupResult :=
| LookupOk (latency : Duration)
| LookupErr (err : error).

(** The lines the program prints, one constructor per [Printf] of the
    source, holding the arguments of the format string. *)
Inductive LogLine :=
| LogQueryError (domain dnsServer : string) (i : Z) (err : error)
| LogQueryDelay (domain dnsServer : string) (i : Z) (latency : Duration)
| LogWorkError (domain dnsServer : string) (err : error)
| LogAverage (domain dnsServer : string) (avgDelay : Duration)
| LogCsvError (err : error)
| LogRoundDone (round : Z)
| LogFatal (err : error).

(** A field of a CSV record before formatting, and what [csv.Writer.Write]
    appends to its buffer: the fields one at a time, a comma between two
    fields, a line end after the last. *)
Inductive CsvField :=
| FStr (s : string)
| FTime (t : Z)
| FMillis (d : Duration).

Inductive CsvToken :=
| TField (f : CsvField)
| TComma
| TNewline.

Inductive FsOp :=
| MkdirAll (dir : string)
| OpenCsv (stamp : Z)
| OpenLog (name : string)
| Flush.

(** What the process does, in the order it does it: a call of
    [PerformDNSLookup] with its answer, a line printed, a sleep, a reading
    of the clock, a put to the buffer of the CSV writer and an operation on
    a file with their errors; the runtime reporting a panic and ending the
    process; worker [w] of round [round] receiving [work] from the queue;
    the function of worker [w] of round [round] ending, by leaving its loop
    or by the panic [panic], its deferred [wg.Done()] run. *)
Inductive Event :=
| EvLookup (domain dnsServer : string) (r : LookupResult)
| EvLog (l : LogLine)
| EvSleep (d : Duration)
| EvNow (t : Z)
| EvCsv (tok : CsvToken) (err : option error)
| EvFile (op : FsOp) (err : option error)
| EvPanic (msg : string)
| EvDequeue (round : Z) (w : nat) (work : DnsWorkItem.t)
| EvReturn (round : Z) (w : nat) (panic : option string).

Definition Trace := list Event.

(** The world outside the program. The answer of the resolver depends on
    how many lookups were made before; the clock and the failures of the
    file system depend on the position in the trace. *)
Record Env := {
  resolver : nat → string → string → LookupResult;
  clock : nat → Z;
  csv_error : nat → option error;
  file_error : nat → option error
}.

(** ** Programs *)

(** A program is a value, a panic, or an action and what follows for each
    of its answers. *)
Inductive Prog (A : Type) : Type :=
| Ret (a : A)
| Panic (msg : string)
| Lookup (domain dnsServer : string) (k : LookupResult → Prog A)
| Printf (l : LogLine) (k : Prog A)
| Sleep (d : Duration) (k : Prog A)
| Now (k : Z → Prog A)
| CsvPut (tok : CsvToken) (k : option error → Prog A)
| File (op : FsOp) (k : option error → Prog A).

Arguments Ret {A} a.
Arguments Panic {A} msg.
Arguments Lookup {A} domain dnsServer k.
Arguments Printf {A} l k.
Arguments Sleep {A} d k.
Arguments Now {A} k.
Arguments CsvPut {A} tok k.
Arguments File {A} op k.

Fixpoint bind {A B} (m : Prog A) (f : A → Prog B) : Prog B :=
  match m with
  | Ret a => f a
  | Panic msg => Panic msg
  | Lookup d s k => Lookup d s (fun r => bind (k r) f)
  | Printf l k => Printf l (bind k f)
  | Sleep d k => Sleep d (bind k f)
  | Now k => Now (fun t => bind (k t) f)
  | CsvPut tok k => CsvPut tok (fun e => bind (k e) f)
  | File op k => File op (fun e => bind (k e) f)
  end.

Notation "x <- m ;; k" := (bind m (fun x => k))
  (at level 20, m at level 99, k at level 200, only parsing).
Notation "' pat <- m ;; k" := (bind m (fun x => match x with pat => k end))
  (at level 20, pat pattern, m at level 99, k at level 200, only parsing).
Notation "m ;;; k" := (bind m (fun _ => k))
  (at level 100, k at level 200, only parsing, right associativity).

Definition lookup (domain dnsServer : string) : Prog LookupResult :=
  Lookup domain dnsServer Ret.
Definition printf (l : LogLine) : Prog unit := Printf l (Ret tt).
Definition sleep (d : Duration) : Prog unit := Sleep d (Ret tt).
Definition now : Prog Z := Now Ret.
Definition csvPut (tok : CsvToken) : Prog (option error) := CsvPut tok Ret.
Definition file (op : FsOp) : Prog (option error) := File op Ret.

(** How a program ends. *)
Inductive Result (A : Type) : Type :=
| Done (a : A)
| Panicked (msg : string).

Arguments Done {A} a.
Arguments Panicked {A} msg.

Definition is_lookup (e : Event) : bool :=
  match e with EvLookup _ _ _ => true | _ => false end.

Fixpoint lookups (t : Trace) : nat :=
  match t with
  | [] => 0%nat
  | e :: t' => ((if is_lookup e then 1 else 0) + lookups t')%nat
  end.

(** One action of a program at the end of trace [t]: the event it leaves
    and the rest of the program. *)
Definition act {A} (env : Env) (t : Trace) (p : Prog A) : option (Event * Prog A) :=
  match p with
  | Ret _ => None
  | Panic _ => None
  | Lookup d s k =>
      let r := resolver env (lookups t) d s in Some (EvLookup d s r, k r)
  | Printf l k => Some (EvLog l, k)
  | Sleep d k => Some (EvSleep d, k)
  | Now k => let c := clock env (length t) in Some (EvNow c, k c)
  | CsvPut tok k =>
      let e := csv_error env (length t) in Some (EvCsv tok e, k e)
  | File op k =>
      let e := file_error env (length t) in Some (EvFile op e, k e)
  end.

(** A program run to its end from trace [t]. *)
Fixpoint run {A} (env : Env) (p : Prog A) (t : Trace) : Trace * Result A :=
  match p with
  | Ret a => (t, Done a)
  | Panic msg => (t, Panicked msg)
  | Lookup d s k =>
      let r := resolver env (lookups t) d s in
      run env (k r) (t ++ [EvLookup d s r])
  | Printf l k => run env k (t ++ [EvLog l])
  | Sleep d k => run env k (t ++ [EvSleep d])
  | Now k =>
      let c := clock env (length t) in run env (k c) (t ++ [EvNow c])
  | CsvPut tok k =>
      let e := csv_error env (length t) in run env (k e) (t ++ [EvCsv tok e])
  | File op k =>
      let e := file_error env (length t) in run env (k e) (t ++ [EvFile op e])
  end.

(** ** The sequential code of [main.go] *)

(** [calculateAverageDelay]: the sum wraps, the division is Go's integer
    division (truncated toward zero) and panics on a zero divisor. *)
Definition calculateAverageDelay (delays : list Duration) : Prog Duration :=
  let sum := fold_left (fun sum delay => wrap64 (sum + delay)) delays 0 in
  let n := Z.of_nat (length delays) in
  if n =? 0 then Panic "runtime error: integer divide by zero"
  else Ret (Z.quot sum n).

(** The loop of [StartAndRecordLatencies], [n] iterations left, at
    index [i]. *)
Fixpoint sampleLoop (domain dnsServer : string) (interval : Duration)
    (n : nat) (i : Z) (delays : list Duration) : Prog (list Duration) :=
  match n with
  | O => Ret delays
  | S n' =>
      r <- lookup domain dnsServer ;;
      match r with
      | LookupErr err =>
          printf (LogQueryError domain dnsServer i err) ;;;
          sampleLoop domain dnsServer interval n' (i + 1) delays
      | LookupOk latency =>
          let delays := delays ++ [latency] in
          printf (LogQueryDelay domain dnsServer i latency) ;;;
          sleep interval ;;;
          sampleLoop domain dnsServer interval n' (i + 1) delays
      end
  end.

Definition StartAndRecordLatencies (domain dnsServer : string) (count : Z)
    (interval : Duration) : Prog (Duration * list Duration * option error) :=
  if (count <? 0) || (maxAlloc <? 8 * count)
  then Panic "runtime error: makeslice: cap out of range"
  else
    delays <- sampleLoop domain dnsServer interval (Z.to_nat count) 1 [] ;;
    avgDelay <- calculateAverageDelay delays ;;
    Ret (avgDelay, delays, None).

(** [csv.Writer.Write]: a write to the buffer that fails ends the call
    with its error. *)
Fixpoint csvWrite (n : nat) (record : list CsvField) : Prog (option error) :=
  match record with
  | [] => csvPut TNewline
  | field :: rest =>
      e <- (if (0 <? n)%nat then csvPut TComma else Ret None) ;;
      match e with
      | Some err => Ret (Some err)
      | None =>
          e <- csvPut (TField field) ;;
          match e with
          | Some err => Ret (Some err)
          | None => csvWrite (S n) rest
          end
      end
  end.

Definition record_of (result : DnsTestResult) : list CsvField :=
  [FStr (Domain result); FStr (Server result);
   FTime (Timestamp result); FMillis (Latency result)].

Definition writeResultToCsv (result : DnsTestResult) : Prog (option error) :=
  e <- csvWrite 0 (record_of result) ;;
  match e with
  | Some err => Ret (Some ("写入CSV记录失败: " ++ err)%string)
  | None => Ret None
  end.

(** The loop over [delays] in a worker (lines 223-233). *)
Fixpoint persistLoop (work : DnsWorkItem.t) (delays : list Duration) : Prog unit :=
  match delays with
  | [] => Ret tt
  | delay :: rest =>
      t <- now ;;
      let result := {| Domain := DnsWorkItem.Domain work;
                       Server := DnsWorkItem.DNSServer work;
                       Timestamp := t;
                       Latency := delay |} in
      e <- writeResultToCsv result ;;
      match e with
      | Some err => printf (LogCsvError err) ;;; persistLoop work rest
      | None => persistLoop work rest
      end
  end.

(** What a worker does with one item taken from the queue
    (lines 214-234). *)
Definition workerBody (cfg : Config) (work : DnsWorkItem.t) : Prog unit :=
  let domain := DnsWorkItem.Domain work in
  let dnsServer := DnsWorkItem.DNSServer work in
  '(avgDelay, delays, err) <-
    StartAndRecordLatencies domain dnsServer (TestCount cfg) (QueryInterval cfg) ;;
  match err with
  | Some e => printf (LogWorkError domain dnsServer e)
  | None =>
      printf (LogAverage domain dnsServer avgDelay) ;;;
      if SaveCsv cfg then persistLoop work delays else Ret tt
  end.

(** The nested loops of lines 239-243, a send on the channel appending to
    the queue. *)
Definition enqueueAll (domains dnsServers : list string)
    (workQueue : list DnsWorkItem.t) : list DnsWorkItem.t :=
  fold_left (fun workQueue domain =>
    fold_left (fun workQueue dnsServer =>
      workQueue ++ [DnsWorkItem.mk domain dnsServer]) dnsServers workQueue)
    domains workQueue.

Definition workItems (cfg : Config) : list DnsWorkItem.t :=
  enqueueAll (Domains cfg) (DNSServers cfg) [].

(** The Cartesian product as the specification words it: for each domain in
    order, each server in order. *)
Definition matrix (domains dnsServers : list string) : list DnsWorkItem.t :=
  flat_map (fun domain => map (DnsWorkItem.mk domain) dnsServers) domains.

Definition header : list CsvField :=
  [FStr "域名"; FStr "DNS服务器"; FStr "时间戳"; FStr "延时(毫秒)"].

(** [initCSV]; the name of the file is made from the clock reading
    [stamp], the deferred [Flush] runs once the writer exists. *)
Definition initCSV (stamp : Z) : Prog (option error) :=
  e <- file (MkdirAll "dns_test_results") ;;
  match e with
  | Some err => Ret (Some ("创建目录失败: " ++ err)%string)
  | None =>
      e <- file (OpenCsv stamp) ;;
      match e with
      | Some err => Ret (Some ("创建/打开CSV文件失败: " ++ err)%string)
      | None =>
          e <- csvWrite 0 header ;;
          file Flush ;;;
          match e with
          | Some err => Ret (Some ("写入CSV表头失败: " ++ err)%string)
          | None => Ret None
          end
      end
  end.

Definition setupLogging (logFile : string) : Prog (option error) :=
  e <- file (OpenLog logFile) ;;
  match e with
  | Some err => Ret (Some ("打开日志文件失败: " ++ err)%string)
  | None => Ret None
  end.

Definition NewDnsTestContext (config : Config) : Prog (option error) :=
  e <- (if SaveCsv config then stamp <- now ;; initCSV stamp else Ret None) ;;
  match e with
  | Some err => Ret (Some err)
  | None =>
      if LogToFile config then setupLogging "dns_test.log" else Ret None
  end.

(** ** The goroutines of [main] and [performTestRound] *)

(** The threads the scheduler picks from: [main], the workers of the
    current round, and the runtime, which ends the process once a goroutine
    has panicked. *)
Inductive Tid :=
| TMain
| TWorker (w : nat)
| TRuntime.

(** A worker is at the receive of [for work := range workQueue], inside
    the body of that loop, or its function has ended. *)
Inductive WState :=
| WRecv
| WBusy (p : Prog unit)
| WExit.

(** Where [main] is: at the test of its loop (line 262), inside
    [NewDnsTestContext], at lines 206-208, in the loop that starts the
    workers with [i] its variable, in the loops that fill the queue with
    [pending] still to send, at [wg.Wait], at the completion line
    (lines 248-250), at the flush (lines 273-275), or past its loop. *)
Inductive MainPC :=
| MLoop
| MCtx (p : Prog (option error))
| MMake
| MSpawn (i : Z)
| MSend (pending : list DnsWorkItem.t)
| MWait
| MLog
| MFlush
| MExit.

(** The process: the round and the place of [main], the channel, the
    counter of the wait group, the workers of the round, the trace, the
    panic of a goroutine the runtime has still to report, and whether the
    process has ended. *)
Record State := mkState {
  round : Z;
  pc : MainPC;
  queue : list DnsWorkItem.t;
  closed : bool;
  wg : Z;
  workers : list WState;
  trace : Trace;
  dying : option string;
  halted : bool
}.

(** The process once [loadConfig] has returned the configuration. *)
Definition init : State :=
  {| round := 1; pc := MLoop; queue := []; closed := false; wg := 0;
     workers := []; trace := []; dying := None; halted := false |}.

Definition set_round (s : State) (r : Z) : State :=
  mkState r (pc s) (queue s) (closed s) (wg s) (workers s) (trace s)
    (dying s) (halted s).

Definition set_pc (s : State) (pc' : MainPC) : State :=
  mkState (round s) pc' (queue s) (closed s) (wg s) (workers s) (trace s)
    (dying s) (halted s).

Definition set_queue (s : State) (q : list DnsWorkItem.t) : State :=
  mkState (round s) (pc s) q (closed s) (wg s) (workers s) (trace s)
    (dying s) (halted s).

Definition set_closed (s : State) (c : bool) : State :=
  mkState (round s) (pc s) (queue s) c (wg s) (workers s) (trace s)
    (dying s) (halted s).

Definition set_wg (s : State) (n : Z) : State :=
  mkState (round s) (pc s) (queue s) (closed s) n (workers s) (trace s)
    (dying s) (halted s).

Definition set_workers (s : State) (ws : list WState) : State :=
  mkState (round s) (pc s) (queue s) (closed s) (wg s) ws (trace s)
    (dying s) (halted s).

Definition set_worker (s : State) (w : nat) (ws : WState) : State :=
  set_workers s (<[w := ws]> (workers s)).

Definition emit (s : State) (e : Event) : State :=
  mkState (round s) (pc s) (queue s) (closed s) (wg s) (workers s)
    (trace s ++ [e]) (dying s) (halted s).

(** A goroutine panics: the first panic is the one the runtime reports. *)
Definition set_dying (s : State) (msg : string) : State :=
  mkState (round s) (pc s) (queue s) (closed s) (wg s) (workers s) (trace s)
    (match dying s with Some first => Some first | None => Some msg end)
    (halted s).

Definition halt (s : State) : State :=
  mkState (round s) (pc s) (queue s) (closed s) (wg s) (workers s) (trace s)
    (dying s) true.

Definition channel_capacity (cfg : Config) : nat :=
  (length (Domains cfg) * length (DNSServers cfg))%nat.

(** A step of [main]. [log.Fatalf] and a panic of [main] end the process
    at once: no worker is running then. So does the return of [main] after
    its loop. *)
Definition main_step (env : Env) (cfg : Config) (s : State) : option State :=
  match pc s with
  | MLoop =>
      if round s <=? TestRounds cfg
      then Some (set_pc s (MCtx (NewDnsTestContext cfg)))
      else Some (halt (set_pc s MExit))
  | MCtx (Ret None) => Some (set_pc s MMake)
  | MCtx (Ret (Some err)) =>
      Some (halt (emit s (EvLog (LogFatal ("初始化应用程序上下文失败: " ++ err)%string))))
  | MCtx (Panic msg) => Some (halt (emit s (EvPanic msg)))
  | MCtx p =>
      match act env (trace s) p with
      | Some (e, p') => Some (set_pc (emit s e) (MCtx p'))
      | None => None
      end
  | MMake =>
      if Concurrency cfg <? 0
      then Some (halt (emit s (EvPanic "sync: negative WaitGroup counter")))
      else Some (set_pc (set_workers (set_wg (set_closed (set_queue s []) false)
                   (Concurrency cfg)) []) (MSpawn 0))
  | MSpawn i =>
      if i <? Concurrency cfg
      then Some (set_pc (set_workers s (workers s ++ [WRecv])) (MSpawn (i + 1)))
      else Some (set_pc s (MSend (workItems cfg)))
  | MSend (work :: pending) =>
      if (length (queue s) <? channel_capacity cfg)%nat
      then Some (set_pc (set_queue s (queue s ++ [work])) (MSend pending))
      else None
  | MSend [] => Some (set_pc (set_closed s true) MWait)
  | MWait => if wg s =? 0 then Some (set_pc s MLog) else None
  | MLog => Some (set_pc (emit s (EvLog (LogRoundDone (round s)))) MFlush)
  | MFlush =>
      let s' := if SaveCsv cfg
                then emit s (EvFile Flush (file_error env (length (trace s))))
                else s in
      Some (set_pc (set_round s' (round s + 1)) MLoop)
  | MExit => None
  end.

(** A step of worker [w]. When its function ends, by the end of the
    [range] loop or by a panic in the body, the deferred [wg.Done()]
    runs. *)
Definition worker_step (env : Env) (cfg : Config) (w : nat) (ws : WState)
    (s : State) : option State :=
  match ws with
  | WRecv =>
      match queue s with
      | work :: rest =>
          Some (set_worker (emit (set_queue s rest) (EvDequeue (round s) w work))
                  w (WBusy (workerBody cfg work)))
      | [] =>
          if closed s
          then Some (set_worker (set_wg (emit s (EvReturn (round s) w None))
                       (wg s - 1)) w WExit)
          else None
      end
  | WBusy (Ret _) => Some (set_worker s w WRecv)
  | WBusy (Panic msg) =>
      Some (set_dying (set_worker (set_wg (emit s (EvReturn (round s) w (Some msg)))
                         (wg s - 1)) w WExit) msg)
  | WBusy p =>
      match act env (trace s) p with
      | Some (e, p') => Some (set_worker (emit s e) w (WBusy p'))
      | None => None
      end
  | WExit => None
  end.

(** One step of the thread the scheduler picks; [None] when that thread is
    blocked or gone, or the process has ended. *)
Definition exec_step (env : Env) (cfg : Config) (tid : Tid) (s : State) : option State :=
  if halted s then None
  else match tid with
       | TMain => main_step env cfg s
       | TWorker w =>
           match workers s !! w with
           | Some ws => worker_step env cfg w ws s
           | None => None
           end
       | TRuntime =>
           match dying s with
           | Some msg => Some (halt (emit s (EvPanic msg)))
           | None => None
           end
       end.

Inductive reachable (env : Env) (cfg : Config) : State → Prop :=
| reach_init : reachable env cfg init
| reach_step s tid s' :
    reachable env cfg s → exec_step env cfg tid s = Some s' →
    reachable env cfg s'.

Fixpoint run_schedule (env : Env) (cfg : Config) (sched : list Tid) (s : State)
    : option State :=
  match sched with
  | [] => Some s
  | tid :: rest =>
      match exec_step env cfg tid s with
      | Some s' => run_schedule env cfg rest s'
      | None => None
      end
  end.

(** ** What a trace shows *)

(** The tokens that reached the buffer of the CSV writer. *)
Fixpoint csv_tokens (t : Trace) : list CsvToken :=
  match t with
  | [] => []
  | EvCsv tok None :: t' => tok :: csv_tokens t'
  | _ :: t' => csv_tokens t'
  end.

(** The tokens of one whole record, as [csvWrite] puts them. *)
Fixpoint record_tokens (n : nat) (record : list CsvField) : list CsvToken :=
  match record with
  | [] => [TNewline]
  | field :: rest =>
      (if (0 <? n)%nat then [TComma] else []) ++
      TField field :: record_tokens (S n) rest
  end.

(** A buffer in which every record is whole and no two are mixed. *)
Definition serialized (toks : list CsvToken) : Prop :=
  ∃ records : list (list CsvField), toks = flat_map (record_tokens 0) records.

(** The items taken from the queue of round [r], each with the worker that
    took it, in the order they were taken. *)
Fixpoint dequeued (r : Z) (t : Trace) : list (nat * DnsWorkItem.t) :=
  match t with
  | [] => []
  | EvDequeue r' w work :: t' =>
      if r' =? r then (w, work) :: dequeued r t' else dequeued r t'
  | _ :: t' => dequeued r t'
  end.

(** The items worker [w] took in round [r]. *)
Definition seen (r : Z) (w : nat) (t : Trace) : list DnsWorkItem.t :=
  map snd (filter (fun x => fst x = w) (dequeued r t)).

(** The latencies of the successful ones among the [n] lookups that follow
    the first [c]. *)
Fixpoint successes (env : Env) (domain dnsServer : string) (c n : nat)
    : list Duration :=
  match n with
  | O => []
  | S n' =>
      match resolver env c domain dnsServer with
      | LookupOk latency => latency :: successes env domain dnsServer (S c) n'
      | LookupErr _ => successes env domain dnsServer (S c) n'
      end
  end.

Definition sum64 (delays : list Duration) : Z :=
  fold_left (fun sum delay => wrap64 (sum + delay)) delays 0.

Definition monotone (f : nat → Z) : Prop :=
  ∀ n m : nat, (n ≤ m)%nat → f n ≤ f m.

(** The events the loop of [StartAndRecordLatencies] leaves: [n] samples,
    the first of them lookup number [c], at index [i]. *)
Fixpoint sample_events (env : Env) (domain dnsServer : string)
    (interval : Duration) (c n : nat) (i : Z) : list Event :=
  match n with
  | O => []
  | S n' =>
      match resolver env c domain dnsServer with
      | LookupErr err =>
          EvLookup domain dnsServer (LookupErr err)
          :: EvLog (LogQueryError domain dnsServer i err)
          :: sample_events env domain dnsServer interval (S c) n' (i + 1)
      | LookupOk latency =>
          EvLookup domain dnsServer (LookupOk latency)
          :: EvLog (LogQueryDelay domain dnsServer i latency)
          :: EvSleep interval
          :: sample_events env domain dnsServer interval (S c) n' (i + 1)
      end
  end.

(** What may end a program with a value, whatever the world answers. *)
Fixpoint returns {A} (p : Prog A) (a : A) : Prop :=
  match p with
  | Ret b => b = a
  | Panic _ => False
  | Lookup _ _ k => ∃ r, returns (k r) a
  | Printf _ k => returns k a
  | Sleep _ k => returns k a
  | Now k => ∃ t, returns (k t) a
  | CsvPut _ k => ∃ e, returns (k e) a
  | File _ k => ∃ e, returns (k e) a
  end.

(** Every line a program can print satisfies [P]. *)
Fixpoint prints_only {A} (P : LogLine → Prop) (p : Prog A) : Prop :=
  match p with
  | Ret _ => True
  | Panic _ => True
  | Lookup _ _ k => ∀ r, prints_only P (k r)
  | Printf l k => P l ∧ prints_only P k
  | Sleep _ k => prints_only P k
  | Now k => ∀ t, prints_only P (k t)
  | CsvPut _ k => ∀ e, prints_only P (k e)
  | File _ k => ∀ e, prints_only P (k e)
  end.

(** The lines of a worker that are not the one of its error branch
    (line 216). *)
Definition worker_line (l : LogLine) : Prop :=
  match l with
  | LogQueryError _ _ _ _ => True
  | LogQueryDelay _ _ _ _ => True
  | LogAverage _ _ _ => True
  | LogCsvError _ => True
  | _ => False
  end.

(** The records a worker builds from [delays] when no write fails, the
    clock of the first read at position [pos] of the trace: a record takes
    one clock reading and eight puts. *)
Fixpoint persist_rows (env : Env) (work : DnsWorkItem.t) (pos : nat)
    (delays : list Duration) : list DnsTestResult :=
  match delays with
  | [] => []
  | delay :: rest =>
      {| Domain := DnsWorkItem.Domain work;
         Server := DnsWorkItem.DNSServer work;
         Timestamp := clock env pos;
         Latency := delay |} :: persist_rows env work (pos + 9) rest
  end.

Definition put_event (p : CsvToken * option error) : Event := EvCsv p.1 p.2.

(** In the events [evs], which follow position [lo] of a trace, every
    timestamp put to the CSV writer is the value of an earlier clock
    reading among them. *)
Definition stamped (env : Env) (lo : nat) (evs : list Event) : Prop :=
  ∀ (k : nat) ts err, evs !! k = Some (EvCsv (TField (FTime ts)) err) →
    ∃ n : nat, (n < k)%nat ∧ evs !! n = Some (EvNow ts) ∧ ts = clock env (lo + n).

(** ** The steps of the machine as a relation, and its invariant *)

(** Events that are not the bookkeeping of the queue and the barrier, nor
    the completion line, nor the line of a worker's error branch. *)
Definition plain (e : Event) : bool :=
  match e with
  | EvDequeue _ _ _ => false
  | EvReturn _ _ _ => false
  | EvLog (LogRoundDone _) => false
  | EvLog (LogWorkError _ _ _) => false
  | _ => true
  end.

Inductive step (env : Env) (cfg : Config) (s : State) : State → Prop :=
| step_enter :
    pc s = MLoop → round s ≤ TestRounds cfg →
    step env cfg s (set_pc s (MCtx (NewDnsTestContext cfg)))
| step_leave :
    pc s = MLoop → TestRounds cfg < round s →
    step env cfg s (halt (set_pc s MExit))
| step_ctx p e p' :
    pc s = MCtx p → act env (trace s) p = Some (e, p') →
    step env cfg s (set_pc (emit s e) (MCtx p'))
| step_ctx_ok :
    pc s = MCtx (Ret None) →
    step env cfg s (set_pc s MMake)
| step_halt e :
    (∃ msg, e = EvPanic msg) ∨ (∃ err, e = EvLog (LogFatal err)) →
    step env cfg s (halt (emit s e))
| step_make :
    pc s = MMake → 0 ≤ Concurrency cfg →
    step env cfg s
      (set_pc (set_workers (set_wg (set_closed (set_queue s []) false)
         (Concurrency cfg)) []) (MSpawn 0))
| step_spawn i :
    pc s = MSpawn i → i < Concurrency cfg →
    step env cfg s
      (set_pc (set_workers s (workers s ++ [WRecv])) (MSpawn (i + 1)))
| step_spawned i :
    pc s = MSpawn i → Concurrency cfg ≤ i →
    step env cfg s (set_pc s (MSend (workItems cfg)))
| step_send work pending :
    pc s = MSend (work :: pending) →
    (length (queue s) < channel_capacity cfg)%nat →
    step env cfg s (set_pc (set_queue s (queue s ++ [work])) (MSend pending))
| step_close :
    pc s = MSend [] →
    step env cfg s (set_pc (set_closed s true) MWait)
| step_wait :
    pc s = MWait → wg s = 0 →
    step env cfg s (set_pc s MLog)
| step_log :
    pc s = MLog →
    step env cfg s (set_pc (emit s (EvLog (LogRoundDone (round s)))) MFlush)
| step_flush s0 :
    pc s = MFlush →
    s0 = s ∨ (∃ err, s0 = emit s (EvFile Flush err)) →
    step env cfg s (set_pc (set_round s0 (round s + 1)) MLoop)
| step_dequeue w work rest :
    workers s !! w = Some WRecv → queue s = work :: rest →
    step env cfg s
      (set_worker (emit (set_queue s rest) (EvDequeue (round s) w work))
         w (WBusy (workerBody cfg work)))
| step_return w :
    workers s !! w = Some WRecv → queue s = [] → closed s = true →
    step env cfg s
      (set_worker (set_wg (emit s (EvReturn (round s) w None)) (wg s - 1)) w WExit)
| step_unwind w msg :
    workers s !! w = Some (WBusy (Panic msg)) →
    step env cfg s
      (set_dying (set_worker (set_wg (emit s (EvReturn (round s) w (Some msg)))
         (wg s - 1)) w WExit) msg)
| step_next w a :
    workers s !! w = Some (WBusy (Ret a)) →
    step env cfg s (set_worker s w WRecv)
| step_work w p e p' :
    workers s !! w = Some (WBusy p) → act env (trace s) p = Some (e, p') →
    step env cfg s (set_worker (emit s e) w (WBusy p')).

(** The number of workers [performTestRound] starts. *)
Definition pool (cfg : Config) : nat := Z.to_nat (Concurrency cfg).

(** The workers whose function has ended. *)
Fixpoint exited (ws : list WState) : nat :=
  match ws with
  | [] => 0%nat
  | WExit :: ws' => S (exited ws')
  | _ :: ws' => exited ws'
  end.

Definition quiet (ws : WState) : Prop :=
  match ws with
  | WBusy p => prints_only worker_line p
  | _ => True
  end.

(** The completion line of a round comes after the end of each of its
    workers and before any item of the next round is taken. *)
Definition barrier_order (cfg : Config) (t : Trace) : Prop :=
  ∀ pre n post, t = pre ++ EvLog (LogRoundDone n) :: post →
    (∀ w, (w < pool cfg)%nat → ∃ panic, In (EvReturn n w panic) pre) ∧
    (∀ w work, ¬ In (EvDequeue (n + 1) w work) pre).

(** The process was not ended by a panic or by [log.Fatalf]. *)
Definition no_crash (t : Trace) : Prop :=
  (∀ msg, ¬ In (EvPanic msg) t) ∧ (∀ err, ¬ In (EvLog (LogFatal err)) t).

(** The same as a test on the trace. *)
Definition is_crash (e : Event) : bool :=
  match e with
  | EvPanic _ => true
  | EvLog (LogFatal _) => true
  | _ => false
  end.

(** No worker of round [r] has panicked. *)
Definition no_panic (r : Z) (t : Trace) : Prop :=
  ∀ w msg, ¬ In (EvReturn r w (Some msg)) t.

(** The same as a test on the trace. *)
Definition is_panic (r : Z) (e : Event) : bool :=
  match e with
  | EvReturn r' _ (Some _) => r' =? r
  | _ => false
  end.

Definition no_dequeue_yet (s : State) : Prop :=
  ∀ w work, ¬ In (EvDequeue (round s) w work) (trace s).

Definition taken (s : State) : list DnsWorkItem.t :=
  map snd (dequeued (round s) (trace s)).

Definition ended (s : State) : Prop :=
  ∀ w, workers s !! w = Some WExit → ∃ panic, In (EvReturn (round s) w panic) (trace s).

Definition phase_inv (cfg : Config) (s : State) : Prop :=
  match pc s with
  | MLoop | MCtx _ | MMake | MExit =>
      Forall (eq WExit) (workers s) ∧ no_dequeue_yet s
  | MSpawn i =>
      0 ≤ i ≤ Concurrency cfg ∧ length (workers s) = Z.to_nat i ∧
      Forall (eq WRecv) (workers s) ∧ queue s = [] ∧ closed s = false ∧
      wg s = Concurrency cfg ∧ no_dequeue_yet s
  | MSend pending =>
      0 ≤ Concurrency cfg ∧ length (workers s) = pool cfg ∧
      closed s = false ∧
      wg s = Concurrency cfg - Z.of_nat (exited (workers s)) ∧
      (no_panic (round s) (trace s) → exited (workers s) = 0%nat) ∧
      taken s ++ queue s ++ pending = workItems cfg ∧
      ended s
  | MWait =>
      0 ≤ Concurrency cfg ∧ length (workers s) = pool cfg ∧
      closed s = true ∧
      wg s = Concurrency cfg - Z.of_nat (exited (workers s)) ∧
      (no_panic (round s) (trace s) → exited (workers s) ≠ 0%nat → queue s = []) ∧
      taken s ++ queue s = workItems cfg ∧
      ended s
  | MLog =>
      Forall (eq WExit) (workers s) ∧ length (workers s) = pool cfg ∧
      (no_panic (round s) (trace s) → 1 ≤ Concurrency cfg →
       taken s = workItems cfg) ∧
      (∀ w, (w < pool cfg)%nat →
         ∃ panic, In (EvReturn (round s) w panic) (trace s))
  | MFlush =>
      Forall (eq WExit) (workers s) ∧
      In (EvLog (LogRoundDone (round s))) (trace s)
  end.

Record Inv (cfg : Config) (s : State) : Prop := {
  inv_quiet : Forall quiet (workers s);
  inv_ctx :
    match pc s with
    | MCtx p => prints_only (λ _, False) p
    | _ => True
    end;
  inv_dequeue : ∀ r w work, In (EvDequeue r w work) (trace s) →
    r ≤ round s ∧ (w < pool cfg)%nat;
  inv_done : ∀ r, In (EvLog (LogRoundDone r)) (trace s) →
    r < round s ∨ (r = round s ∧ pc s = MFlush);
  inv_no_work_error : ∀ domain dnsServer err,
    ¬ In (EvLog (LogWorkError domain dnsServer err)) (trace s);
  inv_order : barrier_order cfg (trace s);
  inv_complete : ∀ r, In (EvLog (LogRoundDone r)) (trace s) →
    1 ≤ Concurrency cfg → no_panic r (trace s) →
    map snd (dequeued r (trace s)) = workItems cfg;
  inv_prefix : ∀ r, map snd (dequeued r (trace s)) `prefix_of` workItems cfg;
  inv_rounds : ∀ r, 1 ≤ r < round s → In (EvLog (LogRoundDone r)) (trace s);
  inv_exit : pc s = MExit → halted s = true ∧ TestRounds cfg < round s;
  inv_halt : halted s = true →
    pc s = MExit ∨ (∃ msg, In (EvPanic msg) (trace s)) ∨
    (∃ err, In (EvLog (LogFatal err)) (trace s));
  inv_phase : phase_inv cfg s
}.

(** ** The length of a run *)

(** A program makes at most [n] actions, whatever the world answers. *)
Fixpoint bounded {A} (n : nat) (p : Prog A) {struct p} : Prop :=
  match p with
  | Ret _ => True
  | Panic _ => True
  | Lookup _ _ k => match n with O => False | S n' => ∀ r, bounded n' (k r) end
  | Printf _ k => match n with O => False | S n' => bounded n' k end
  | Sleep _ k => match n with O => False | S n' => bounded n' k end
  | Now k => match n with O => False | S n' => ∀ t, bounded n' (k t) end
  | CsvPut _ k => match n with O => False | S n' => ∀ e, bounded n' (k e) end
  | File _ k => match n with O => False | S n' => ∀ e, bounded n' (k e) end
  end.

(** The actions of the body of a worker's loop for one item: three per
    sample, the line of the average, and eleven per record. *)
Definition body_bound (cfg : Config) : nat :=
  (14 * Z.to_nat (TestCount cfg) + 1)%nat.

(** The actions of [NewDnsTestContext]. *)
Definition ctx_bound : nat := 14.

(** The steps an item still on the queue stands for: its receive, the
    body, and the way back to the receive. *)
Definition item_cost (cfg : Config) : nat := (body_bound cfg + 2)%nat.

(** [b] steps are enough for a worker in state [ws], the items it may
    still take apart. *)
Definition wfit (b : nat) (ws : WState) : Prop :=
  match ws with
  | WRecv => (1 ≤ b)%nat
  | WBusy p => ∃ d, bounded d p ∧ (d + 2 ≤ b)%nat
  | WExit => True
  end.

(** The steps [main] has left in a round, from the place it is at; [d]
    bounds what is left of [NewDnsTestContext]. *)
Definition rank (cfg : Config) (pc : MainPC) (d : nat) : nat :=
  let sends := (length (workItems cfg) * (item_cost cfg + 1))%nat in
  match pc with
  | MLoop => 0
  | MCtx _ => 7 + sends + 2 * pool cfg + d
  | MMake => 6 + sends + 2 * pool cfg
  | MSpawn i => 5 + sends + 2 * Z.to_nat (Concurrency cfg - i)
  | MSend pending => 4 + length pending * (item_cost cfg + 1)
  | MWait => 3
  | MLog => 2
  | MFlush => 1
  | MExit => 0
  end%nat.

Definition round_cost (cfg : Config) : nat :=
  (8 + length (workItems cfg) * (item_cost cfg + 1) + 2 * pool cfg + ctx_bound)%nat.

(** The rounds [main] has still to enter. *)
Definition rounds_left (cfg : Config) (r : Z) (pc : MainPC) : nat :=
  match pc with
  | MLoop => Z.to_nat (TestRounds cfg - r + 1)
  | _ => Z.to_nat (TestRounds cfg - r)
  end.

Definition ctx_fit (pc : MainPC) (d : nat) : Prop :=
  match pc with
  | MCtx p => bounded d p
  | _ => True
  end.

Definition cost (cfg : Config) (s : State) (d : nat) (bs : list nat) : nat :=
  (rounds_left cfg (round s) (pc s) * round_cost cfg + rank cfg (pc s) d +
   length (queue s) * item_cost cfg + sum_list bs + 1)%nat.

(** [m] steps cover what the process has left in state [s]. *)
Definition fits (cfg : Config) (m : nat) (s : State) : Prop :=
  ∃ (d : nat) (bs : list nat),
    ctx_fit (pc s) d ∧ Forall2 wfit bs (workers s) ∧ (cost cfg s d bs ≤ m)%nat.

(** The longest a run of the process may be. *)
Definition run_bound (cfg : Config) : nat :=
  (Z.to_nat (TestRounds cfg) * round_cost cfg + 1)%nat.

(** The sum of the delays as a number, without wrap-around. *)
Definition total (delays : list Duration) : Z := foldr Z.add 0 delays.

(** Where a reader of the CSV buffer is: at the start of a record, after a
    field, after a comma. [whole] reads a buffer from a position and tells
    whether it ends at the start of a record. *)
Inductive Pos :=
| AtStart
| AfterField
| AfterComma.

Fixpoint whole (pos : Pos) (toks : list CsvToken) : bool :=
  match toks with
  | [] => match pos with AtStart => true | _ => false end
  | tok :: toks' =>
      match pos, tok with
      | AtStart, TNewline => whole AtStart toks'
      | AtStart, TField _ => whole AfterField toks'
      | AfterField, TComma => whole AfterComma toks'
      | AfterField, TNewline => whole AtStart toks'
      | AfterComma, TField _ => whole AfterField toks'
      | _, _ => false
      end
  end.

(** ** Fixtures *)

Module Fixtures.

(** A resolver that answers the [n]-th lookup with the [n]-th entry of a
    script and fails once the script is over, a clock that ticks once per
    event, a file system that never fails. *)
Definition scripted (script : list LookupResult) : Env :=
  {| resolver := fun n _ _ => nth n script (LookupErr "i/o timeout");
     clock := fun n => Z.of_nat n;
     csv_error := fun _ => None;
     file_error := fun _ => None |}.

Definition ms (n : Z) : Duration := n * Millisecond.

Definition config (domains : list string) (count concurrency : Z)
    (saveCsv : bool) (rounds : Z) : Config :=
  {| Domains := domains; DNSServers := ["8.8.8.8"]; TestCount := count;
     QueryInterval := 0; Concurrency := concurrency; LogToFile := false;
     SaveCsv := saveCsv; TestRounds := rounds |}.

Definition a_com : DnsWorkItem.t := DnsWorkItem.mk "a.com" "8.8.8.8".
Definition b_com : DnsWorkItem.t := DnsWorkItem.mk "b.com" "8.8.8.8".

(** The state after a schedule, the initial state when the schedule
    cannot be run. *)
Definition after (env : Env) (cfg : Config) (sched : list Tid) : State :=
  default init (run_schedule env cfg sched init).

(** The end-to-end example of the specification: one domain, one server,
    three samples of 10, 20 and 30 ms. *)
Definition env_10_20_30 : Env :=
  scripted [LookupOk (ms 10); LookupOk (ms 20); LookupOk (ms 30)].
Definition cfg_10_20_30 : Config := config ["a.com"] 3 1 true 1.

(** Five samples of which the second and the fourth fail. *)
Definition env_2_4_fail : Env :=
  scripted [LookupOk (ms 10); LookupErr "i/o timeout"; LookupOk (ms 20);
            LookupErr "i/o timeout"; LookupOk (ms 60)].
Definition cfg_2_4_fail : Config := config ["a.com"] 5 1 true 1.

(** Two samples of 1 ns and 2 ns, nothing saved. *)
Definition env_1_2 : Env := scripted [LookupOk 1; LookupOk 2].
Definition cfg_1_2 : Config := config ["a.com"] 2 1 false 1.

(** Two domains and two workers, one sample each, records saved: the
    first worker puts the first field of its record, the second worker
    the first two tokens of its own, then each finishes. *)
Definition env_two : Env := scripted [LookupOk (ms 10); LookupOk (ms 20)].
Definition cfg_two : Config := config ["a.com"; "b.com"] 1 2 true 1.
Definition sched_two : list Tid :=
  replicate 21 TMain ++ replicate 7 (TWorker 0) ++ replicate 8 (TWorker 1) ++
  replicate 9 (TWorker 0) ++ replicate 8 (TWorker 1) ++ replicate 4 TMain.

(** Two rounds of one domain with one worker. *)
Definition cfg_rounds : Config := config ["a.com"] 1 1 false 2.
Definition sched_rounds : list Tid :=
  replicate 7 TMain ++ replicate 7 (TWorker 0) ++ replicate 3 TMain ++
  replicate 7 TMain ++ replicate 7 (TWorker 0) ++ replicate 4 TMain.

(** Two domains and one worker; the only sample of the first domain
    fails. *)
Definition env_fail : Env := scripted [LookupErr "i/o timeout"; LookupOk (ms 20)].
Definition cfg_fail : Config := config ["a.com"; "b.com"] 1 1 false 1.
Definition sched_fail : list Tid :=
  replicate 8 TMain ++ replicate 4 (TWorker 0) ++ [TRuntime].

(** The same run, but the runtime has not yet ended the process when
    [main] passes the barrier. *)
Definition sched_late : list Tid :=
  replicate 8 TMain ++ replicate 4 (TWorker 0) ++ replicate 2 TMain ++
  [TRuntime].

End Fixtures.

(** ** What else a trace shows *)

(** The lookups of a trace with their answers, its sleeps, the lines it
    prints, its clock readings and the errors of the puts that failed,
    each in order. *)
Fixpoint queries (t : Trace) : list (string * string * LookupResult) :=
  match t with
  | [] => []
  | EvLookup domain dnsServer r :: t' => (domain, dnsServer, r) :: queries t'
  | _ :: t' => queries t'
  end.

Fixpoint sleeps (t : Trace) : list Duration :=
  match t with
  | [] => []
  | EvSleep d :: t' => d :: sleeps t'
  | _ :: t' => sleeps t'
  end.

Fixpoint log_lines (t : Trace) : list LogLine :=
  match t with
  | [] => []
  | EvLog l :: t' => l :: log_lines t'
  | _ :: t' => log_lines t'
  end.

Fixpoint clock_reads (t : Trace) : list Z :=
  match t with
  | [] => []
  | EvNow c :: t' => c :: clock_reads t'
  | _ :: t' => clock_reads t'
  end.

Fixpoint put_errors (t : Trace) : list error :=
  match t with
  | [] => []
  | EvCsv _ (Some err) :: t' => err :: put_errors t'
  | _ :: t' => put_errors t'
  end.

(** A put that went through. *)
Definition put_ok (tok : CsvToken) : Event := EvCsv tok None.

(** ** The steps of the machine, one constructor per branch of the code *)

(** The same steps as [exec_step], told apart by the branch of [main], of
    a worker or of the runtime that is taken. *)
Inductive transition (env : Env) (cfg : Config) (s : State) : State → Prop :=
| tr_enter :
    pc s = MLoop → round s ≤ TestRounds cfg →
    transition env cfg s (set_pc s (MCtx (NewDnsTestContext cfg)))
| tr_leave :
    pc s = MLoop → TestRounds cfg < round s →
    transition env cfg s (halt (set_pc s MExit))
| tr_ctx p e p' :
    pc s = MCtx p → act env (trace s) p = Some (e, p') →
    transition env cfg s (set_pc (emit s e) (MCtx p'))
| tr_ctx_ok :
    pc s = MCtx (Ret None) →
    transition env cfg s (set_pc s MMake)
| tr_fatal err :
    pc s = MCtx (Ret (Some err)) →
    transition env cfg s
      (halt (emit s (EvLog (LogFatal ("初始化应用程序上下文失败: " ++ err)%string))))
| tr_ctx_panic msg :
    pc s = MCtx (Panic msg) →
    transition env cfg s (halt (emit s (EvPanic msg)))
| tr_bad_pool :
    pc s = MMake → Concurrency cfg < 0 →
    transition env cfg s
      (halt (emit s (EvPanic "sync: negative WaitGroup counter")))
| tr_make :
    pc s = MMake → 0 ≤ Concurrency cfg →
    transition env cfg s
      (set_pc (set_workers (set_wg (set_closed (set_queue s []) false)
         (Concurrency cfg)) []) (MSpawn 0))
| tr_spawn i :
    pc s = MSpawn i → i < Concurrency cfg →
    transition env cfg s
      (set_pc (set_workers s (workers s ++ [WRecv])) (MSpawn (i + 1)))
| tr_spawned i :
    pc s = MSpawn i → Concurrency cfg ≤ i →
    transition env cfg s (set_pc s (MSend (workItems cfg)))
| tr_send work pending :
    pc s = MSend (work :: pending) →
    (length (queue s) < channel_capacity cfg)%nat →
    transition env cfg s
      (set_pc (set_queue s (queue s ++ [work])) (MSend pending))
| tr_close :
    pc s = MSend [] →
    transition env cfg s (set_pc (set_closed s true) MWait)
| tr_wait :
    pc s = MWait → wg s = 0 →
    transition env cfg s (set_pc s MLog)
| tr_log :
    pc s = MLog →
    transition env cfg s
      (set_pc (emit s (EvLog (LogRoundDone (round s)))) MFlush)
| tr_flush :
    pc s = MFlush →
    transition env cfg s
      (set_pc (set_round
         (if SaveCsv cfg
          then emit s (EvFile Flush (file_error env (length (trace s))))
          else s) (round s + 1)) MLoop)
| tr_dequeue w work rest :
    workers s !! w = Some WRecv → queue s = work :: rest →
    transition env cfg s
      (set_worker (emit (set_queue s rest) (EvDequeue (round s) w work))
         w (WBusy (workerBody cfg work)))
| tr_return w :
    workers s !! w = Some WRecv → queue s = [] → closed s = true →
    transition env cfg s
      (set_worker (set_wg (emit s (EvReturn (round s) w None)) (wg s - 1)) w WExit)
| tr_unwind w msg :
    workers s !! w = Some (WBusy (Panic msg)) →
    transition env cfg s
      (set_dying (set_worker (set_wg (emit s (EvReturn (round s) w (Some msg)))
         (wg s - 1)) w WExit) msg)
| tr_next w a :
    workers s !! w = Some (WBusy (Ret a)) →
    transition env cfg s (set_worker s w WRecv)
| tr_work w p e p' :
    workers s !! w = Some (WBusy p) → act env (trace s) p = Some (e, p') →
    transition env cfg s (set_worker (emit s e) w (WBusy p'))
| tr_crash msg :
    dying s = Some msg →
    transition env cfg s (halt (emit s (EvPanic msg))).

(** ** What a program can do in a given world *)

(** The answers the world may give: to a lookup, to a put to the CSV
    writer, to an operation on a file. *)
Record World := {
  w_lookup : LookupResult → Prop;
  w_csv : option error → Prop;
  w_file : option error → Prop
}.

(** Any answer at all. *)
Definition any_world : World :=
  {| w_lookup := λ _, True; w_csv := λ _, True; w_file := λ _, True |}.

(** Every lookup is answered and nothing fails. *)
Definition kind_world : World :=
  {| w_lookup := λ r, ∃ latency, r = LookupOk latency;
     w_csv := λ e, e = None;
     w_file := λ e, e = None |}.

Definition lives_in (env : Env) (W : World) : Prop :=
  (∀ n domain dnsServer, w_lookup W (resolver env n domain dnsServer)) ∧
  (∀ n, w_csv W (csv_error env n)) ∧
  (∀ n, w_file W (file_error env n)).

(** In the world [W], every event the program leaves satisfies [P], a
    panic it ends in counting as the event the runtime reports, and every
    value it returns satisfies [Q]. *)
Fixpoint wp {A} (W : World) (P : Event → Prop) (Q : A → Prop) (p : Prog A)
    : Prop :=
  match p with
  | Ret a => Q a
  | Panic msg => P (EvPanic msg)
  | Lookup domain dnsServer k =>
      ∀ r, w_lookup W r → P (EvLookup domain dnsServer r) ∧ wp W P Q (k r)
  | Printf l k => P (EvLog l) ∧ wp W P Q k
  | Sleep d k => P (EvSleep d) ∧ wp W P Q k
  | Now k => ∀ c, P (EvNow c) ∧ wp W P Q (k c)
  | CsvPut tok k => ∀ e, w_csv W e → P (EvCsv tok e) ∧ wp W P Q (k e)
  | File op k => ∀ e, w_file W e → P (EvFile op e) ∧ wp W P Q (k e)
  end.

(** [P] holds of the events the machine adds by itself: the bookkeeping
    of the queue and of the barrier, the completion line, the flush of
    line 274, the line of [log.Fatalf] and the panic of [wg.Add]. *)
Record machine_closed (cfg : Config) (P : Event → Prop) : Prop := {
  mc_dequeue : ∀ r w work, In work (workItems cfg) → P (EvDequeue r w work);
  mc_return : ∀ r w, P (EvReturn r w None);
  mc_unwind : ∀ r w msg, P (EvPanic msg) → P (EvReturn r w (Some msg));
  mc_done : ∀ r, P (EvLog (LogRoundDone r));
  mc_flush : SaveCsv cfg = true → ∀ e, P (EvFile Flush e);
  mc_pool : Concurrency cfg < 0 → P (EvPanic "sync: negative WaitGroup counter")
}.

(** What [main] does with the error of [NewDnsTestContext] (line 265). *)
Definition fatal_line (err : error) : Event :=
  EvLog (LogFatal ("初始化应用程序上下文失败: " ++ err)%string).

(** The invariant of the events: the trace, the programs the threads
    still have to run, the panic still to report and the items still to
    take. *)
Record events_inv (cfg : Config) (W : World) (P : Event → Prop) (s : State)
    : Prop := {
  ei_trace : Forall P (trace s);
  ei_workers : ∀ w p, workers s !! w = Some (WBusy p) → wp W P (λ _, True) p;
  ei_ctx : ∀ p, pc s = MCtx p →
    wp W P (λ res, ∀ err, res = Some err → P (fatal_line err)) p;
  ei_dying : ∀ msg, dying s = Some msg → P (EvPanic msg);
  ei_queue : Forall (λ work, In work (workItems cfg)) (queue s);
  ei_pending : ∀ pending, pc s = MSend pending →
    Forall (λ work, In work (workItems cfg)) pending
}.

(** ** The events to expect from a configuration *)

(** The channel of [performTestRound] can be made: [make] panics when the
    items of the channel, two strings each, need more than the runtime can
    allocate. The machine has no step for that panic; what is proved of a
    process that does not go wrong is proved for matrices the channel can
    be made for. *)
Definition chan_fits (cfg : Config) : Prop :=
  32 * Z.of_nat (channel_capacity cfg) ≤ maxAlloc - 96.

(** The counter of the loop of [main] stays an [int]: with [test_rounds]
    the largest [int], [round++] would wrap around after the last round.
    The machine counts the rounds in [Z]; what is proved about the number
    of rounds is proved for a [test_rounds] below that. *)
Definition rounds_fit (cfg : Config) : Prop := TestRounds cfg < 2 ^ 63 - 1.

(** The counter of a [sync.WaitGroup] is an [int32]: [wg.Add] adds its
    argument cut to 32 bits, so a [concurrency] of [2 ^ 31] makes the
    counter negative and one of [- 2 ^ 32] leaves it as it is. The machine
    adds [concurrency] as it stands; the two agree, in the counter and in
    the panic of [wg.Add], when [concurrency] is in the range of an
    [int32]. What is proved of the counter, of the panics and of the
    barrier is proved in that range. The memory so many goroutines would
    take is not part of the machine. *)
Definition pool_fits (cfg : Config) : Prop :=
  - 2 ^ 31 ≤ Concurrency cfg < 2 ^ 31.

(** The workers of a round write to the one [csv.Writer] with no lock
    (lines 111 and 230). The machine runs each put to the buffer as one
    step; two workers writing at once can in fact damage the buffer
    itself. No two workers write at once when nothing is saved or when
    there is at most one worker; what is proved of a process that does not
    go wrong is proved for such configurations. *)
Definition one_writer (cfg : Config) : Prop :=
  SaveCsv cfg = false ∨ Concurrency cfg ≤ 1.

(** The panics of the program: the division of [calculateAverageDelay],
    the [make] of [StartAndRecordLatencies] on a count it cannot allocate
    for, and [wg.Add] on a negative number of workers. *)
Definition cause (cfg : Config) (msg : string) : Prop :=
  msg = "runtime error: integer divide by zero" ∨
  (msg = "runtime error: makeslice: cap out of range" ∧
   (TestCount cfg < 0 ∨ maxAlloc < 8 * TestCount cfg)) ∨
  (msg = "sync: negative WaitGroup counter" ∧ Concurrency cfg < 0).

Definition configured (cfg : Config) (domain dnsServer : string) : Prop :=
  In (DnsWorkItem.mk domain dnsServer) (workItems cfg).

Definition expected (cfg : Config) (e : Event) : Prop :=
  match e with
  | EvLookup domain dnsServer _ => configured cfg domain dnsServer
  | EvLog (LogQueryError domain dnsServer i _) =>
      configured cfg domain dnsServer ∧ 1 ≤ i ≤ TestCount cfg
  | EvLog (LogQueryDelay domain dnsServer i _) =>
      configured cfg domain dnsServer ∧ 1 ≤ i ≤ TestCount cfg
  | EvLog (LogAverage domain dnsServer _) => configured cfg domain dnsServer
  | EvLog (LogCsvError _) => SaveCsv cfg = true
  | EvLog (LogWorkError _ _ _) => False
  | EvLog (LogRoundDone _) => True
  | EvLog (LogFatal _) => SaveCsv cfg = true ∨ LogToFile cfg = true
  | EvSleep d => d = QueryInterval cfg
  | EvNow _ => SaveCsv cfg = true
  | EvCsv _ _ => SaveCsv cfg = true
  | EvFile (OpenLog _) _ => LogToFile cfg = true
  | EvFile _ _ => SaveCsv cfg = true
  | EvPanic msg => cause cfg msg
  | EvDequeue _ _ work => In work (workItems cfg)
  | EvReturn _ _ (Some msg) => cause cfg msg
  | EvReturn _ _ None => True
  end.

(** The events of a run in which nothing goes wrong: no panic, no
    [log.Fatalf], no line that reports an error. *)
Definition calm (e : Event) : Prop :=
  match e with
  | EvPanic _ => False
  | EvReturn _ _ (Some _) => False
  | EvLog (LogFatal _) => False
  | EvLog (LogQueryError _ _ _ _) => False
  | EvLog (LogCsvError _) => False
  | EvLog (LogWorkError _ _ _) => False
  | _ => True
  end.

(** ** More fixtures *)

Module Examples.

(** A resolver that answers every lookup with the same latency, a clock
    that ticks once per event, a file system that never fails. *)
Definition steady (latency : Duration) : Env :=
  {| resolver := fun _ _ _ => LookupOk latency;
     clock := fun n => Z.of_nat n;
     csv_error := fun _ => None;
     file_error := fun _ => None |}.

(** One domain, one worker, one sample, nothing saved: a round of
    [main] to its end. *)
Definition cfg_one : Config := Fixtures.config ["a.com"] 1 1 false 1.
Definition sched_one : list Tid :=
  replicate 7 TMain ++ replicate 7 (TWorker 0) ++ replicate 4 TMain.

End Examples.

(** ** Counting *)

(** The rounds whose completion line is in the trace, in the order of the
    lines. *)
Fixpoint done_rounds (t : Trace) : list Z :=
  match t with
  | [] => []
  | EvLog (LogRoundDone r) :: t' => r :: done_rounds t'
  | _ :: t' => done_rounds t'
  end.

(** The receives from the queue, all rounds together. *)
Fixpoint takes (t : Trace) : nat :=
  match t with
  | [] => 0%nat
  | EvDequeue _ _ _ :: t' => S (takes t')
  | _ :: t' => takes t'
  end.

(** The receives of the rounds before round [r]. *)
Fixpoint takes_before (r : Z) (t : Trace) : nat :=
  match t with
  | [] => 0%nat
  | EvDequeue r' _ _ :: t' =>
      ((if (r' <? r)%Z then 1 else 0) + takes_before r t')%nat
  | _ :: t' => takes_before r t'
  end.

(** Every way through the program makes exactly [n] lookups, whether it
    ends with a value or with a panic. *)
Fixpoint looks {A} (n : nat) (p : Prog A) {struct p} : Prop :=
  match p with
  | Ret _ => n = 0%nat
  | Panic _ => n = 0%nat
  | Lookup _ _ k => match n with O => False | S n' => ∀ r, looks n' (k r) end
  | Printf _ k => looks n k
  | Sleep _ k => looks n k
  | Now k => ∀ c, looks n (k c)
  | CsvPut _ k => ∀ e, looks n (k e)
  | File _ k => ∀ e, looks n (k e)
  end.

(** The lookups of the body of a worker's loop for one item: none when
    [make] panics. *)
Definition samples (cfg : Config) : nat :=
  if (TestCount cfg <? 0) || (maxAlloc <? 8 * TestCount cfg)
  then 0%nat else Z.to_nat (TestCount cfg).

(** The lookups a worker has still to make for the item it holds. *)
Definition wlooks (n : nat) (ws : WState) : Prop :=
  match ws with
  | WBusy p => looks n p
  | _ => n = 0%nat
  end.

(** The lookups made and those the workers still owe are the samples of
    the items taken. *)
Record lookups_inv (cfg : Config) (s : State) : Prop := {
  li_ctx : ∀ p, pc s = MCtx p → looks 0 p;
  li_count : ∃ ns, Forall2 wlooks ns (workers s) ∧
    (lookups (trace s) + sum_list ns = samples cfg * takes (trace s))%nat
}.

(** Outside the lines between [wg.Add] and the return of [wg.Wait] the
    counter of the wait group is zero; there are never more workers than
    [performTestRound] starts. *)
Definition idle (cfg : Config) (s : State) : Prop :=
  (length (workers s) ≤ pool cfg)%nat ∧
  match pc s with
  | MSpawn _ | MSend _ | MWait => True
  | _ => wg s = 0
  end.

(** The number of the round [main] is in: from one to [test_rounds]
    inside the loop, one more when the loop is left. The rounds that have
    printed their completion line are those before it, and the current one
    once its line is printed. *)
Definition rounds_inv (cfg : Config) (s : State) : Prop :=
  1 ≤ round s ≤ Z.max 1 (TestRounds cfg + 1) ∧
  match pc s with
  | MLoop => True
  | MExit => TestRounds cfg < round s
  | _ => round s ≤ TestRounds cfg
  end ∧
  done_rounds (trace s) =
    map Z.of_nat
      (seq 1 (Z.to_nat (match pc s with MFlush => round s | _ => round s - 1 end))).

(** The items taken in the rounds before the current one: at most the
    matrix for each of them, and the whole matrix when no worker has
    panicked and there is at least one worker. *)
Definition past_inv (cfg : Config) (s : State) : Prop :=
  (takes_before (round s) (trace s) ≤
   Z.to_nat (round s - 1) * length (workItems cfg))%nat ∧
  ((∀ r, no_panic r (trace s)) → 1 ≤ Concurrency cfg →
   takes_before (round s) (trace s) =
   (Z.to_nat (round s - 1) * length (workItems cfg))%nat).

(** With a negative [concurrency] the process does not get past
    [wg.Add] in its first round. *)
Definition stuck_at_add (s : State) : Prop :=
  round s = 1 ∧
  match pc s with
  | MLoop | MCtx _ | MMake | MExit => True
  | _ => False
  end.

(** A line of [log.Fatalf] or a panic the runtime reports is the last
    thing a process does. *)
Definition last_words (s : State) : Prop :=
  ∀ e, In e (trace s) → is_crash e = true →
    halted s = true ∧ last (trace s) = Some e ∧
    (∀ err, e = EvLog (LogFatal err) →
       ∃ cause, pc s = MCtx (Ret (Some cause)) ∧
                EvLog (LogFatal err) = fatal_line cause).

(** ** Records written by one worker at a time *)

(** The place of a reader of the CSV buffer after one more token, when
    that token can follow, and after a list of tokens. *)
Definition next (pos : Pos) (tok : CsvToken) : option Pos :=
  match pos, tok with
  | AtStart, TNewline => Some AtStart
  | AtStart, TField _ => Some AfterField
  | AfterField, TComma => Some AfterComma
  | AfterField, TNewline => Some AtStart
  | AfterComma, TField _ => Some AfterField
  | _, _ => None
  end.

Fixpoint reads (pos : Pos) (toks : list CsvToken) : option Pos :=
  match toks with
  | [] => Some pos
  | tok :: toks' =>
      match next pos tok with
      | Some pos' => reads pos' toks'
      | None => None
      end
  end.

(** With a CSV writer that does not fail, the program takes the buffer
    from the place [pos] through places a reader accepts, panics only
    between two records, and ends with a value and at a place that
    satisfy [Q]. *)
Fixpoint wr {A} (pos : Pos) (Q : A → Pos → Prop) (p : Prog A) : Prop :=
  match p with
  | Ret a => Q a pos
  | Panic _ => pos = AtStart
  | Lookup _ _ k => ∀ r, wr pos Q (k r)
  | Printf _ k => wr pos Q k
  | Sleep _ k => wr pos Q k
  | Now k => ∀ c, wr pos Q (k c)
  | CsvPut tok k => ∃ pos', next pos tok = Some pos' ∧ wr pos' Q (k None)
  | File _ k => ∀ e, wr pos Q (k e)
  end.

(** The buffer up to now can be read, and whoever is writing, [main] in
    [NewDnsTestContext] or the worker in the body of its loop, goes on
    from the place the reader is at; between two writers the reader is at
    the start of a record. *)
Definition csv_inv (s : State) : Prop :=
  ∃ pos, reads AtStart (csv_tokens (trace s)) = Some pos ∧
    (∀ p, pc s = MCtx p → wr pos (λ _ pos', pos' = AtStart) p) ∧
    (∀ w p, workers s !! w = Some (WBusy p) →
       wr pos (λ _ pos', pos' = AtStart) p) ∧
    ((∀ p, pc s ≠ MCtx p) → (∀ w p, workers s !! w ≠ Some (WBusy p)) →
     pos = AtStart).

Module Saved.

(** The end-to-end example run to its end: one worker saves the three
    records of the one item. *)
Definition sched : list Tid :=
  replicate 19 TMain ++ replicate 40 (TWorker 0) ++ replicate 4 TMain.

End Saved.

(** * Proofs *)

(** ** Running programs *)

Section Running.
Context (env : Env).

Lemma lookups_app (t1 t2 : Trace) :
  lookups (t1 ++ t2) = (lookups t1 + lookups t2)%nat.
Proof. induction t1 as [|e t1 IH]; simpl; [done | rewrite IH; lia]. Qed.

Lemma csv_tokens_app (t1 t2 : Trace) :
  csv_tokens (t1 ++ t2) = csv_tokens t1 ++ csv_tokens t2.
Proof.
  induction t1 as [|e t1 IH]; simpl; [done |].
  destruct e as [| | | |tok [err|]| | | |]; simpl; by rewrite ?IH.
Qed.

Lemma run_bind {A B} (m : Prog A) (f : A → Prog B) (t : Trace) :
  run env (bind m f) t =
  match run env m t with
  | (t1, Done a) => run env (f a) t1
  | (t1, Panicked msg) => (t1, Panicked msg)
  end.
Proof.
  revert t; induction m as [a|msg|d s k IH|l k IH|d k IH|k IH|tok k IH|op k IH];
    intros t; simpl; auto.
Qed.

Lemma run_extends {A} (p : Prog A) (t : Trace) :
  ∃ evs, (run env p t).1 = t ++ evs.
Proof.
  revert t; induction p as [a|msg|d s k IH|l k IH|d k IH|k IH|tok k IH|op k IH];
    intros t; simpl;
    try (by exists []; rewrite app_nil_r);
    match goal with
    | |- ∃ evs, (run env ?p (t ++ [?e])).1 = _ =>
        let H := fresh in
        assert (H : ∃ evs, (run env p (t ++ [e])).1 = (t ++ [e]) ++ evs) by apply IH;
        destruct H as [evs ->]; exists (e :: evs); by rewrite <- app_assoc
    end.
Qed.

Lemma run_returns {A} (p : Prog A) (t t' : Trace) (a : A) :
  run env p t = (t', Done a) → returns p a.
Proof.
  revert t; induction p as [b|msg|d s k IH|l k IH|d k IH|k IH|tok k IH|op k IH];
    intros t; simpl; try (intros; eauto; fail).
  - by intros [= _ ->].
  - discriminate.
Qed.

End Running.

(** ** Programs as syntax: what they can return and print *)

Lemma returns_bind {A B} (m : Prog A) (f : A → Prog B) (b : B) :
  returns (bind m f) b → ∃ a, returns m a ∧ returns (f a) b.
Proof.
  induction m as [a|msg|d s k IH|l k IH|d k IH|k IH|tok k IH|op k IH];
    simpl; eauto; try done.
  all: intros [r Hr]; destruct (IH _ Hr) as (a & ? & ?); eauto.
Qed.

Lemma prints_only_bind {A B} (P : LogLine → Prop) (m : Prog A) (f : A → Prog B) :
  prints_only P m → (∀ a, returns m a → prints_only P (f a)) →
  prints_only P (bind m f).
Proof.
  induction m as [a|msg|d s k IH|l k IH|d k IH|k IH|tok k IH|op k IH];
    simpl; eauto.
  intros [Hl Hk] Hf; split; auto.
Qed.

Lemma prints_only_weaken {A} (P Q : LogLine → Prop) (p : Prog A) :
  (∀ l, P l → Q l) → prints_only P p → prints_only Q p.
Proof.
  intros HPQ.
  induction p as [a|msg|d s k IH|l k IH|d k IH|k IH|tok k IH|op k IH];
    simpl; eauto.
  intros [Hl Hk]; auto.
Qed.

(** ** [StartAndRecordLatencies] and [calculateAverageDelay] *)

Section Sampling.
Context (env : Env) (domain dnsServer : string) (interval : Duration).

Lemma run_sampleLoop (n : nat) (i : Z) (delays : list Duration) (t : Trace) :
  run env (sampleLoop domain dnsServer interval n i delays) t =
  (t ++ sample_events env domain dnsServer interval (lookups t) n i,
   Done (delays ++ successes env domain dnsServer (lookups t) n)).
Proof.
  revert i delays t; induction n as [|n IH]; intros i delays t; simpl.
  - by rewrite !app_nil_r.
  - destruct (resolver env (lookups t) domain dnsServer) as [latency|err];
      simpl; rewrite IH, !lookups_app; simpl;
      rewrite ?Nat.add_0_r, Nat.add_1_r, <- ?app_assoc; done.
Qed.

Lemma lookups_sample_events (c n : nat) (i : Z) :
  lookups (sample_events env domain dnsServer interval c n i) = n.
Proof.
  revert c i; induction n as [|n IH]; intros c i; simpl; [done |].
  destruct (resolver env c domain dnsServer); simpl; by rewrite IH.
Qed.

Lemma csv_tokens_sample_events (c n : nat) (i : Z) :
  csv_tokens (sample_events env domain dnsServer interval c n i) = [].
Proof.
  revert c i; induction n as [|n IH]; intros c i; simpl; [done |].
  destruct (resolver env c domain dnsServer); simpl; by rewrite IH.
Qed.

Lemma successes_all_fail (c n : nat) :
  (∀ k, (c ≤ k < c + n)%nat → ∃ err, resolver env k domain dnsServer = LookupErr err) →
  successes env domain dnsServer c n = [].
Proof.
  revert c; induction n as [|n IH]; intros c Hfail; simpl; [done |].
  destruct (Hfail c) as [err ->]; [lia |].
  apply IH; intros k Hk; apply Hfail; lia.
Qed.

Lemma run_calculateAverageDelay (delays : list Duration) (t : Trace) :
  run env (calculateAverageDelay delays) t =
  (t, match delays with
      | [] => Panicked "runtime error: integer divide by zero"
      | _ :: _ => Done (Z.quot (sum64 delays) (Z.of_nat (length delays)))
      end).
Proof. destruct delays; reflexivity. Qed.

Lemma run_StartAndRecordLatencies (count : Z) (t : Trace) :
  0 ≤ count → 8 * count ≤ maxAlloc →
  run env (StartAndRecordLatencies domain dnsServer count interval) t =
  (t ++ sample_events env domain dnsServer interval (lookups t) (Z.to_nat count) 1,
   match successes env domain dnsServer (lookups t) (Z.to_nat count) with
   | [] => Panicked "runtime error: integer divide by zero"
   | delays =>
       Done (Z.quot (sum64 delays) (Z.of_nat (length delays)), delays, None)
   end).
Proof.
  intros H0 Hmax. unfold StartAndRecordLatencies.
  replace (count <? 0) with false by lia.
  replace (maxAlloc <? 8 * count) with false by lia.
  simpl. rewrite run_bind, run_sampleLoop; simpl.
  rewrite run_bind, run_calculateAverageDelay.
  by destruct (successes _ _ _ _ _).
Qed.

Lemma returns_StartAndRecordLatencies (count : Z) avgDelay delays err :
  returns (StartAndRecordLatencies domain dnsServer count interval)
    (avgDelay, delays, err) →
  err = None.
Proof.
  unfold StartAndRecordLatencies.
  destruct ((count <? 0) || (maxAlloc <? 8 * count)); [done |].
  intros H. apply returns_bind in H as (ds & _ & H).
  apply returns_bind in H as (avg & _ & H). simpl in H. congruence.
Qed.

End Sampling.

(** ** Writing records *)


Section Persisting.
Context (env : Env).

Lemma run_csvPut (tok : CsvToken) (t : Trace) :
  run env (csvPut tok) t =
  (t ++ [EvCsv tok (csv_error env (length t))], Done (csv_error env (length t))).
Proof. reflexivity. Qed.

(** Whatever the writer answers, a call of [csvWrite] leaves only puts of
    commas, line ends and fields of its record. *)
Lemma run_csvWrite (record : list CsvField) (n : nat) (t : Trace) :
  ∃ puts e,
    run env (csvWrite n record) t = (t ++ map put_event puts, Done e) ∧
    Forall (λ p, p.1 = TComma ∨ p.1 = TNewline ∨
                 ∃ f, In f record ∧ p.1 = TField f) puts.
Proof.
  revert n t; induction record as [|field rest IH]; intros n t.
  - exists [(TNewline, csv_error env (length t))], (csv_error env (length t)).
    split; [done |]. constructor; [simpl; auto | constructor].
  - assert (Hstep : ∀ t0, ∃ puts e,
      run env (e <- csvPut (TField field) ;;
               match e with
               | Some err => Ret (Some err)
               | None => csvWrite (S n) rest
               end) t0 = (t0 ++ map put_event puts, Done e) ∧
      Forall (λ p, p.1 = TComma ∨ p.1 = TNewline ∨
                   ∃ f, In f (field :: rest) ∧ p.1 = TField f) puts).
    { intros t0. simpl. destruct (csv_error env (length t0)) as [err|] eqn:E.
      - exists [(TField field, Some err)], (Some err). split; [done |].
        constructor; [simpl; right; right; eauto | constructor].
      - destruct (IH (S n) (t0 ++ [EvCsv (TField field) None]))
          as (puts & e & Hrun & Hall).
        exists ((TField field, None) :: puts), e. split.
        + rewrite Hrun. by rewrite <- app_assoc.
        + constructor; [simpl; right; right; eauto |].
          eapply Forall_impl; [exact Hall |].
          intros p [?|[?|(f & ? & ?)]]; simpl; eauto 6. }
    cbn [csvWrite]. rewrite run_bind.
    destruct (0 <? n)%nat.
    + rewrite run_csvPut.
      destruct (csv_error env (length t)) as [err|] eqn:E.
      * exists [(TComma, Some err)], (Some err). split; [done |].
        constructor; [simpl; auto | constructor].
      * destruct (Hstep (t ++ [EvCsv TComma None])) as (puts & e & Hrun & Hall).
        exists ((TComma, None) :: puts), e. split.
        -- rewrite Hrun. by rewrite <- app_assoc.
        -- constructor; [simpl; auto | done].
    + apply Hstep.
Qed.

(** With a writer that never fails the record is put whole. *)
Lemma run_csvWrite_ok (record : list CsvField) (n : nat) (t : Trace) :
  (∀ k, csv_error env k = None) →
  run env (csvWrite n record) t =
  (t ++ map (λ tok, EvCsv tok None) (record_tokens n record), Done None).
Proof.
  intros Hok. revert n t; induction record as [|field rest IH]; intros n t.
  - simpl. by rewrite Hok.
  - cbn [csvWrite record_tokens]. rewrite run_bind.
    destruct (0 <? n)%nat; simpl; repeat (rewrite Hok; simpl);
      rewrite IH, <- !app_assoc; done.
Qed.

Lemma csv_tokens_puts (toks : list CsvToken) :
  csv_tokens (map (λ tok, EvCsv tok None) toks) = toks.
Proof. induction toks as [|tok toks IH]; simpl; by rewrite ?IH. Qed.

End Persisting.

Section PersistLoop.
Context (env : Env).

Lemma stamped_nil (lo : nat) : stamped env lo [].
Proof. intros k ts err H. by rewrite lookup_nil in H. Qed.

(** A head event that is neither a put nor a clock reading. *)
Lemma stamped_skip (lo : nat) (e : Event) (evs : list Event) :
  (∀ tok err, e ≠ EvCsv tok err) →
  stamped env (S lo) evs → stamped env lo (e :: evs).
Proof.
  intros He Hs k ts err Hk. destruct k as [|k]; simpl in Hk.
  - injection Hk as ->. by destruct (He (TField (FTime ts)) err).
  - destruct (Hs k ts err Hk) as (n & Hn & Hev & Hts).
    exists (S n). split; [lia |]. split; [done |].
    by replace (lo + S n)%nat with (S lo + n)%nat by lia.
Qed.

(** One turn of the loop: a clock reading, puts that carry it, the rest. *)
Lemma stamped_step (lo : nat) (c : Z) (W evs : list Event) :
  c = clock env lo →
  (∀ (k : nat) ts err, W !! k = Some (EvCsv (TField (FTime ts)) err) → ts = c) →
  stamped env (lo + 1 + length W) evs →
  stamped env lo (EvNow c :: W ++ evs).
Proof.
  intros Hc HW Hs k ts err Hk. destruct k as [|k]; simpl in Hk; [done |].
  apply lookup_app_Some in Hk as [Hk|[Hlen Hk]].
  - exists 0%nat. split; [lia |]. rewrite (HW _ _ _ Hk).
    split; [done |]. by rewrite Nat.add_0_r.
  - destruct (Hs _ ts err Hk) as (n & Hn & Hev & Hts).
    exists (S (length W + n)). split; [lia |]. split.
    + simpl. rewrite lookup_app_r by lia.
      by replace (length W + n - length W)%nat with n by lia.
    + rewrite Hts. f_equal. lia.
Qed.

Lemma lookups_puts (puts : list (CsvToken * option error)) :
  lookups (map put_event puts) = 0%nat.
Proof. induction puts; simpl; auto. Qed.

Lemma run_writeResultToCsv (result : DnsTestResult) (t : Trace) :
  ∃ puts e,
    run env (writeResultToCsv result) t = (t ++ map put_event puts, Done e) ∧
    Forall (λ p, ∀ ts, p.1 = TField (FTime ts) → ts = Timestamp result) puts.
Proof.
  destruct (run_csvWrite env (record_of result) 0 t) as (puts & e & Hrun & Hall).
  exists puts, (match e with
                | Some err => Some ("写入CSV记录失败: " ++ err)%string
                | None => None
                end).
  split.
  - unfold writeResultToCsv. rewrite run_bind, Hrun. by destruct e.
  - eapply Forall_impl; [exact Hall |].
    intros p [Hp|[Hp|(f & Hf & Hp)]] ts Hts; rewrite Hp in Hts; try done.
    injection Hts as ->. simpl in Hf.
    destruct Hf as [Hf|[Hf|[Hf|[Hf|[]]]]]; try done. by injection Hf.
Qed.

(** The loop over the delays, whatever the writer answers: no lookup,
    and every timestamp written is a clock reading of the loop. *)
Lemma run_persistLoop (work : DnsWorkItem.t) (delays : list Duration) (t : Trace) :
  ∃ evs,
    run env (persistLoop work delays) t = (t ++ evs, Done tt) ∧
    lookups evs = 0%nat ∧
    stamped env (length t) evs.
Proof.
  revert t; induction delays as [|delay rest IH]; intros t.
  - exists []. rewrite app_nil_r. split; [done |]. split; [done | apply stamped_nil].
  - cbn [persistLoop]. unfold now. cbn [bind run]. rewrite run_bind.
    set (c := clock env (length t)).
    set (result := {| Domain := _; Server := _; Timestamp := c; Latency := delay |}).
    destruct (run_writeResultToCsv result (t ++ [EvNow c]))
      as (puts & e & Hrun & Hall).
    rewrite Hrun.
    set (L := match e with
              | Some err => [EvLog (LogCsvError err)]
              | None => []
              end).
    destruct (IH (((t ++ [EvNow c]) ++ map put_event puts) ++ L))
      as (evs & Hrest & Hlk & Hst).
    exists (EvNow c :: (map put_event puts ++ L) ++ evs).
    split; [|split].
    + destruct e as [err|]; subst L; simpl in *.
      * rewrite Hrest. by rewrite <- !app_assoc.
      * rewrite app_nil_r in Hrest. rewrite Hrest, app_nil_r.
        by rewrite <- !app_assoc.
    + simpl. rewrite !lookups_app, lookups_puts, Hlk.
      by destruct e; subst L.
    + apply stamped_step; [done | |].
      * intros k ts err Hk. apply lookup_app_Some in Hk as [Hk|[_ Hk]].
        -- apply list_lookup_fmap_Some in Hk as (p & Hp & Hk).
           destruct p as [tok e']; unfold put_event in Hp; simpl in Hp.
           injection Hp as <- <-.
           eapply Forall_lookup_1 in Hall; [|exact Hk].
           by apply Hall.
        -- destruct e; subst L; simpl in Hk.
           ++ by destruct (k - length (map put_event puts))%nat.
           ++ by rewrite lookup_nil in Hk.
      * rewrite !length_app in Hst. simpl in Hst.
        by rewrite length_app, Nat.add_assoc.
Qed.

(** With a writer that never fails, the buffer receives the records of
    the delays, whole and in order. *)
Lemma run_persistLoop_ok (work : DnsWorkItem.t) (delays : list Duration) (t : Trace) :
  (∀ k, csv_error env k = None) →
  ∃ evs,
    run env (persistLoop work delays) t = (t ++ evs, Done tt) ∧
    csv_tokens evs =
      flat_map (λ r, record_tokens 0 (record_of r))
        (persist_rows env work (length t) delays).
Proof.
  intros Hok. revert t; induction delays as [|delay rest IH]; intros t.
  - exists []. by rewrite app_nil_r.
  - cbn [persistLoop persist_rows flat_map]. unfold now. cbn [bind run].
    rewrite run_bind. unfold writeResultToCsv.
    rewrite run_bind, run_csvWrite_ok by done.
    cbn [run].
    match goal with |- context [run env (persistLoop work rest) ?t0] =>
      destruct (IH t0) as (evs & Hrest & Htok) end.
    eexists. split.
    + rewrite Hrest, <- !app_assoc. reflexivity.
    + simpl. rewrite Htok. simpl. repeat f_equal.
      rewrite !length_app. simpl. lia.
Qed.

Lemma persist_rows_latency (work : DnsWorkItem.t) (pos : nat) (delays : list Duration) :
  map Latency (persist_rows env work pos delays) = delays.
Proof.
  revert pos; induction delays as [|d rest IH]; intros pos; simpl; by rewrite ?IH.
Qed.

Lemma persist_rows_work (work : DnsWorkItem.t) (pos : nat) (delays : list Duration) :
  Forall (λ r, Domain r = DnsWorkItem.Domain work ∧
               Server r = DnsWorkItem.DNSServer work)
    (persist_rows env work pos delays).
Proof.
  revert pos; induction delays as [|d rest IH]; intros pos; simpl; auto.
Qed.

End PersistLoop.

(** ** The machine *)

Section Machine.
Context (env : Env) (cfg : Config).

(** Every step of a scheduled thread is a step of the relation. *)
Lemma exec_step_step (tid : Tid) (s s' : State) :
  exec_step env cfg tid s = Some s' → step env cfg s s'.
Proof.
  unfold exec_step. destruct (halted s); [done |].
  destruct tid as [|w|].
  - unfold main_step. destruct (pc s) as [|p| |i|pending| | | |] eqn:Hpc.
    + destruct (Z.leb_spec (round s) (TestRounds cfg)); intros [= <-].
      * by apply step_enter.
      * by apply step_leave.
    + destruct p as [[err|]|msg|d sv k|l k|d k|k|tok k|op k];
        intros [= <-];
        try (by eapply step_ctx; [exact Hpc | reflexivity]).
      * apply step_halt. eauto.
      * by apply step_ctx_ok.
      * apply step_halt. eauto.
    + destruct (Z.ltb_spec (Concurrency cfg) 0); intros [= <-].
      * apply step_halt. eauto.
      * by apply step_make.
    + destruct (Z.ltb_spec i (Concurrency cfg)); intros [= <-].
      * by eapply step_spawn.
      * by eapply step_spawned.
    + destruct pending as [|work pending].
      * intros [= <-]. by apply step_close.
      * destruct (Nat.ltb_spec (length (queue s)) (channel_capacity cfg));
          intros [= <-]. by apply step_send.
    + destruct (Z.eqb_spec (wg s) 0); intros [= <-]. by apply step_wait.
    + intros [= <-]. by apply step_log.
    + destruct (SaveCsv cfg); intros [= <-]; apply step_flush; eauto.
    + done.
  - destruct (workers s !! w) as [ws|] eqn:Hw; [|done].
    unfold worker_step. destruct ws as [|p|].
    + destruct (queue s) as [|work rest] eqn:Hq.
      * destruct (closed s) eqn:Hc; intros [= <-]. by apply step_return.
      * intros [= <-]. by eapply step_dequeue.
    + destruct p as [a|msg|d sv k|l k|d k|k|tok k|op k];
        intros [= <-];
        try (by eapply step_work; [exact Hw | reflexivity]).
      * by eapply step_next.
      * by apply step_unwind.
    + done.
  - destruct (dying s) as [msg|]; intros [= <-]. apply step_halt. eauto.
Qed.

Lemma exec_step_running (tid : Tid) (s s' : State) :
  exec_step env cfg tid s = Some s' → halted s = false.
Proof. unfold exec_step. by destruct (halted s). Qed.

(** A worker that runs alone through the body of its loop leaves the
    events of [run]: the sequential reading of the body is one of the
    behaviours of the machine. *)
Lemma worker_runs_alone (p : Prog unit) (s : State) (w : nat) :
  halted s = false → workers s !! w = Some (WBusy p) →
  ∃ n s',
    run_schedule env cfg (replicate n (TWorker w)) s = Some s' ∧
    trace s' = (run env p (trace s)).1 ∧
    workers s' !! w =
      Some (WBusy (match (run env p (trace s)).2 with
                   | Done a => Ret a
                   | Panicked msg => Panic msg
                   end)).
Proof.
  revert s.
  assert (Hact : ∀ (p p' : Prog unit) e s,
    (∀ s1, halted s1 = false → workers s1 !! w = Some (WBusy p') →
       ∃ n s', run_schedule env cfg (replicate n (TWorker w)) s1 = Some s' ∧
         trace s' = (run env p' (trace s1)).1 ∧
         workers s' !! w =
           Some (WBusy (match (run env p' (trace s1)).2 with
                        | Done a => Ret a
                        | Panicked msg => Panic msg
                        end))) →
    act env (trace s) p = Some (e, p') →
    worker_step env cfg w (WBusy p) s =
      Some (set_worker (emit s e) w (WBusy p')) →
    run env p (trace s) = run env p' (trace s ++ [e]) →
    halted s = false → workers s !! w = Some (WBusy p) →
    ∃ n s', run_schedule env cfg (replicate n (TWorker w)) s = Some s' ∧
      trace s' = (run env p (trace s)).1 ∧
      workers s' !! w =
        Some (WBusy (match (run env p (trace s)).2 with
                     | Done a => Ret a
                     | Panicked msg => Panic msg
                     end))).
  { intros p0 p' e s IH Hact Hstep Hrun Hh Hw.
    destruct (IH (set_worker (emit s e) w (WBusy p'))) as (n & s' & Hn & Ht & Hws).
    - done.
    - simpl. apply list_lookup_insert_eq. by eapply lookup_lt_Some.
    - exists (S n), s'. simpl. unfold exec_step. rewrite Hh, Hw, Hstep.
      split; [done |]. rewrite Hrun. done. }
  induction p as [a|msg|d sv k IH|l k IH|d k IH|k IH|tok k IH|op k IH];
    intros s Hh Hw;
    try (by exists 0%nat, s);
    try (by eapply Hact; eauto).
Qed.

End Machine.

(** *** Traces that grow by one event *)

Lemma In_snoc {A} (x e : A) (t : list A) : In x (t ++ [e]) ↔ In x t ∨ x = e.
Proof. rewrite in_app_iff. simpl. intuition. Qed.

Lemma snoc_split {A} (t pre post : list A) (e x : A) :
  t ++ [e] = pre ++ x :: post →
  (post = [] ∧ pre = t ∧ x = e) ∨
  (∃ post', post = post' ++ [e] ∧ t = pre ++ x :: post').
Proof.
  destruct post as [|y post _] using rev_ind; intros H.
  - left. apply app_inj_tail in H as [-> ->]. done.
  - right. exists post.
    change (pre ++ x :: post ++ [y]) with (pre ++ (x :: post) ++ [y]) in H.
    rewrite app_assoc in H. apply app_inj_tail in H as [-> ->]. done.
Qed.

Lemma dequeued_app (r : Z) (t1 t2 : Trace) :
  dequeued r (t1 ++ t2) = dequeued r t1 ++ dequeued r t2.
Proof.
  induction t1 as [|e t1 IH]; simpl; [done |].
  destruct e; simpl; auto. destruct (_ =? r); simpl; by rewrite IH.
Qed.

Lemma dequeued_plain (r : Z) (t : Trace) (e : Event) :
  plain e = true → dequeued r (t ++ [e]) = dequeued r t.
Proof.
  intros He. rewrite dequeued_app.
  destruct e; simpl in *; try done; by rewrite app_nil_r.
Qed.

Lemma dequeued_return (r r' : Z) (t : Trace) (w : nat) (panic : option string) :
  dequeued r (t ++ [EvReturn r' w panic]) = dequeued r t.
Proof. rewrite dequeued_app. simpl. by rewrite app_nil_r. Qed.

Lemma dequeued_log (r : Z) (t : Trace) (l : LogLine) :
  dequeued r (t ++ [EvLog l]) = dequeued r t.
Proof. rewrite dequeued_app. simpl. by rewrite app_nil_r. Qed.

Lemma dequeued_dequeue (r : Z) (t : Trace) (w : nat) (work : DnsWorkItem.t) :
  dequeued r (t ++ [EvDequeue r w work]) = dequeued r t ++ [(w, work)].
Proof. rewrite dequeued_app. simpl. by rewrite Z.eqb_refl. Qed.

Lemma dequeued_other (r r' : Z) (t : Trace) (w : nat) (work : DnsWorkItem.t) :
  r' ≠ r → dequeued r (t ++ [EvDequeue r' w work]) = dequeued r t.
Proof.
  intros Hr. rewrite dequeued_app. simpl.
  destruct (Z.eqb_spec r' r); [done |]. by rewrite app_nil_r.
Qed.

Lemma dequeued_none (r : Z) (t : Trace) :
  (∀ w work, ¬ In (EvDequeue r w work) t) → dequeued r t = [].
Proof.
  induction t as [|e t IH]; intros Hno; simpl; [done |].
  assert (dequeued r t = []) as Ht.
  { apply IH. intros w work Hin. apply (Hno w work). by right. }
  destruct e as [| | | | | | |r' w work|]; simpl; auto.
  destruct (Z.eqb_spec r' r) as [->|]; [|done].
  destruct (Hno w work). by left.
Qed.

Lemma barrier_order_snoc (cfg : Config) (t : Trace) (e : Event) :
  barrier_order cfg t →
  (∀ n, e = EvLog (LogRoundDone n) →
     (∀ w, (w < pool cfg)%nat → ∃ panic, In (EvReturn n w panic) t) ∧
     (∀ w work, ¬ In (EvDequeue (n + 1) w work) t)) →
  barrier_order cfg (t ++ [e]).
Proof.
  intros Ht He pre n post Heq.
  apply snoc_split in Heq as [(-> & -> & <-)|(post' & -> & ->)].
  - by apply He.
  - by eapply Ht.
Qed.

(** *** Counting the workers that returned *)

Lemma exited_le (ws : list WState) : (exited ws ≤ length ws)%nat.
Proof. induction ws as [|[|p|] ws IH]; simpl; lia. Qed.

Lemma exited_app (ws1 ws2 : list WState) :
  exited (ws1 ++ ws2) = (exited ws1 + exited ws2)%nat.
Proof. induction ws1 as [|[|p|] ws1 IH]; simpl; lia. Qed.

Lemma exited_all (ws : list WState) :
  exited ws = length ws ↔ Forall (eq WExit) ws.
Proof.
  induction ws as [|ws0 ws IH]; simpl.
  - split; auto.
  - pose proof (exited_le ws). split.
    + intros H1. destruct ws0; try lia. constructor; [done |]. apply IH. lia.
    + intros H1. inversion H1 as [|? ? <- H2]; subst. f_equal. by apply IH.
Qed.

Lemma exited_none (ws : list WState) :
  Forall (eq WRecv) ws → exited ws = 0%nat.
Proof. induction 1 as [|? ? <- _ IH]; simpl; auto. Qed.

Lemma exited_insert (ws : list WState) (w : nat) (old new : WState) :
  ws !! w = Some old →
  (exited (<[w := new]> ws) + (if old is WExit then 1 else 0) =
   exited ws + (if new is WExit then 1 else 0))%nat.
Proof.
  revert w; induction ws as [|ws0 ws IH]; intros w Hw; [done |].
  destruct w as [|w]; simpl in *.
  - injection Hw as ->. destruct old, new; simpl; lia.
  - specialize (IH w Hw). destruct ws0; simpl; lia.
Qed.

Lemma exited_zero_lookup (ws : list WState) (w : nat) :
  exited ws = 0%nat → ws !! w ≠ Some WExit.
Proof.
  revert w; induction ws as [|ws0 ws IH]; intros w H0 Hw; [done |].
  destruct w as [|w]; simpl in *.
  - injection Hw as ->. done.
  - destruct ws0; try done; by eapply IH.
Qed.

Lemma Forall_eq_lookup {A} (x y : A) (l : list A) (i : nat) :
  Forall (eq x) l → l !! i = Some y → y = x.
Proof. intros Hall Hi. by eapply Forall_lookup_1 in Hall; [|exact Hi]. Qed.

(** *** What programs print *)

Lemma act_prints {A} (env : Env) (P : LogLine → Prop) (t : Trace)
    (p p' : Prog A) (e : Event) :
  act env t p = Some (e, p') → prints_only P p →
  prints_only P p' ∧
  match e with
  | EvLog l => P l
  | EvDequeue _ _ _ | EvReturn _ _ _ | EvPanic _ => False
  | _ => True
  end.
Proof.
  destruct p; simpl; intros [= <- <-]; try done; intuition.
Qed.

Lemma act_plain {A} (env : Env) (t : Trace) (p p' : Prog A) (e : Event) :
  act env t p = Some (e, p') → prints_only worker_line p →
  prints_only worker_line p' ∧ plain e = true.
Proof.
  intros Hact Hp. destruct (act_prints env _ t p p' e Hact Hp) as [Hp' He].
  split; [done |]. destruct e as [| l | | | | | | |]; try done.
  by destruct l.
Qed.

Lemma prints_csvWrite (P : LogLine → Prop) (record : list CsvField) (n : nat) :
  prints_only P (csvWrite n record).
Proof.
  revert n; induction record as [|field rest IH]; intros n; simpl; [done |].
  destruct (0 <? n)%nat; simpl; intros [e|]; simpl; auto;
    intros [e'|]; simpl; auto.
Qed.

Lemma prints_persistLoop (work : DnsWorkItem.t) (delays : list Duration) :
  prints_only worker_line (persistLoop work delays).
Proof.
  induction delays as [|delay rest IH]; [done |].
  cbn [persistLoop]. unfold now. cbn [bind prints_only].
  intros t. apply prints_only_bind.
  - unfold writeResultToCsv. apply prints_only_bind; [apply prints_csvWrite |].
    by intros [e|] _.
  - intros [e|] _; simpl; auto.
Qed.

Lemma prints_sampleLoop domain dnsServer interval (n : nat) (i : Z) delays :
  prints_only worker_line (sampleLoop domain dnsServer interval n i delays).
Proof.
  revert i delays; induction n as [|n IH]; intros i delays; simpl; [done |].
  intros [latency|err]; simpl; auto.
Qed.

Lemma prints_workerBody (cfg : Config) (work : DnsWorkItem.t) :
  prints_only worker_line (workerBody cfg work).
Proof.
  unfold workerBody. apply prints_only_bind.
  - unfold StartAndRecordLatencies.
    destruct (_ || _); [done |].
    apply prints_only_bind; [apply prints_sampleLoop |].
    intros delays _. unfold calculateAverageDelay.
    by destruct (_ =? 0).
  - intros [[avgDelay delays] err] Hret.
    apply returns_StartAndRecordLatencies in Hret as ->.
    simpl. split; [done |].
    destruct (SaveCsv cfg); [apply prints_persistLoop | done].
Qed.

Lemma prints_NewDnsTestContext (cfg : Config) :
  prints_only (λ _, False) (NewDnsTestContext cfg).
Proof.
  unfold NewDnsTestContext. apply prints_only_bind.
  - destruct (SaveCsv cfg); [|done]. unfold now. cbn [bind prints_only].
    intros stamp. unfold initCSV, file. cbn [bind prints_only].
    intros [e|]; [done |]. cbn [bind prints_only].
    intros [e|]; [done |].
    apply prints_only_bind; [apply prints_csvWrite |].
    intros e _. cbn [bind prints_only]. intros _. by destruct e.
  - intros [e|] _; [done |]. destruct (LogToFile cfg); [|done].
    unfold setupLogging, file. cbn [bind prints_only]. by intros [e|].
Qed.

(** *** The invariant holds in every reachable state *)

Section Invariant.
Context (env : Env) (cfg : Config).

Lemma Inv_init : Inv cfg init.
Proof.
  constructor; simpl; try done.
  - by intros r w work [].
  - intros pre n post H. by destruct pre.
  - intros r. apply prefix_nil.
  - intros r Hr. lia.
  - split; [constructor | by intros w work []].
Qed.

Lemma halting_plain (e : Event) :
  (∃ msg, e = EvPanic msg) ∨ (∃ err, e = EvLog (LogFatal err)) →
  plain e = true.
Proof. by intros [[msg ->]|[err ->]]. Qed.

Lemma In_emit (x e : Event) (t : Trace) : In x t → In x (t ++ [e]).
Proof. intros Hin. apply In_snoc. by left. Qed.

Lemma step_quiet (s s' : State) :
  Inv cfg s → step env cfg s s' → Forall quiet (workers s').
Proof.
  intros HI Hs. pose proof (inv_quiet _ _ HI) as Hq.
  destruct Hs; simpl; auto.
  - apply Forall_app; split; [done |]. by repeat constructor.
  - destruct H0 as [->|[err ->]]; done.
  - apply Forall_insert; [done |]. apply prints_workerBody.
  - by apply Forall_insert.
  - by apply Forall_insert.
  - by apply Forall_insert.
  - apply Forall_insert; [done |].
    eapply Forall_lookup_1 in Hq; [|eassumption].
    by eapply act_plain.
Qed.

Lemma step_ctx_quiet (s s' : State) :
  Inv cfg s → step env cfg s s' →
  match pc s' with
  | MCtx p => prints_only (λ _, False) p
  | _ => True
  end.
Proof.
  intros HI Hs. pose proof (inv_ctx _ _ HI) as Hc.
  destruct Hs; simpl; auto.
  - apply prints_NewDnsTestContext.
  - rewrite H in Hc. by eapply act_prints.
Qed.

(** The event of a step of [NewDnsTestContext] or of a worker's body. *)
Lemma ctx_event_plain (s : State) p e p' :
  Inv cfg s → pc s = MCtx p → act env (trace s) p = Some (e, p') → plain e = true.
Proof.
  intros HI Hpc Hact. pose proof (inv_ctx _ _ HI) as Hc. rewrite Hpc in Hc.
  eapply act_plain; [exact Hact |].
  eapply prints_only_weaken; [|exact Hc]. done.
Qed.

Lemma work_event_plain (s : State) w p e p' :
  Inv cfg s → workers s !! w = Some (WBusy p) →
  act env (trace s) p = Some (e, p') → plain e = true.
Proof.
  intros HI Hw Hact. pose proof (inv_quiet _ _ HI) as Hq.
  eapply Forall_lookup_1 in Hq; [|exact Hw].
  by eapply act_plain.
Qed.

Lemma no_dequeue_plain (s : State) (e : Event) :
  plain e = true → no_dequeue_yet s → no_dequeue_yet (emit s e).
Proof.
  intros He Hno w work Hin. apply In_snoc in Hin as [Hin|Heq].
  - by apply (Hno w work).
  - simpl in Heq. by subst e.
Qed.

Lemma taken_plain (s : State) (e : Event) :
  plain e = true → taken (emit s e) = taken s.
Proof. intros He. unfold taken. simpl. by rewrite dequeued_plain. Qed.

Lemma no_panic_snoc (r : Z) (t : Trace) (e : Event) :
  no_panic r (t ++ [e]) → no_panic r t.
Proof. intros Hno w msg Hin. apply (Hno w msg), In_snoc. by left. Qed.

Lemma returned_snoc (r : Z) (w : nat) (t : Trace) (e : Event) :
  (∃ panic, In (EvReturn r w panic) t) →
  ∃ panic, In (EvReturn r w panic) (t ++ [e]).
Proof. intros [panic Hin]. exists panic. apply In_snoc. by left. Qed.

Lemma ended_emit (s : State) (e : Event) : ended s → ended (emit s e).
Proof.
  intros He w Hw. destruct (He w Hw) as [panic Hin].
  exists panic. apply In_snoc. by left.
Qed.

(** An event that is not bookkeeping leaves the phase as it is. *)
Lemma phase_emit_plain (s : State) (e : Event) :
  plain e = true → phase_inv cfg s → phase_inv cfg (emit s e).
Proof.
  intros He. unfold phase_inv.
  change (pc (emit s e)) with (pc s).
  change (workers (emit s e)) with (workers s).
  change (queue (emit s e)) with (queue s).
  change (closed (emit s e)) with (closed s).
  change (wg (emit s e)) with (wg s).
  change (round (emit s e)) with (round s).
  change (trace (emit s e)) with (trace s ++ [e]).
  destruct (pc s); rewrite ?taken_plain by done;
    intuition eauto using no_dequeue_plain, no_panic_snoc, ended_emit,
      returned_snoc, In_emit.
Qed.

Lemma ended_set_worker (s : State) (w : nat) (new : WState) :
  new ≠ WExit → ended s → ended (set_worker s w new).
Proof.
  intros Hnew He w' Hw'. apply He. simpl in Hw'.
  destruct (decide (w = w')) as [->|Hne].
  - apply lookup_lt_Some in Hw' as Hlt. rewrite length_insert in Hlt.
    rewrite list_lookup_insert_eq in Hw' by done. by injection Hw' as ->.
  - by rewrite list_lookup_insert_ne in Hw'.
Qed.

Lemma phase_set_worker (s : State) (w : nat) (old new : WState) :
  workers s !! w = Some old → old ≠ WExit → new ≠ WExit →
  (∀ i, pc s = MSpawn i → False) →
  phase_inv cfg s → phase_inv cfg (set_worker s w new).
Proof.
  intros Hw Hold Hnew Hsp. unfold phase_inv.
  pose proof (exited_insert _ _ _ new Hw) as Hex.
  assert (exited (<[w:=new]> (workers s)) = exited (workers s)) as Hex'.
  { destruct old, new; simpl in Hex; try done; lia. }
  pose proof (ended_set_worker s w new Hnew) as Hend.
  unfold taken. simpl.
  destruct (pc s) eqn:Hpc; rewrite ?length_insert, ?Hex';
    try (intros [Hall _]; by destruct Hold; eapply Forall_eq_lookup);
    try (intros Hall; by destruct Hold; eapply Forall_eq_lookup).
  - by destruct (Hsp i).
  - intuition.
  - intuition.
Qed.

Lemma not_spawning (s : State) (w : nat) (p : Prog unit) :
  phase_inv cfg s → workers s !! w = Some (WBusy p) →
  ∀ i, pc s = MSpawn i → False.
Proof.
  unfold phase_inv. intros Hp Hw i Hpc. rewrite Hpc in Hp.
  destruct Hp as (_ & _ & Hall & _).
  by eapply Forall_eq_lookup in Hall; [|exact Hw].
Qed.

Lemma workItems_capacity :
  length (workItems cfg) = channel_capacity cfg.
Proof.
  unfold workItems, channel_capacity, enqueueAll.
  assert (Hin : ∀ domain servers q,
    length (fold_left (λ q dnsServer, q ++ [DnsWorkItem.mk domain dnsServer])
              servers q) = (length q + length servers)%nat).
  { intros domain servers; induction servers as [|sv servers IH]; intros q; simpl.
    - lia.
    - rewrite IH, length_app. simpl. lia. }
  assert (Hout : ∀ domains q,
    length (fold_left (λ q domain,
              fold_left (λ q dnsServer, q ++ [DnsWorkItem.mk domain dnsServer])
                (DNSServers cfg) q) domains q) =
    (length q + length domains * length (DNSServers cfg))%nat).
  { induction domains as [|d domains IH]; intros q; simpl.
    - lia.
    - rewrite IH, Hin. lia. }
  by rewrite Hout.
Qed.

(** The end of the function of worker [w], by a return or by a panic:
    the deferred [wg.Done()] has run. *)
Lemma phase_end_worker (s : State) (w : nat) (old : WState)
    (panic : option string) :
  workers s !! w = Some old → old ≠ WExit →
  (∃ pending, pc s = MSend pending) ∨ pc s = MWait →
  (pc s = MWait → panic = None → queue s = []) →
  (∀ pending, pc s = MSend pending → panic ≠ None) →
  phase_inv cfg s →
  phase_inv cfg
    (set_worker (set_wg (emit s (EvReturn (round s) w panic)) (wg s - 1)) w WExit).
Proof.
  intros Hw Hold Hpc Hq Hsend. unfold phase_inv.
  pose proof (exited_insert _ _ _ WExit Hw) as Hex.
  assert (exited (<[w:=WExit]> (workers s)) = S (exited (workers s))) as Hex'.
  { destruct old; simpl in Hex; try done; lia. }
  assert (∀ s0, ended s0 → pc s0 = pc s → workers s0 = workers s →
          round s0 = round s → trace s0 = trace s →
          ended (set_worker (set_wg (emit s (EvReturn (round s) w panic))
                   (wg s - 1)) w WExit)) as Hend.
  { intros s0 He _ Hws Hr Ht w' Hw'. simpl in *.
    destruct (decide (w = w')) as [->|Hne].
    - exists panic. apply In_snoc. by right.
    - rewrite list_lookup_insert_ne in Hw' by done.
      rewrite <- Hws in Hw'. destruct (He w' Hw') as [panic' Hin].
      exists panic'. apply In_snoc. left. by rewrite <- Hr, <- Ht. }
  assert (taken (set_worker (set_wg (emit s (EvReturn (round s) w panic))
            (wg s - 1)) w WExit) = taken s) as Htk.
  { unfold taken. simpl. by rewrite dequeued_return. }
  rewrite Htk. simpl.
  destruct Hpc as [[pending Hpc]|Hpc]; rewrite Hpc in *;
    rewrite ?length_insert, ?Hex'.
  - intros (? & ? & ? & ? & Hex0 & ? & He).
    repeat split; auto; try lia; [|by eapply (Hend s)].
    intros Hno. destruct panic as [msg|]; [|by destruct (Hsend pending)].
    destruct (Hno w msg). apply In_snoc. by right.
  - intros (? & ? & ? & ? & Hex0 & Heq & He).
    repeat split; auto; try lia; [|by eapply (Hend s)].
    intros Hno _. destruct panic as [msg|]; [|by apply Hq].
    destruct (Hno w msg). apply In_snoc. by right.
Qed.

(** A worker that is not at its end lives in the phases in which the
    queue is filled or drained. *)
Lemma busy_phase (s : State) (w : nat) (p : Prog unit) :
  phase_inv cfg s → workers s !! w = Some (WBusy p) →
  (∃ pending, pc s = MSend pending) ∨ pc s = MWait.
Proof.
  unfold phase_inv. intros Hp Hw.
  destruct (pc s); eauto;
    try (by destruct Hp as [Hall _];
         eapply Forall_eq_lookup in Hall; [|exact Hw]);
    try (by eapply Forall_eq_lookup in Hp; [|exact Hw]).
  destruct Hp as (_ & _ & Hall & _).
  by eapply Forall_eq_lookup in Hall; [|exact Hw].
Qed.

Lemma step_phase (s s' : State) :
  Inv cfg s → step env cfg s s' → phase_inv cfg s'.
Proof.
  intros HI Hs. pose proof (inv_phase _ _ HI) as Hp.
  destruct Hs as [Hpc Hr|Hpc Hr|p e p' Hpc Hact|Hpc|e He|Hpc HK|i Hpc Hi
                 |i Hpc Hi|work pending Hpc Hcap|Hpc|Hpc Hwg|Hpc|s0 Hpc Hs0
                 |w work rest Hw Hq|w Hw Hq Hc|w msg Hw|w a Hw|w p e p' Hw Hact].
  - unfold phase_inv in *. rewrite Hpc in Hp. exact Hp.
  - unfold phase_inv in *. rewrite Hpc in Hp. exact Hp.
  - pose proof (ctx_event_plain _ _ _ _ HI Hpc Hact) as He.
    apply (phase_emit_plain _ _ He) in Hp.
    unfold phase_inv in *. simpl in *. rewrite Hpc in Hp. exact Hp.
  - unfold phase_inv in *. rewrite Hpc in Hp. exact Hp.
  - by apply (phase_emit_plain _ _ (halting_plain _ He)) in Hp.
  - unfold phase_inv in *. rewrite Hpc in Hp. simpl.
    destruct Hp as [_ Hno]. repeat split; auto; lia.
  - unfold phase_inv in *. rewrite Hpc in Hp. simpl.
    destruct Hp as (Hi0 & Hlen & Hall & ? & ? & ? & ?).
    repeat split; auto; try lia.
    + rewrite length_app, Hlen. simpl. lia.
    + apply Forall_app. split; [done |]. by repeat constructor.
  - unfold phase_inv in *. rewrite Hpc in Hp. simpl.
    destruct Hp as (Hi0 & Hlen & Hall & Hq & ? & ? & Hno).
    pose proof (exited_none _ Hall) as Hex. rewrite Hex.
    repeat split; auto; try lia.
    + rewrite Hlen. unfold pool. f_equal. lia.
    + unfold taken. simpl. rewrite (dequeued_none _ _ Hno), Hq. done.
    + intros w Hw. by destruct (exited_zero_lookup _ w Hex).
  - unfold phase_inv in *. rewrite Hpc in Hp. simpl.
    destruct Hp as (? & ? & ? & ? & ? & Heq & ?).
    repeat split; auto. rewrite <- Heq. unfold taken. simpl.
    by rewrite <- !app_assoc.
  - unfold phase_inv in *. rewrite Hpc in Hp. simpl.
    destruct Hp as (? & ? & ? & ? & Hex & Heq & ?).
    rewrite app_nil_r in Heq.
    repeat split; auto. intros Hno Hne. by apply Hex in Hno.
  - unfold phase_inv in *. rewrite Hpc in Hp. simpl.
    destruct Hp as (? & Hlen & ? & Hwg' & Hex & Heq & Hret).
    assert (exited (workers s) = length (workers s)) as Hall.
    { rewrite Hlen. unfold pool. lia. }
    apply exited_all in Hall as Hall'.
    repeat split; auto.
    + intros Hno HK. rewrite Hex in Heq; [by rewrite app_nil_r in Heq | done |].
      rewrite Hall, Hlen. unfold pool. lia.
    + intros w Hw. apply Hret.
      rewrite <- Hlen in Hw. apply lookup_lt_is_Some in Hw as [ws Hws].
      rewrite Hws. f_equal. by eapply Forall_eq_lookup.
  - unfold phase_inv in *. rewrite Hpc in Hp. simpl.
    split; [tauto |]. apply In_snoc. by right.
  - unfold phase_inv in *. rewrite Hpc in Hp. destruct Hp as [Hp _].
    assert (workers s0 = workers s ∧
            ∀ x, In x (trace s0) → In x (trace s) ∨ plain x = true) as [Hws Ht].
    { destruct Hs0 as [->|[err ->]]; split; auto.
      intros x Hin. apply In_snoc in Hin as [Hin| ->]; auto. }
    simpl. rewrite Hws. split; [done |].
    intros w work Hin. simpl in Hin. apply Ht in Hin as [Hin|Hin]; [|done].
    apply (inv_dequeue _ _ HI) in Hin. lia.
  - pose proof (exited_insert _ _ _ (WBusy (workerBody cfg work)) Hw) as Hex.
    simpl in Hex. rewrite !Nat.add_0_r in Hex.
    assert (taken (set_worker (emit (set_queue s rest)
              (EvDequeue (round s) w work)) w (WBusy (workerBody cfg work)))
            = taken s ++ [work]) as Htk.
    { unfold taken. simpl. by rewrite dequeued_dequeue, map_app. }
    assert (ended s →
            ended (set_worker (emit (set_queue s rest)
              (EvDequeue (round s) w work)) w (WBusy (workerBody cfg work))))
      as Hend.
    { intros He. apply ended_set_worker; [done |].
      intros w' Hw'. destruct (He w' Hw') as [panic Hin].
      exists panic. apply In_snoc. by left. }
    unfold phase_inv in *. rewrite Htk. simpl.
    destruct (pc s) eqn:Hpc; rewrite ?length_insert, ?Hex;
      try (by destruct Hp as [Hall _];
           eapply Forall_eq_lookup in Hall; [|exact Hw]);
      try (by eapply Forall_eq_lookup in Hp; [|exact Hw]).
    + destruct Hp as (_ & _ & _ & Hq' & _). congruence.
    + destruct Hp as (? & ? & ? & ? & Hex0 & Heq & ?).
      repeat split; auto.
      * intros Hno. by apply no_panic_snoc, Hex0 in Hno.
      * rewrite <- Heq, Hq. by rewrite <- app_assoc.
    + destruct Hp as (? & ? & ? & ? & Hex0 & Heq & ?).
      repeat split; auto.
      * intros Hno Hne. apply no_panic_snoc in Hno.
        specialize (Hex0 Hno Hne). congruence.
      * rewrite <- Heq, Hq. by rewrite <- app_assoc.
  - apply (phase_end_worker s w WRecv None); auto.
    + pose proof Hp as Hp'. unfold phase_inv in Hp'.
      destruct (pc s) eqn:Hpc; eauto;
        try (by destruct Hp' as [Hall _];
             eapply Forall_eq_lookup in Hall; [|exact Hw]);
        try (by eapply Forall_eq_lookup in Hp'; [|exact Hw]).
      destruct Hp' as (_ & _ & _ & _ & Hc' & _). congruence.
    + intros pending Hpc. unfold phase_inv in Hp. rewrite Hpc in Hp.
      destruct Hp as (_ & _ & Hc' & _). congruence.
  - assert (phase_inv cfg (set_worker (set_wg
              (emit s (EvReturn (round s) w (Some msg))) (wg s - 1)) w WExit))
      as Hp'; [|exact Hp'].
    apply (phase_end_worker s w (WBusy (Panic msg)) (Some msg)); auto.
    + by eapply busy_phase.
    + done.
  - eapply phase_set_worker; eauto using not_spawning.
  - pose proof (work_event_plain _ _ _ _ _ HI Hw Hact) as He.
    pose proof (phase_emit_plain _ _ He Hp) as Hp'.
    apply (phase_set_worker (emit s e) w (WBusy p) (WBusy p'));
      [exact Hw | done | done | | exact Hp'].
    intros i Hi. by eapply (not_spawning s).
Qed.

(** What a step adds to the trace. *)
Lemma step_trace (s s' : State) :
  Inv cfg s → step env cfg s s' →
  trace s' = trace s ∨
  ∃ e, trace s' = trace s ++ [e] ∧
    (plain e = true ∨
     (e = EvLog (LogRoundDone (round s)) ∧ pc s = MLog ∧ pc s' = MFlush) ∨
     (∃ w work rest, e = EvDequeue (round s) w work ∧
        workers s !! w = Some WRecv ∧ queue s = work :: rest ∧
        pc s' = pc s) ∨
     (∃ w panic, e = EvReturn (round s) w panic)).
Proof.
  intros HI Hs.
  destruct Hs as [Hpc Hr|Hpc Hr|p e p' Hpc Hact|Hpc|e He|Hpc HK|i Hpc Hi
                 |i Hpc Hi|work pending Hpc Hcap|Hpc|Hpc Hwg|Hpc|s0 Hpc Hs0
                 |w work rest Hw Hq|w Hw Hq Hc|w msg Hw|w a Hw|w p e p' Hw Hact];
    simpl; auto.
  - right. exists e. split; [done |]. left. by eapply ctx_event_plain.
  - right. exists e. split; [done |]. left. by apply halting_plain.
  - right. eexists. split; [done |]. right. left. done.
  - destruct Hs0 as [->|[err ->]]; [by left |].
    right. eexists. split; [done |]. by left.
  - right. eexists. split; [done |]. right. right. left.
    by exists w, work, rest.
  - right. eexists. split; [done |]. right. right. right. eauto.
  - right. eexists. split; [done |]. right. right. right. eauto.
  - right. exists e. split; [done |]. left. by eapply work_event_plain.
Qed.

Lemma step_round (s s' : State) :
  step env cfg s s' →
  (round s' = round s ∧ (pc s' = MFlush → pc s = MFlush ∨ pc s = MLog)) ∨
  (pc s = MFlush ∧ round s' = round s + 1).
Proof.
  destruct 1; simpl; auto; left; split; auto; congruence.
Qed.

Lemma taker_in_pool (s : State) (w : nat) :
  Inv cfg s → workers s !! w = Some WRecv → queue s ≠ [] → (w < pool cfg)%nat.
Proof.
  intros HI Hw Hq. pose proof (inv_phase _ _ HI) as Hp.
  apply lookup_lt_Some in Hw as Hlt.
  unfold phase_inv in Hp. destruct (pc s);
    try (by destruct Hp as [Hall _];
         eapply Forall_eq_lookup in Hall; [|exact Hw]);
    try (by eapply Forall_eq_lookup in Hp; [|exact Hw]).
  - by destruct Hp as (_ & _ & _ & ? & _).
  - destruct Hp as (_ & Hlen & _). by rewrite <- Hlen.
  - destruct Hp as (_ & Hlen & _). by rewrite <- Hlen.
Qed.

Lemma step_dequeue_inv (s s' : State) :
  Inv cfg s → step env cfg s s' →
  ∀ r w work, In (EvDequeue r w work) (trace s') →
    r ≤ round s' ∧ (w < pool cfg)%nat.
Proof.
  intros HI Hs r w work Hin.
  assert (round s ≤ round s') as Hr by (destruct (step_round _ _ Hs); lia).
  assert (In (EvDequeue r w work) (trace s) →
          r ≤ round s' ∧ (w < pool cfg)%nat) as Hold.
  { intros Hin'. apply (inv_dequeue _ _ HI) in Hin'. split; [lia | tauto]. }
  destruct (step_trace _ _ HI Hs) as [Heq|(e & Heq & He)];
    rewrite Heq in Hin; [auto |].
  apply In_snoc in Hin as [Hin|Hin]; [auto |]. subst e.
  destruct He as [He|[(He & _)|[(w' & work' & rest & He & Hw & Hq & _)
                 |(w' & panic & He)]]];
    try done.
  injection He as -> -> ->. split; [lia |].
  eapply taker_in_pool; [done | exact Hw | by rewrite Hq].
Qed.

Lemma step_done_inv (s s' : State) :
  Inv cfg s → step env cfg s s' →
  ∀ r, In (EvLog (LogRoundDone r)) (trace s') →
    r < round s' ∨ (r = round s' ∧ pc s' = MFlush).
Proof.
  intros HI Hs r Hin.
  assert (In (EvLog (LogRoundDone r)) (trace s) →
          r < round s' ∨ (r = round s' ∧ pc s' = MFlush)) as Hold.
  { intros Hin'. apply (inv_done _ _ HI) in Hin'.
    destruct (step_round _ _ Hs) as [[Hr Hpc]|[Hpc Hr]]; [|lia].
    destruct Hin' as [?|[-> Hf]]; [lia |].
    destruct Hs; simpl in *; try congruence; try lia; auto. }
  destruct (step_trace _ _ HI Hs) as [Heq|(e & Heq & He)];
    rewrite Heq in Hin; [auto |].
  apply In_snoc in Hin as [Hin|Hin]; [auto |]. subst e.
  destruct He as [He|[(He & Hpc & Hpc')|[(w' & work' & rest & He & _)
                 |(w' & panic & He)]]];
    try done.
  injection He as ->. right.
  destruct (step_round _ _ Hs) as [[Hr _]|[Hf _]]; [auto | congruence].
Qed.

Lemma step_no_work_error (s s' : State) :
  Inv cfg s → step env cfg s s' →
  ∀ domain dnsServer err,
    ¬ In (EvLog (LogWorkError domain dnsServer err)) (trace s').
Proof.
  intros HI Hs domain dnsServer err Hin.
  destruct (step_trace _ _ HI Hs) as [Heq|(e & Heq & He)];
    rewrite Heq in Hin; [by eapply (inv_no_work_error _ _ HI) |].
  apply In_snoc in Hin as [Hin|Hin]; [by eapply (inv_no_work_error _ _ HI) |].
  subst e.
  by destruct He as [He|[(He & _)|[(w' & work' & rest & He & _)
                    |(w' & panic & He)]]].
Qed.

Lemma step_order (s s' : State) :
  Inv cfg s → step env cfg s s' → barrier_order cfg (trace s').
Proof.
  intros HI Hs. pose proof (inv_order _ _ HI) as Ho.
  destruct (step_trace _ _ HI Hs) as [Heq|(e & Heq & He)];
    rewrite Heq; [done |].
  apply barrier_order_snoc; [done |]. intros n ->.
  destruct He as [He|[(He & Hpc & _)|[(w' & work' & rest & He & _)
                 |(w' & panic & He)]]];
    try done.
  injection He as ->. pose proof (inv_phase _ _ HI) as Hp.
  unfold phase_inv in Hp. rewrite Hpc in Hp.
  destruct Hp as (_ & _ & _ & Hret). split; [done |].
  intros w work Hin. apply (inv_dequeue _ _ HI) in Hin. lia.
Qed.

Lemma step_complete (s s' : State) :
  Inv cfg s → step env cfg s s' →
  ∀ r, In (EvLog (LogRoundDone r)) (trace s') → 1 ≤ Concurrency cfg →
    no_panic r (trace s') →
    map snd (dequeued r (trace s')) = workItems cfg.
Proof.
  intros HI Hs r Hin HK Hno. pose proof (inv_phase _ _ HI) as Hp.
  destruct (step_trace _ _ HI Hs) as [Heq|(e & Heq & He)];
    rewrite Heq in *; [by apply (inv_complete _ _ HI) |].
  apply In_snoc in Hin. apply no_panic_snoc in Hno.
  destruct He as [He|[(-> & Hpc & _)|[(w & work & rest & -> & Hw & Hq & _)
                 |(w & panic & ->)]]].
  - rewrite dequeued_plain by done.
    destruct Hin as [Hin|Hin]; [by apply (inv_complete _ _ HI) |].
    subst e. done.
  - rewrite dequeued_log.
    destruct Hin as [Hin|Hin]; [by apply (inv_complete _ _ HI) |].
    injection Hin as ->. unfold phase_inv in Hp. rewrite Hpc in Hp.
    destruct Hp as (_ & _ & Htk & _). by apply Htk.
  - destruct Hin as [Hin|Hin]; [|done].
    pose proof (inv_done _ _ HI _ Hin) as [Hr|[-> Hpc]].
    + rewrite dequeued_other by lia. by apply (inv_complete _ _ HI).
    + unfold phase_inv in Hp. rewrite Hpc in Hp. destruct Hp as [Hp _].
      by eapply Forall_eq_lookup in Hp; [|exact Hw].
  - rewrite dequeued_return.
    destruct Hin as [Hin|Hin]; [by apply (inv_complete _ _ HI) | done].
Qed.

(** The items taken in a round are, in order, the first items of the
    matrix: none is taken twice, whatever happens later. *)
Lemma step_prefix (s s' : State) :
  Inv cfg s → step env cfg s s' →
  ∀ r, map snd (dequeued r (trace s')) `prefix_of` workItems cfg.
Proof.
  intros HI Hs r. pose proof (inv_phase _ _ HI) as Hp.
  pose proof (inv_prefix _ _ HI r) as Hpre.
  destruct (step_trace _ _ HI Hs) as [Heq|(e & Heq & He)];
    rewrite Heq; [done |].
  destruct He as [He|[(-> & _)|[(w & work & rest & -> & Hw & Hq & _)
                 |(w & panic & ->)]]].
  - by rewrite dequeued_plain.
  - by rewrite dequeued_log.
  - destruct (decide (r = round s)) as [->|Hne];
      [|by rewrite dequeued_other].
    rewrite dequeued_dequeue, map_app. simpl.
    unfold phase_inv in Hp. fold (taken s).
    destruct (pc s);
      try (by destruct Hp as [Hall _];
           eapply Forall_eq_lookup in Hall; [|exact Hw]).
    + destruct Hp as (_ & _ & _ & Hq' & _). congruence.
    + destruct Hp as (_ & _ & _ & _ & _ & Heq' & _).
      rewrite Hq in Heq'. exists (rest ++ pending).
      by rewrite <- Heq', <- !app_assoc.
    + destruct Hp as (_ & _ & _ & _ & _ & Heq' & _).
      rewrite Hq in Heq'. exists rest.
      by rewrite <- Heq', <- !app_assoc.
  - by rewrite dequeued_return.
Qed.

Lemma step_grows (s s' : State) (x : Event) :
  Inv cfg s → step env cfg s s' → In x (trace s) → In x (trace s').
Proof.
  intros HI Hs Hin.
  destruct (step_trace _ _ HI Hs) as [Heq|(e & Heq & _)]; rewrite Heq;
    [done | by apply In_emit].
Qed.

(** Every round before the current one has printed its completion
    line. *)
Lemma step_rounds (s s' : State) :
  Inv cfg s → step env cfg s s' →
  ∀ r, 1 ≤ r < round s' → In (EvLog (LogRoundDone r)) (trace s').
Proof.
  intros HI Hs r Hr. apply (step_grows s); [done | done |].
  destruct (step_round _ _ Hs) as [[Heq _]|[Hpc Heq]].
  - apply (inv_rounds _ _ HI). lia.
  - destruct (decide (r = round s)) as [->|Hne].
    + pose proof (inv_phase _ _ HI) as Hp. unfold phase_inv in Hp.
      rewrite Hpc in Hp. tauto.
    + apply (inv_rounds _ _ HI). lia.
Qed.

Lemma step_exit (s s' : State) :
  Inv cfg s → step env cfg s s' → pc s' = MExit →
  halted s' = true ∧ TestRounds cfg < round s'.
Proof.
  intros HI Hs. pose proof (inv_exit _ _ HI) as He.
  destruct Hs as [Hpc Hr|Hpc Hr|p e p' Hpc Hact|Hpc|e He'|Hpc HK|i Hpc Hi
                 |i Hpc Hi|work pending Hpc Hcap|Hpc|Hpc Hwg|Hpc|s0 Hpc Hs0
                 |w work rest Hw Hq|w Hw Hq Hc|w msg Hw|w a Hw|w p e p' Hw Hact];
    simpl; auto; try congruence.
  intros Hpc'. split; [done |]. by apply He.
Qed.

(** The process ends when [main] returns, on a panic, or in
    [log.Fatalf]. *)
Lemma step_halted (s s' : State) :
  halted s = false → step env cfg s s' → halted s' = true →
  pc s' = MExit ∨ (∃ msg, In (EvPanic msg) (trace s')) ∨
  (∃ err, In (EvLog (LogFatal err)) (trace s')).
Proof.
  intros Hrun Hs.
  destruct Hs as [Hpc Hr|Hpc Hr|p e p' Hpc Hact|Hpc|e He|Hpc HK|i Hpc Hi
                 |i Hpc Hi|work pending Hpc Hcap|Hpc|Hpc Hwg|Hpc|s0 Hpc Hs0
                 |w work rest Hw Hq|w Hw Hq Hc|w msg Hw|w a Hw|w p e p' Hw Hact];
    simpl; try congruence; auto.
  - intros _. right.
    destruct He as [[msg ->]|[err ->]]; [left | right];
      eexists; apply In_snoc; by right.
  - destruct Hs0 as [->|[err ->]]; simpl; congruence.
Qed.

Lemma Inv_step (s s' : State) :
  Inv cfg s → halted s = false → step env cfg s s' → Inv cfg s'.
Proof.
  intros HI Hrun Hs. constructor.
  - by eapply step_quiet.
  - by eapply step_ctx_quiet.
  - by eapply step_dequeue_inv.
  - by eapply step_done_inv.
  - by eapply step_no_work_error.
  - by eapply step_order.
  - by eapply step_complete.
  - by eapply step_prefix.
  - by eapply step_rounds.
  - by eapply step_exit.
  - by eapply step_halted.
  - by eapply step_phase.
Qed.

Lemma Inv_reachable (s : State) : reachable env cfg s → Inv cfg s.
Proof.
  induction 1 as [|s tid s' _ IH Hstep]; [apply Inv_init |].
  eapply Inv_step; [exact IH | by eapply exec_step_running |].
  by eapply exec_step_step.
Qed.

End Invariant.

(** ** Every run ends *)

Lemma bounded_mono {A} (p : Prog A) (n m : nat) :
  (n ≤ m)%nat → bounded n p → bounded m p.
Proof.
  revert n m.
  induction p as [a|msg|d s k IH|l k IH|d k IH|k IH|tok k IH|op k IH];
    intros n m Hle Hb; simpl in *; auto;
    (destruct n as [|n]; [done |]); (destruct m as [|m]; [lia |]);
    first [ intros x; apply (IH x n m); [lia | apply Hb]
          | apply (IH n m); [lia | exact Hb] ].
Qed.

Lemma bounded_bind {A B} (m : Prog A) (f : A → Prog B) (n k : nat) :
  bounded n m → (∀ a, returns m a → bounded k (f a)) →
  bounded (n + k) (bind m f).
Proof.
  revert n.
  induction m as [a|msg|d s k0 IH|l k0 IH|d k0 IH|k0 IH|tok k0 IH|op k0 IH];
    intros n Hb Hf; simpl in *; auto.
  - eapply bounded_mono; [|by apply Hf]. lia.
  - destruct n as [|n]; [done |]. simpl. intros r. apply IH; eauto.
  - destruct n as [|n]; [done |]. simpl. apply IH; eauto.
  - destruct n as [|n]; [done |]. simpl. apply IH; eauto.
  - destruct n as [|n]; [done |]. simpl. intros t. apply IH; eauto.
  - destruct n as [|n]; [done |]. simpl. intros e. apply IH; eauto.
  - destruct n as [|n]; [done |]. simpl. intros e. apply IH; eauto.
Qed.

(** An action uses one of the steps a program has. *)
Lemma bounded_act {A} (env : Env) (t : Trace) (p : Prog A) (n : nat) e p' :
  bounded n p → act env t p = Some (e, p') →
  ∃ n', n = S n' ∧ bounded n' p'.
Proof.
  destruct p; simpl; intros Hb Hact; try done;
    injection Hact as <- <-; (destruct n as [|n]; [done |]);
    exists n; split; auto.
Qed.

Lemma bounded_csvWrite (record : list CsvField) (n : nat) :
  bounded (2 * length record + 1) (csvWrite n record).
Proof.
  revert n. induction record as [|field rest IH]; intros n.
  - simpl. done.
  - replace (2 * length (field :: rest) + 1)%nat
      with (S (S (2 * length rest + 1))) by (simpl; lia).
    cbn [csvWrite]. destruct (0 <? n)%nat; cbn [csvPut bind bounded].
    + intros [err|]; [done |]. cbn [bind bounded].
      intros [err|]; [done |]. apply IH.
    + intros [err|]; [done |].
      eapply bounded_mono; [|apply IH]. lia.
Qed.

Lemma bounded_persistLoop (work : DnsWorkItem.t) (delays : list Duration) :
  bounded (11 * length delays) (persistLoop work delays).
Proof.
  induction delays as [|delay rest IH]; [done |].
  replace (11 * length (delay :: rest))%nat
    with (1 + (9 + (1 + 11 * length rest)))%nat by (simpl; lia).
  cbn [persistLoop]. apply bounded_bind; [done |]. intros t _.
  apply bounded_bind.
  - unfold writeResultToCsv.
    apply (bounded_bind _ _ 9 0); [apply (bounded_csvWrite (record_of _) 0) |].
    by intros [err|] _.
  - intros [err|] _.
    + apply (bounded_bind _ _ 1 _); [done |]. by intros _ _.
    + eapply bounded_mono; [|exact IH]. lia.
Qed.

Lemma bounded_sampleLoop (domain dnsServer : string) (interval : Duration)
    (n : nat) (i : Z) (delays : list Duration) :
  bounded (3 * n) (sampleLoop domain dnsServer interval n i delays).
Proof.
  revert i delays. induction n as [|n IH]; intros i delays; [done |].
  replace (3 * S n)%nat with (S (S (S (3 * n)))) by lia.
  cbn [sampleLoop lookup bind bounded]. intros [latency|err].
  - cbn [printf sleep bind bounded]. apply IH.
  - cbn [printf bind bounded]. eapply bounded_mono; [|apply IH]. lia.
Qed.

Lemma returns_sampleLoop_length (domain dnsServer : string) (interval : Duration)
    (n : nat) (i : Z) (delays ds : list Duration) :
  returns (sampleLoop domain dnsServer interval n i delays) ds →
  (length ds ≤ length delays + n)%nat.
Proof.
  revert i delays. induction n as [|n IH]; intros i delays; simpl.
  - intros <-. lia.
  - intros [[latency|err] Hr]; simpl in Hr; apply IH in Hr;
      rewrite ?length_app in Hr; simpl in Hr; lia.
Qed.

Lemma bounded_StartAndRecordLatencies (domain dnsServer : string) (count : Z)
    (interval : Duration) :
  bounded (3 * Z.to_nat count)
    (StartAndRecordLatencies domain dnsServer count interval).
Proof.
  unfold StartAndRecordLatencies.
  destruct ((count <? 0) || (maxAlloc <? 8 * count)); [done |].
  replace (3 * Z.to_nat count)%nat with (3 * Z.to_nat count + 0)%nat by lia.
  apply bounded_bind; [apply bounded_sampleLoop |].
  intros delays _. unfold calculateAverageDelay. by destruct (_ =? 0).
Qed.

Lemma returns_StartAndRecordLatencies_length (domain dnsServer : string)
    (count : Z) (interval : Duration) avgDelay delays err :
  returns (StartAndRecordLatencies domain dnsServer count interval)
    (avgDelay, delays, err) →
  (length delays ≤ Z.to_nat count)%nat.
Proof.
  unfold StartAndRecordLatencies.
  destruct ((count <? 0) || (maxAlloc <? 8 * count)); [done |].
  intros H. apply returns_bind in H as (ds & Hds & H).
  apply returns_bind in H as (avg & _ & H). simpl in H.
  injection H as _ <-. apply returns_sampleLoop_length in Hds. simpl in Hds. lia.
Qed.

Lemma bounded_workerBody (cfg : Config) (work : DnsWorkItem.t) :
  bounded (body_bound cfg) (workerBody cfg work).
Proof.
  unfold body_bound, workerBody.
  replace (14 * Z.to_nat (TestCount cfg) + 1)%nat
    with (3 * Z.to_nat (TestCount cfg) + (1 + 11 * Z.to_nat (TestCount cfg)))%nat
    by lia.
  apply bounded_bind; [apply bounded_StartAndRecordLatencies |].
  intros [[avgDelay delays] err] Hret.
  pose proof (returns_StartAndRecordLatencies_length _ _ _ _ _ _ _ Hret) as Hlen.
  apply returns_StartAndRecordLatencies in Hret as ->.
  apply (bounded_bind _ _ 1 _); [done |]. intros _ _.
  destruct (SaveCsv cfg); [|done].
  eapply bounded_mono; [|apply bounded_persistLoop]. lia.
Qed.

Lemma bounded_NewDnsTestContext (cfg : Config) :
  bounded ctx_bound (NewDnsTestContext cfg).
Proof.
  unfold ctx_bound, NewDnsTestContext.
  apply (bounded_bind _ _ 13 1).
  - destruct (SaveCsv cfg); [|done].
    apply (bounded_bind _ _ 1 12); [done |]. intros stamp _.
    unfold initCSV. apply (bounded_bind _ _ 1 11); [done |].
    intros [err|] _; [done |]. apply (bounded_bind _ _ 1 10); [done |].
    intros [err|] _; [done |]. apply (bounded_bind _ _ 9 1).
    + apply (bounded_csvWrite header 0).
    + intros e _. apply (bounded_bind _ _ 1 0); [done |].
      intros _ _. by destruct e.
  - intros [err|] _; [done |]. destruct (LogToFile cfg); [|done].
    unfold setupLogging. apply (bounded_bind _ _ 1 0); [done |].
    by intros [err|] _.
Qed.

Section Measure.
Context (env : Env) (cfg : Config).

Lemma sum_list_insert (bs : list nat) (w b b' : nat) :
  bs !! w = Some b → (sum_list (<[w:=b']> bs) + b = sum_list bs + b')%nat.
Proof.
  revert w. induction bs as [|b0 bs IH]; intros [|w]; simpl; try done.
  - intros [= ->]. lia.
  - intros Hw. specialize (IH w Hw). lia.
Qed.

Lemma sum_list_snoc (bs : list nat) (b : nat) :
  sum_list (bs ++ [b]) = (sum_list bs + b)%nat.
Proof. induction bs as [|b0 bs IH]; simpl; lia. Qed.

(** Worker [w] goes from [old] to [new], and from a budget [b] to the
    budget [g b]. *)
Lemma workers_update (bs : list nat) (ws : list WState) (w : nat)
    (old new : WState) (g : nat → nat) :
  Forall2 wfit bs ws → ws !! w = Some old →
  (∀ b, wfit b old → wfit (g b) new) →
  ∃ b bs', wfit b old ∧ Forall2 wfit bs' (<[w:=new]> ws) ∧
    (sum_list bs' + b = sum_list bs + g b)%nat.
Proof.
  intros Hall Hw Hg.
  destruct (Forall2_lookup_r _ _ _ _ _ Hall Hw) as (b & Hb & Hfit).
  exists b, (<[w:=g b]> bs). split; [done |]. split.
  - apply Forall2_insert; auto.
  - by apply sum_list_insert.
Qed.

Lemma fits_positive (m : nat) (s : State) : fits cfg m s → (1 ≤ m)%nat.
Proof. intros (d & bs & _ & _ & Hc). unfold cost in Hc. lia. Qed.

(** A step of a worker leaves what [main] has left as it is. *)
Lemma worker_cost (m : nat) (s s' : State) :
  fits cfg m s →
  pc s' = pc s → round s' = round s →
  (∀ bs, Forall2 wfit bs (workers s) →
     ∃ bs', Forall2 wfit bs' (workers s') ∧
       (length (queue s') * item_cost cfg + sum_list bs' <
        length (queue s) * item_cost cfg + sum_list bs)%nat) →
  ∃ m', (m' < m)%nat ∧ fits cfg m' s'.
Proof.
  intros (d & bs & Hctx & Hall & Hc) Hpc Hr Hw.
  destruct (Hw bs Hall) as (bs' & Hall' & Hlt).
  exists (cost cfg s' d bs'). split.
  - unfold cost in *. rewrite Hpc, Hr. lia.
  - exists d, bs'. rewrite Hpc. auto.
Qed.

(** A step of [main] that is not in [NewDnsTestContext] and leaves the
    queue and the workers as they are. *)
Lemma main_cost (m : nat) (s s' : State) :
  fits cfg m s →
  (∀ p, pc s' ≠ MCtx p) →
  workers s' = workers s → queue s' = queue s →
  (∀ d,
     rounds_left cfg (round s') (pc s') * round_cost cfg + rank cfg (pc s') 0 <
     rounds_left cfg (round s) (pc s) * round_cost cfg + rank cfg (pc s) d)%nat →
  ∃ m', (m' < m)%nat ∧ fits cfg m' s'.
Proof.
  intros (d & bs & Hctx & Hall & Hc) Hpc Hws Hq Hlt.
  exists (cost cfg s' 0 bs). split.
  - unfold cost in *. rewrite Hq. specialize (Hlt d). lia.
  - exists 0%nat, bs. rewrite Hws. split; [|auto].
    unfold ctx_fit. destruct (pc s') eqn:E; auto. by destruct (Hpc p).
Qed.

(** Every step that does not end the process uses up some of what the
    process has left. *)
Lemma step_cost (m : nat) (s s' : State) :
  fits cfg m s → step env cfg s s' →
  halted s' = true ∨ ∃ m', (m' < m)%nat ∧ fits cfg m' s'.
Proof.
  intros Hfit Hs.
  destruct Hs as [Hpc Hr|Hpc Hr|p e p' Hpc Hact|Hpc|e He|Hpc HK|i Hpc Hi
                 |i Hpc Hi|work pending Hpc Hcap|Hpc|Hpc Hwg|Hpc|s0 Hpc Hs0
                 |w work rest Hw Hq|w Hw Hq Hc|w msg Hw|w a Hw|w p e p' Hw Hact];
    try (by left); right.
  - (* into the round *)
    destruct Hfit as (d & bs & Hctx & Hall & Hc).
    exists (cost cfg (set_pc s (MCtx (NewDnsTestContext cfg))) ctx_bound bs).
    split.
    + unfold cost in *. simpl. rewrite Hpc in Hc. unfold rounds_left in *.
      unfold rank in *.
      replace (Z.to_nat (TestRounds cfg - round s + 1))
        with (S (Z.to_nat (TestRounds cfg - round s))) in Hc by lia.
      rewrite Nat.mul_succ_l in Hc. unfold round_cost in Hc at 2. lia.
    + exists ctx_bound, bs. simpl. split; [apply bounded_NewDnsTestContext | auto].
  - (* an action of NewDnsTestContext *)
    destruct Hfit as (d & bs & Hctx & Hall & Hc).
    unfold ctx_fit in Hctx. rewrite Hpc in Hctx.
    destruct (bounded_act _ _ _ _ _ _ Hctx Hact) as (d' & -> & Hb).
    exists (cost cfg (set_pc (emit s e) (MCtx p')) d' bs). split.
    + unfold cost in *. simpl. rewrite Hpc in Hc. unfold rounds_left, rank in *.
      lia.
    + exists d', bs. simpl. auto.
  - apply (main_cost m s); [exact Hfit | done | done | done |]. intros d. simpl. rewrite Hpc.
    unfold rounds_left, rank. lia.
  - (* the queue and the counter are made *)
    destruct Hfit as (d & bs & Hctx & Hall & Hc).
    exists (cost cfg (set_pc (set_workers (set_wg (set_closed (set_queue s [])
              false) (Concurrency cfg)) []) (MSpawn 0)) 0 []).
    split.
    + unfold cost in *. simpl. rewrite Hpc in Hc. unfold rounds_left, rank in *.
      unfold pool in Hc. rewrite Z.sub_0_r. lia.
    + exists 0%nat, []. simpl. auto.
  - (* a worker is started *)
    destruct Hfit as (d & bs & Hctx & Hall & Hc).
    exists (cost cfg (set_pc (set_workers s (workers s ++ [WRecv]))
              (MSpawn (i + 1))) 0 (bs ++ [1%nat])).
    split.
    + unfold cost in *. simpl. rewrite Hpc in Hc. unfold rounds_left, rank in *.
      rewrite sum_list_snoc.
      replace (Z.to_nat (Concurrency cfg - i))
        with (S (Z.to_nat (Concurrency cfg - (i + 1)))) in Hc by lia.
      lia.
    + exists 0%nat, (bs ++ [1%nat]). simpl. split; [done |]. split; [|done].
      apply Forall2_app; [done |]. by repeat constructor.
  - apply (main_cost m s); [exact Hfit | done | done | done |]. intros d. simpl. rewrite Hpc.
    unfold rounds_left, rank. lia.
  - (* an item is sent *)
    destruct Hfit as (d & bs & Hctx & Hall & Hc).
    exists (cost cfg (set_pc (set_queue s (queue s ++ [work])) (MSend pending))
              0 bs).
    split.
    + unfold cost in *. simpl. rewrite Hpc in Hc. unfold rounds_left, rank in *.
      rewrite length_app. simpl in *. lia.
    + exists 0%nat, bs. simpl. auto.
  - apply (main_cost m s); [exact Hfit | done | done | done |]. intros d. simpl. rewrite Hpc.
    unfold rounds_left, rank. simpl. lia.
  - apply (main_cost m s); [exact Hfit | done | done | done |]. intros d. simpl. rewrite Hpc.
    unfold rounds_left, rank. lia.
  - apply (main_cost m s); [exact Hfit | done | done | done |]. intros d. simpl. rewrite Hpc.
    unfold rounds_left, rank. lia.
  - apply (main_cost m s); [exact Hfit | done | | |].
    + by destruct Hs0 as [->|[err ->]].
    + by destruct Hs0 as [->|[err ->]].
    + intros d. simpl. rewrite Hpc. unfold rounds_left, rank.
      replace (TestRounds cfg - (round s + 1) + 1) with (TestRounds cfg - round s)
        by lia.
      lia.
  - (* an item is taken *)
    apply (worker_cost m s); auto. intros bs Hall. simpl.
    destruct (workers_update bs (workers s) w WRecv
                (WBusy (workerBody cfg work)) (λ _, item_cost cfg) Hall Hw)
      as (b & bs' & Hb & Hall' & Hsum).
    { intros b _. exists (body_bound cfg). split; [apply bounded_workerBody |].
      unfold item_cost. lia. }
    exists bs'. split; [done |]. rewrite Hq. simpl in *. lia.
  - (* a worker returns *)
    apply (worker_cost m s); auto. intros bs Hall. simpl.
    destruct (workers_update bs (workers s) w WRecv WExit (λ _, 0%nat) Hall Hw)
      as (b & bs' & Hb & Hall' & Hsum); [done |].
    exists bs'. split; [done |]. simpl in *. lia.
  - (* a worker unwinds *)
    apply (worker_cost m s); auto. intros bs Hall. simpl.
    destruct (workers_update bs (workers s) w (WBusy (Panic msg)) WExit
                (λ _, 0%nat) Hall Hw)
      as (b & bs' & (d0 & _ & Hb) & Hall' & Hsum); [done |].
    exists bs'. split; [done |]. lia.
  - (* back to the receive *)
    apply (worker_cost m s); auto. intros bs Hall. simpl.
    destruct (workers_update bs (workers s) w (WBusy (Ret a)) WRecv
                (λ _, 1%nat) Hall Hw)
      as (b & bs' & (d0 & _ & Hb) & Hall' & Hsum); [simpl; lia |].
    exists bs'. split; [done |]. lia.
  - (* an action of the body *)
    apply (worker_cost m s); auto. intros bs Hall. simpl.
    destruct (workers_update bs (workers s) w (WBusy p) (WBusy p')
                (λ b, (b - 1)%nat) Hall Hw)
      as (b & bs' & (d0 & Hd0 & Hb) & Hall' & Hsum).
    { intros b (d0 & Hd0 & Hb).
      destruct (bounded_act _ _ _ _ _ _ Hd0 Hact) as (d' & -> & Hd').
      exists d'. split; [done | lia]. }
    exists bs'. split; [done |]. lia.
Qed.

Lemma fits_init : fits cfg (run_bound cfg) init.
Proof.
  exists 0%nat, []. split; [done |]. split; [constructor |].
  unfold cost, run_bound. simpl.
  replace (TestRounds cfg - 1 + 1) with (TestRounds cfg) by lia. lia.
Qed.

Lemma run_schedule_fits (sched : list Tid) (m : nat) (s s' : State) :
  fits cfg m s → run_schedule env cfg sched s = Some s' →
  (length sched ≤ m)%nat.
Proof.
  revert m s. induction sched as [|tid sched IH]; intros m s Hfit; simpl;
    [lia |].
  destruct (exec_step env cfg tid s) as [s1|] eqn:Hstep; [|done].
  intros Hrun. pose proof (fits_positive _ _ Hfit) as Hpos.
  destruct (step_cost m s s1 Hfit (exec_step_step _ _ _ _ _ Hstep))
    as [Hh|(m' & Hlt & Hfit')].
  - destruct sched as [|tid' sched]; [simpl; lia |].
    simpl in Hrun. unfold exec_step in Hrun. by rewrite Hh in Hrun.
  - specialize (IH m' s1 Hfit' Hrun). lia.
Qed.

End Measure.

(** No run of the process is longer than [run_bound]: no thread loops for
    ever, whatever the scheduler and the world do. *)
Theorem runs_end (env : Env) (cfg : Config) (sched : list Tid) (s : State) :
  run_schedule env cfg sched init = Some s → (length sched ≤ run_bound cfg)%nat.
Proof. apply run_schedule_fits, fits_init. Qed.

(** ** The work-item matrix *)

Lemma enqueueAll_matrix (domains dnsServers : list string) (q : list DnsWorkItem.t) :
  enqueueAll domains dnsServers q = q ++ matrix domains dnsServers.
Proof.
  unfold enqueueAll, matrix.
  assert (Hin : ∀ domain servers q,
    fold_left (λ q dnsServer, q ++ [DnsWorkItem.mk domain dnsServer]) servers q =
    q ++ map (DnsWorkItem.mk domain) servers).
  { intros domain servers; induction servers as [|sv servers IH]; intros q'; simpl.
    - by rewrite app_nil_r.
    - by rewrite IH, <- app_assoc. }
  revert q; induction domains as [|d domains IH]; intros q; simpl.
  - by rewrite app_nil_r.
  - by rewrite Hin, IH, <- app_assoc.
Qed.

Lemma matrix_lookup (domains dnsServers : list string) (i j : nat)
    (domain dnsServer : string) :
  domains !! i = Some domain → dnsServers !! j = Some dnsServer →
  matrix domains dnsServers !! (i * length dnsServers + j)%nat =
  Some (DnsWorkItem.mk domain dnsServer).
Proof.
  intros Hi Hj. apply lookup_lt_Some in Hj as Hlt.
  revert i Hi; induction domains as [|d domains IH]; intros i Hi; [done |].
  unfold matrix. simpl. destruct i as [|i]; simpl in *.
  - injection Hi as ->. rewrite lookup_app_l by (by rewrite length_map).
    by rewrite list_lookup_fmap, Hj.
  - rewrite lookup_app_r by (rewrite length_map; lia).
    rewrite length_map.
    replace (length dnsServers + i * length dnsServers + j - length dnsServers)%nat
      with (i * length dnsServers + j)%nat by lia.
    by apply IH.
Qed.

Lemma matrix_length (domains dnsServers : list string) :
  length (matrix domains dnsServers) = (length domains * length dnsServers)%nat.
Proof.
  unfold matrix. induction domains as [|d domains IH]; simpl; [done |].
  by rewrite length_app, length_map, IH.
Qed.

(** C5. The items [performTestRound] puts on the queue are the Cartesian
    product of the domains and the servers, the servers in the inner loop:
    there are |D| × |S| of them, the item of the i-th domain and the j-th
    server is at place i × |S| + j, and nothing is filtered or merged. *)
Theorem workItems_matrix (cfg : Config) :
  workItems cfg = matrix (Domains cfg) (DNSServers cfg) ∧
  length (workItems cfg) = (length (Domains cfg) * length (DNSServers cfg))%nat ∧
  ∀ (i j : nat) domain dnsServer,
    Domains cfg !! i = Some domain → DNSServers cfg !! j = Some dnsServer →
    workItems cfg !! (i * length (DNSServers cfg) + j)%nat =
    Some (DnsWorkItem.mk domain dnsServer).
Proof.
  assert (workItems cfg = matrix (Domains cfg) (DNSServers cfg)) as ->.
  { unfold workItems. by rewrite enqueueAll_matrix. }
  split; [done |]. split; [apply matrix_length |].
  intros i j domain dnsServer. apply matrix_lookup.
Qed.

(** ** Samples that all fail *)

(** C2. With a count of zero [StartAndRecordLatencies] makes no lookup and
    leaves no event at all, and then does not return: the division of
    [calculateAverageDelay] panics. *)
Theorem zero_count_panics (env : Env) (domain dnsServer : string)
    (interval : Duration) (t : Trace) :
  run env (StartAndRecordLatencies domain dnsServer 0 interval) t =
  (t, Panicked "runtime error: integer divide by zero").
Proof. reflexivity. Qed.

(** C1. When every sample of an item fails, [StartAndRecordLatencies] makes
    its lookups and then does not return: the division of
    [calculateAverageDelay] panics. *)
Theorem all_samples_fail_panics (env : Env) (domain dnsServer : string)
    (count : Z) (interval : Duration) (t : Trace) :
  0 ≤ count → 8 * count ≤ maxAlloc →
  (∀ k : nat, (lookups t ≤ k < lookups t + Z.to_nat count)%nat →
     ∃ err, resolver env k domain dnsServer = LookupErr err) →
  ∃ evs,
    run env (StartAndRecordLatencies domain dnsServer count interval) t =
    (t ++ evs, Panicked "runtime error: integer divide by zero") ∧
    lookups evs = Z.to_nat count.
Proof.
  intros H0 Hmax Hfail. eexists. split.
  - rewrite run_StartAndRecordLatencies by done.
    by rewrite successes_all_fail.
  - apply lookups_sample_events.
Qed.

Lemma all_samples_fail_panics_witness :
  ∃ evs,
    run (Fixtures.scripted []) (StartAndRecordLatencies "a.com" "8.8.8.8" 3 0) [] =
    ([] ++ evs, Panicked "runtime error: integer divide by zero") ∧
    lookups evs = Z.to_nat 3.
Proof.
  apply (all_samples_fail_panics (Fixtures.scripted []) "a.com" "8.8.8.8" 3 0 []).
  - lia.
  - vm_compute. discriminate.
  - intros k _. exists "i/o timeout". simpl. by destruct k.
Defined.

(** ** The average and the records *)

Lemma wrap64_small (z : Z) : - 2 ^ 63 ≤ z < 2 ^ 63 → wrap64 z = z.
Proof. intros Hz. unfold wrap64. rewrite Z.mod_small; lia. Qed.

Lemma total_nonneg (delays : list Duration) :
  Forall (λ d, 0 ≤ d) delays → 0 ≤ total delays.
Proof. induction 1; simpl; lia. Qed.

Lemma sum64_total (delays : list Duration) :
  Forall (λ d, 0 ≤ d) delays → total delays < 2 ^ 63 → sum64 delays = total delays.
Proof.
  unfold sum64.
  assert (∀ acc, 0 ≤ acc → Forall (λ d, 0 ≤ d) delays →
          acc + total delays < 2 ^ 63 →
          fold_left (λ sum delay, wrap64 (sum + delay)) delays acc =
          acc + total delays) as H.
  { induction delays as [|d delays IH]; intros acc Hacc Hall Hlt; simpl in *.
    - lia.
    - inversion Hall as [|? ? Hd Hall']; subst.
      pose proof (total_nonneg _ Hall').
      rewrite wrap64_small by lia. rewrite IH; [lia | lia | done | lia]. }
  intros Hall Hlt. rewrite H; [lia | lia | done | lia].
Qed.

Lemma workerBody_saved (env : Env) (cfg : Config) (work : DnsWorkItem.t)
    (t : Trace) (delays : list Duration) :
  0 ≤ TestCount cfg → 8 * TestCount cfg ≤ maxAlloc →
  delays = successes env (DnsWorkItem.Domain work) (DnsWorkItem.DNSServer work)
             (lookups t) (Z.to_nat (TestCount cfg)) →
  delays ≠ [] →
  ∃ evs,
    run env (workerBody cfg work) t = (t ++ evs, Done tt) ∧
    (SaveCsv cfg = false → csv_tokens evs = []) ∧
    (SaveCsv cfg = true → (∀ k, csv_error env k = None) →
     ∃ rows, csv_tokens evs = flat_map (λ r, record_tokens 0 (record_of r)) rows ∧
             map Latency rows = delays ∧
             Forall (λ r, Domain r = DnsWorkItem.Domain work ∧
                          Server r = DnsWorkItem.DNSServer work) rows).
Proof.
  intros H0 Hmax Hd Hne. unfold workerBody.
  rewrite run_bind, run_StartAndRecordLatencies by done. rewrite <- Hd.
  destruct delays as [|d0 delays0] eqn:Hds; [done |]. rewrite <- Hds in *.
  cbn [bind run printf].
  set (t1 := (t ++ sample_events env _ _ _ _ _ _) ++ [EvLog _]).
  destruct (SaveCsv cfg) eqn:Hsave.
  - destruct (run_persistLoop env work delays t1) as (evs & Hrun & _ & _).
    exists (sample_events env (DnsWorkItem.Domain work) (DnsWorkItem.DNSServer work)
              (QueryInterval cfg) (lookups t) (Z.to_nat (TestCount cfg)) 1 ++
            EvLog (LogAverage (DnsWorkItem.Domain work) (DnsWorkItem.DNSServer work)
                     (Z.quot (sum64 delays) (Z.of_nat (length delays)))) :: evs).
    split; [|split; [done |]].
    + rewrite Hrun. subst t1. by rewrite <- !app_assoc.
    + intros _ Hok.
      destruct (run_persistLoop_ok env work delays t1 Hok) as (evs' & Hrun' & Htok).
      rewrite Hrun in Hrun'. injection Hrun' as Heq%app_inv_head. subst evs'.
      exists (persist_rows env work (length t1) delays).
      split; [|split].
      * rewrite csv_tokens_app, csv_tokens_sample_events. simpl. exact Htok.
      * apply persist_rows_latency.
      * apply persist_rows_work.
  - eexists. split; [|split; [|done]].
    + subst t1. rewrite <- app_assoc. reflexivity.
    + intros _. rewrite csv_tokens_app, csv_tokens_sample_events. done.
Qed.

(** C4, as the code has it. For an item with at least one successful
    sample, the average returned is the sum of exactly the successful
    latencies, in 64 bits, divided by their number with the division of Go,
    which drops the remainder: the mean rounded down to a whole nanosecond
    when the latencies are not negative and their sum fits; the delays
    returned are the successful latencies in order. When [save_csv] is off
    nothing is put to the CSV writer; when it is on and no write fails, the
    writer receives one whole record per successful sample, in order, each
    with the latency of its sample and the domain and server of the item. *)
Theorem mean_and_records (env : Env) (cfg : Config) (work : DnsWorkItem.t)
    (t : Trace) (delays : list Duration) :
  0 ≤ TestCount cfg → 8 * TestCount cfg ≤ maxAlloc →
  delays = successes env (DnsWorkItem.Domain work) (DnsWorkItem.DNSServer work)
             (lookups t) (Z.to_nat (TestCount cfg)) →
  delays ≠ [] →
  let n := Z.of_nat (length delays) in
  let avgDelay := Z.quot (sum64 delays) n in
  (run env (StartAndRecordLatencies (DnsWorkItem.Domain work)
              (DnsWorkItem.DNSServer work) (TestCount cfg) (QueryInterval cfg)) t).2 =
    Done (avgDelay, delays, None) ∧
  (Forall (λ d, 0 ≤ d) delays → total delays < 2 ^ 63 →
   avgDelay * n ≤ total delays < avgDelay * n + n) ∧
  ∃ evs,
    run env (workerBody cfg work) t = (t ++ evs, Done tt) ∧
    (SaveCsv cfg = false → csv_tokens evs = []) ∧
    (SaveCsv cfg = true → (∀ k, csv_error env k = None) →
     ∃ rows, csv_tokens evs = flat_map (λ r, record_tokens 0 (record_of r)) rows ∧
             map Latency rows = delays ∧
             Forall (λ r, Domain r = DnsWorkItem.Domain work ∧
                          Server r = DnsWorkItem.DNSServer work) rows).
Proof.
  intros H0 Hmax Hd Hne n avgDelay. split; [|split].
  - rewrite run_StartAndRecordLatencies by done. rewrite <- Hd. simpl.
    by destruct delays.
  - intros Hall Hlt. subst avgDelay. rewrite sum64_total by done.
    assert (0 < n) by (subst n; destruct delays; [done | simpl; lia]).
    pose proof (total_nonneg _ Hall) as Htot.
    pose proof (Z.quot_rem' (total delays) n) as Hqr.
    pose proof (Z.rem_bound_pos (total delays) n Htot ltac:(lia)). lia.
  - by apply workerBody_saved.
Qed.

Lemma mean_and_records_witness :
  let delays := [Fixtures.ms 10; Fixtures.ms 20; Fixtures.ms 30] in
  (run Fixtures.env_10_20_30
     (StartAndRecordLatencies "a.com" "8.8.8.8" 3 0) []).2 =
    Done (Fixtures.ms 20, delays, None) ∧
  ∃ rows,
    csv_tokens (run Fixtures.env_10_20_30
                  (workerBody Fixtures.cfg_10_20_30 Fixtures.a_com) []).1 =
      flat_map (λ r, record_tokens 0 (record_of r)) rows ∧
    map Latency rows = delays.
Proof.
  intros delays.
  destruct (mean_and_records Fixtures.env_10_20_30 Fixtures.cfg_10_20_30
              Fixtures.a_com [] delays) as (Hrun & _ & evs & Hbody & _ & Hrows).
  - simpl. lia.
  - vm_compute. discriminate.
  - reflexivity.
  - discriminate.
  - split; [exact Hrun |].
    destruct Hrows as (rows & Htok & Hlat & _); [reflexivity | reflexivity |].
    exists rows. rewrite Hbody. simpl. split; [exact Htok | exact Hlat].
Defined.

(** C4, as the claim words it, fails on two samples of 1 ns and 2 ns with
    [save_csv] off: the average returned is 1 ns, which is not the mean of
    the two, and no record is put to the CSV writer although both samples
    succeeded. *)
Lemma mean_and_records_counterexample :
  ∃ avgDelay delays,
    (run Fixtures.env_1_2 (StartAndRecordLatencies "a.com" "8.8.8.8" 2 0) []).2 =
      Done (avgDelay, delays, None) ∧
    delays = [1; 2] ∧
    avgDelay * Z.of_nat (length delays) ≠ total delays ∧
    csv_tokens (run Fixtures.env_1_2
                  (workerBody Fixtures.cfg_1_2 Fixtures.a_com) []).1 = [].
Proof.
  exists 1, [1; 2].
  split; [vm_compute; reflexivity |]. split; [reflexivity |].
  split; [vm_compute; discriminate | vm_compute; reflexivity].
Qed.

(** The second fixture of C4: of five samples the second and the fourth
    fail; the average is over the three others and three records are
    written. *)
Example five_samples_two_fail :
  (run Fixtures.env_2_4_fail (StartAndRecordLatencies "a.com" "8.8.8.8" 5 0) []).2 =
    Done (Fixtures.ms 30, [Fixtures.ms 10; Fixtures.ms 20; Fixtures.ms 60], None) ∧
  ∃ t1 t2 t3,
    csv_tokens (run Fixtures.env_2_4_fail
                  (workerBody Fixtures.cfg_2_4_fail Fixtures.a_com) []).1 =
    flat_map (λ r, record_tokens 0 (record_of r))
      [ {| Domain := "a.com"; Server := "8.8.8.8"; Timestamp := t1;
           Latency := Fixtures.ms 10 |};
        {| Domain := "a.com"; Server := "8.8.8.8"; Timestamp := t2;
           Latency := Fixtures.ms 20 |};
        {| Domain := "a.com"; Server := "8.8.8.8"; Timestamp := t3;
           Latency := Fixtures.ms 60 |} ].
Proof.
  split; [vm_compute; reflexivity |]. exists 14, 23, 32. vm_compute. reflexivity.
Qed.

(** ** The timestamp of a record *)

Section Timestamps.
Context (env : Env).

Lemma sample_events_no_csv domain dnsServer interval (c n : nat) (i : Z) :
  Forall (λ e, ∀ tok err, e ≠ EvCsv tok err)
    (sample_events env domain dnsServer interval c n i).
Proof.
  revert c i; induction n as [|n IH]; intros c i; simpl; [constructor |].
  destruct (resolver env c domain dnsServer); repeat (constructor; [done |]);
    apply IH.
Qed.

Lemma lookups_zero (evs : list Event) (m : nat) domain dnsServer r :
  lookups evs = 0%nat → evs !! m ≠ Some (EvLookup domain dnsServer r).
Proof.
  revert m; induction evs as [|e evs IH]; intros m H0 Hm; [done |].
  simpl in H0. destruct m as [|m]; simpl in Hm.
  - injection Hm as ->. simpl in H0. lia.
  - apply (IH m); [lia | done].
Qed.

(** The events of a worker on one item: those of the samples, then
    events among which there is no lookup and every timestamp written
    was read from the clock just before. *)
Lemma run_workerBody_split (cfg : Config) (work : DnsWorkItem.t) (t : Trace) :
  ∃ evs1 evs2,
    (run env (StartAndRecordLatencies (DnsWorkItem.Domain work)
                (DnsWorkItem.DNSServer work) (TestCount cfg)
                (QueryInterval cfg)) t).1 = t ++ evs1 ∧
    (run env (workerBody cfg work) t).1 = t ++ evs1 ++ evs2 ∧
    Forall (λ e, ∀ tok err, e ≠ EvCsv tok err) evs1 ∧
    lookups evs2 = 0%nat ∧
    stamped env (length t + length evs1) evs2.
Proof.
  unfold workerBody. rewrite run_bind.
  destruct (Z.ltb_spec (TestCount cfg) 0) as [Hneg|H0];
    [|destruct (Z.ltb_spec maxAlloc (8 * TestCount cfg)) as [Hbig|Hmax]].
  - exists [], []. unfold StartAndRecordLatencies.
    replace (TestCount cfg <? 0) with true by lia. simpl.
    rewrite !app_nil_r. repeat split; auto using stamped_nil.
  - exists [], []. unfold StartAndRecordLatencies.
    replace (maxAlloc <? 8 * TestCount cfg) with true by lia.
    rewrite orb_true_r. simpl.
    rewrite !app_nil_r. repeat split; auto using stamped_nil.
  - rewrite run_StartAndRecordLatencies by done.
    set (evs1 := sample_events env _ _ _ _ _ _).
    destruct (successes env _ _ _ _) as [|d0 delays0] eqn:Hds.
    + exists evs1, []. simpl. rewrite !app_nil_r.
      repeat split; auto using stamped_nil. apply sample_events_no_csv.
    + cbn [bind run printf fst].
      set (line := EvLog _).
      assert (∃ evs, (run env (if SaveCsv cfg
                               then persistLoop work (d0 :: delays0)
                               else Ret tt) ((t ++ evs1) ++ [line])).1 =
                     ((t ++ evs1) ++ [line]) ++ evs ∧
                     lookups evs = 0%nat ∧
                     stamped env (length ((t ++ evs1) ++ [line])) evs)
        as (evs & Hrun & Hlk & Hst).
      { destruct (SaveCsv cfg).
        - destruct (run_persistLoop env work (d0 :: delays0)
                      ((t ++ evs1) ++ [line])) as (evs & Hrun & Hlk & Hst).
          exists evs. by rewrite Hrun.
        - exists []. simpl. rewrite app_nil_r. auto using stamped_nil. }
      exists evs1, (line :: evs). rewrite Hrun. repeat split.
      * by rewrite <- !app_assoc.
      * apply sample_events_no_csv.
      * done.
      * apply stamped_skip; [done |].
        rewrite !length_app in Hst. simpl in Hst.
        by replace (S (length t + length evs1))
          with (length t + length evs1 + 1)%nat by lia.
Qed.

(** C10. The timestamp of every record a worker writes for an item is
    the value of a [time.Now()] the worker reads after the last sample of
    the item is over, and before it writes the record; on a clock that
    does not run backwards it is not earlier than the time of any of the
    item's lookups. *)
Theorem timestamp_after_samples (cfg : Config) (work : DnsWorkItem.t)
    (t : Trace) (k : nat) (ts : Z) (err : option error) :
  monotone (clock env) →
  (length t ≤ k)%nat →
  (run env (workerBody cfg work) t).1 !! k = Some (EvCsv (TField (FTime ts)) err) →
  ∃ n : nat,
    (length (run env (StartAndRecordLatencies (DnsWorkItem.Domain work)
               (DnsWorkItem.DNSServer work) (TestCount cfg)
               (QueryInterval cfg)) t).1 ≤ n < k)%nat ∧
    (run env (workerBody cfg work) t).1 !! n = Some (EvNow ts) ∧
    ts = clock env n ∧
    ∀ (m : nat) domain dnsServer r,
      (length t ≤ m)%nat →
      (run env (workerBody cfg work) t).1 !! m =
        Some (EvLookup domain dnsServer r) →
      (m < n)%nat ∧ clock env m ≤ ts.
Proof.
  intros Hmono Hk Hev.
  destruct (run_workerBody_split cfg work t)
    as (evs1 & evs2 & -> & Hbody & Hno & Hlk & Hst).
  rewrite Hbody in Hev |- *. clear Hbody. unfold Trace in *.
  rewrite lookup_app_r in Hev by done.
  apply lookup_app_Some in Hev as [Hev|[Hlen Hev]].
  { eapply Forall_lookup_1 in Hno; [|exact Hev].
    by destruct (Hno (TField (FTime ts)) err). }
  destruct (Hst _ _ _ Hev) as (n & Hn & Hnow & Hts).
  exists (length t + length evs1 + n)%nat. rewrite length_app.
  split; [lia |]. split; [|split; [done |]].
  - rewrite app_assoc, lookup_app_r by (rewrite length_app; lia).
    rewrite length_app.
    by replace (length t + length evs1 + n - (length t + length evs1))%nat
      with n by lia.
  - intros m domain dnsServer r Hm Hlook.
    rewrite lookup_app_r in Hlook by done.
    apply lookup_app_Some in Hlook as [Hlook|[_ Hlook]].
    + apply lookup_lt_Some in Hlook.
      split; [lia |]. rewrite Hts. apply Hmono. lia.
    + by destruct (lookups_zero _ _ _ _ _ Hlk Hlook).
Qed.

End Timestamps.

Lemma timestamp_after_samples_witness :
  ∃ n : nat,
    (9 ≤ n < 15)%nat ∧
    (run Fixtures.env_10_20_30
       (workerBody Fixtures.cfg_10_20_30 Fixtures.a_com) []).1 !! n =
      Some (EvNow 10) ∧
    10 = clock Fixtures.env_10_20_30 n ∧
    ∀ (m : nat) domain dnsServer r,
      (0 ≤ m)%nat →
      (run Fixtures.env_10_20_30
         (workerBody Fixtures.cfg_10_20_30 Fixtures.a_com) []).1 !! m =
        Some (EvLookup domain dnsServer r) →
      (m < n)%nat ∧ clock Fixtures.env_10_20_30 m ≤ 10.
Proof.
  apply (timestamp_after_samples Fixtures.env_10_20_30 Fixtures.cfg_10_20_30
           Fixtures.a_com [] 15 10 None).
  - intros n m Hnm. simpl. lia.
  - simpl. lia.
  - vm_compute. reflexivity.
Defined.

(** ** Rounds, workers and the queue *)

Lemma run_schedule_reachable (env : Env) (cfg : Config) (sched : list Tid)
    (s s' : State) :
  reachable env cfg s → run_schedule env cfg sched s = Some s' →
  reachable env cfg s'.
Proof.
  revert s; induction sched as [|tid sched IH]; intros s Hs; simpl.
  - by intros [= <-].
  - destruct (exec_step env cfg tid s) as [s1|] eqn:Hstep; [|done].
    apply IH. by eapply reach_step.
Qed.

Lemma after_reachable (env : Env) (cfg : Config) (sched : list Tid) :
  reachable env cfg (Fixtures.after env cfg sched).
Proof.
  unfold Fixtures.after.
  destruct (run_schedule env cfg sched init) as [s|] eqn:Hrun; simpl.
  - eapply run_schedule_reachable; [apply reach_init | exact Hrun].
  - apply reach_init.
Qed.

(** Between two rounds no worker is left: when [main] is at the test of
    its loop, in [NewDnsTestContext] or at the lines that make the queue
    of the next round, the function of every worker has ended. *)
Lemma no_worker_between_rounds (env : Env) (cfg : Config) (s : State) :
  reachable env cfg s →
  pc s = MLoop ∨ (∃ p, pc s = MCtx p) ∨ pc s = MMake ∨ pc s = MExit →
  Forall (eq WExit) (workers s).
Proof.
  intros Hs Hpc. pose proof (inv_phase _ _ (Inv_reachable env cfg s Hs)) as Hp.
  unfold phase_inv in Hp.
  destruct Hpc as [Hpc|[[p Hpc]|[Hpc|Hpc]]]; rewrite Hpc in Hp; tauto.
Qed.

(** Once the queue of a round is closed, what was put on it, taken or
    still waiting, is the matrix. *)
Lemma enqueued_is_matrix (env : Env) (cfg : Config) (s : State) :
  reachable env cfg s → pc s = MWait →
  map snd (dequeued (round s) (trace s)) ++ queue s = workItems cfg.
Proof.
  intros Hs Hpc. pose proof (inv_phase _ _ (Inv_reachable env cfg s Hs)) as Hp.
  unfold phase_inv in Hp. rewrite Hpc in Hp. tauto.
Qed.

(** C6. In every run, when the completion line of round [n] is printed
    the function of every worker of round [n] has ended and its deferred
    [wg.Done()] has run, and no item of round [n + 1] has been taken from
    the queue; when no worker of round [n] has panicked, every one of them
    has returned from its loop. *)
Theorem round_barrier (env : Env) (cfg : Config) (s : State)
    (pre post : Trace) (n : Z) :
  reachable env cfg s →
  trace s = pre ++ EvLog (LogRoundDone n) :: post →
  (∀ w : nat, (w < pool cfg)%nat → ∃ panic, In (EvReturn n w panic) pre) ∧
  (no_panic n pre → ∀ w : nat, (w < pool cfg)%nat → In (EvReturn n w None) pre) ∧
  (∀ (w : nat) work, ¬ In (EvDequeue (n + 1) w work) pre).
Proof.
  intros Hs Heq.
  destruct (inv_order _ _ (Inv_reachable env cfg s Hs) pre n post Heq)
    as [Hret Hdeq].
  split; [done |]. split; [|done].
  intros Hno w Hw. destruct (Hret w Hw) as [[msg|] Hin]; [|done].
  by destruct (Hno w msg).
Qed.

Lemma round_barrier_witness :
  let t := trace (Fixtures.after Fixtures.env_two Fixtures.cfg_rounds
                    Fixtures.sched_rounds) in
  t !! 6%nat = Some (EvLog (LogRoundDone 1)) ∧
  t !! 7%nat = Some (EvDequeue 2 0 Fixtures.a_com) ∧
  (∀ w : nat, (w < 1)%nat → ∃ panic, In (EvReturn 1 w panic) (take 6 t)) ∧
  (no_panic 1 (take 6 t) →
   ∀ w : nat, (w < 1)%nat → In (EvReturn 1 w None) (take 6 t)) ∧
  (∀ (w : nat) work, ¬ In (EvDequeue (1 + 1) w work) (take 6 t)).
Proof.
  intros t. split; [vm_compute; reflexivity |].
  split; [vm_compute; reflexivity |].
  apply (round_barrier Fixtures.env_two Fixtures.cfg_rounds
           (Fixtures.after Fixtures.env_two Fixtures.cfg_rounds
              Fixtures.sched_rounds) (take 6 t) (drop 7 t) 1).
  - apply after_reachable.
  - vm_compute. reflexivity.
Defined.

(** The items the workers have seen, worker by worker, are the items
    taken, in another order. *)
Lemma concat_nil {A B} (l : list A) : concat (map (λ _, @nil B) l) = [].
Proof. induction l; simpl; auto. Qed.

Lemma seen_partition (A : Type) (l : list (nat * A)) (ws : list nat) :
  NoDup ws → Forall (λ x, x.1 ∈ ws) l →
  concat (map (λ w, map snd (filter (λ x, x.1 = w) l)) ws) ≡ₚ map snd l.
Proof.
  intros Hnd. induction l as [|[w0 a] l IH]; intros Hall.
  - simpl. by rewrite concat_nil.
  - inversion Hall as [|? ? Hw0 Hall']; subst. simpl in Hw0.
    change (map snd ((w0, a) :: l)) with (a :: map snd l).
    rewrite <- (IH Hall'). clear IH Hall Hall'.
    induction Hnd as [|w ws Hw Hnd IH]; [by apply elem_of_nil in Hw0 |].
    simpl. rewrite filter_cons. simpl.
    destruct (decide (w0 = w)) as [->|Hne].
    + simpl. apply Permutation_skip, Permutation_app_head.
      clear IH Hw0. induction ws as [|w' ws IH]; [done |].
      simpl. rewrite filter_cons. simpl.
      apply not_elem_of_cons in Hw as [Hne Hw].
      destruct (decide (w = w')); [done |].
      apply Permutation_app_head, IH; [done |]. by inversion Hnd.
    + apply elem_of_cons in Hw0 as [?|Hw0]; [done |].
      rewrite (IH Hw0). symmetry. apply Permutation_middle.
Qed.

Lemma dequeued_In (r : Z) (t : Trace) (w : nat) (work : DnsWorkItem.t) :
  In (w, work) (dequeued r t) → In (EvDequeue r w work) t.
Proof.
  induction t as [|e t IH]; simpl; [done |].
  destruct e as [| | | | | | |r' w' work'|]; auto.
  destruct (Z.eqb_spec r' r) as [->|]; auto.
  intros [[= -> ->]|Hin]; auto.
Qed.

Lemma no_panic_test (r : Z) (t : Trace) :
  forallb (λ e, negb (is_panic r e)) t = true → no_panic r t.
Proof.
  intros Hall w msg Hin.
  apply (proj1 (forallb_forall _ _) Hall) in Hin.
  simpl in Hin. by rewrite Z.eqb_refl in Hin.
Qed.

Lemma no_crash_test (t : Trace) :
  forallb (λ e, negb (is_crash e)) t = true → no_crash t.
Proof.
  intros Hall. split; [intros msg Hin | intros err Hin];
    by apply (proj1 (forallb_forall _ _) Hall) in Hin.
Qed.

(** In every run and for every round [r]: the items the workers of the
    pool have seen in round [r], taken together, are the items taken from
    the queue in that round, each take by one worker; the items taken are,
    in order, the first items of the matrix, so none is taken twice. Once
    the completion line of the round is printed, with at least one worker,
    a [concurrency] within the range of the counter of the wait group and
    no worker of the round ended by a panic, the items taken are the whole
    matrix; and a process that has ended without a panic and without
    [log.Fatalf] has printed the completion line of every round. *)
Theorem each_item_taken_once (env : Env) (cfg : Config) (s : State) (r : Z) :
  reachable env cfg s →
  concat (map (λ w, seen r w (trace s)) (seq 0 (pool cfg)))
    ≡ₚ map snd (dequeued r (trace s)) ∧
  map snd (dequeued r (trace s)) `prefix_of` workItems cfg ∧
  (1 ≤ Concurrency cfg < 2 ^ 31 → In (EvLog (LogRoundDone r)) (trace s) →
   no_panic r (trace s) →
   map snd (dequeued r (trace s)) = workItems cfg ∧
   concat (map (λ w, seen r w (trace s)) (seq 0 (pool cfg))) ≡ₚ workItems cfg) ∧
  (halted s = true → no_crash (trace s) → 1 ≤ r ≤ TestRounds cfg →
   In (EvLog (LogRoundDone r)) (trace s)).
Proof.
  intros Hs. pose proof (Inv_reachable env cfg s Hs) as HI.
  assert (concat (map (λ w, seen r w (trace s)) (seq 0 (pool cfg)))
            ≡ₚ map snd (dequeued r (trace s))) as Hseen.
  { unfold seen. apply seen_partition; [apply NoDup_seq |].
    apply Forall_forall. intros [w work] Hin. simpl.
    apply list_elem_of_In, dequeued_In in Hin.
    destruct (inv_dequeue _ _ HI _ _ _ Hin) as [_ Hw].
    apply elem_of_seq. lia. }
  split; [done |]. split; [apply (inv_prefix _ _ HI) |]. split.
  - intros HK Hdone Hno.
    pose proof (inv_complete _ _ HI r Hdone (proj1 HK) Hno) as Heq.
    split; [done |]. by rewrite <- Heq.
  - intros Hh [Hpanic Hfatal] Hr.
    destruct (inv_halt _ _ HI Hh) as [Hpc|[[msg Hin]|[err Hin]]].
    + apply (inv_rounds _ _ HI). destruct (inv_exit _ _ HI Hpc). lia.
    + by destruct (Hpanic msg).
    + by destruct (Hfatal err).
Qed.

Lemma each_item_taken_once_witness :
  let s := Fixtures.after Fixtures.env_two Fixtures.cfg_two Fixtures.sched_two in
  dequeued 1 (trace s) = [(0%nat, Fixtures.a_com); (1%nat, Fixtures.b_com)] ∧
  seen 1 0 (trace s) = [Fixtures.a_com] ∧
  seen 1 1 (trace s) = [Fixtures.b_com] ∧
  map snd (dequeued 1 (trace s)) = workItems Fixtures.cfg_two ∧
  concat (map (λ w, seen 1 w (trace s)) (seq 0 (pool Fixtures.cfg_two)))
    ≡ₚ workItems Fixtures.cfg_two ∧
  In (EvLog (LogRoundDone 1)) (trace s).
Proof.
  intros s.
  destruct (each_item_taken_once Fixtures.env_two Fixtures.cfg_two s 1
              (after_reachable _ _ _)) as (_ & _ & Hall & Hend).
  split; [vm_compute; reflexivity |].
  split; [vm_compute; reflexivity |].
  split; [vm_compute; reflexivity |].
  destruct Hall as [Heq Hperm];
    [simpl; lia | vm_compute; tauto
    | apply no_panic_test; vm_compute; reflexivity |].
  split; [exact Heq |]. split; [exact Hperm |].
  apply Hend.
  - vm_compute. reflexivity.
  - apply no_crash_test. vm_compute. reflexivity.
  - simpl. lia.
Defined.

(** C7. Two domains, one worker, the only sample of the first domain
    fails. The worker takes [a.com], the division of
    [calculateAverageDelay] panics in its body, and its deferred
    [wg.Done()] lets [main] pass [wg.Wait]: the completion line of round 1
    is printed although [b.com], which was put on the queue, has been taken
    by no worker and never will be. The item is dropped: what the workers
    have seen is not the matrix. When the runtime ends the process before
    [main] gets that far, [b.com] is dropped all the same. *)
Theorem panic_drops_items :
  let late := Fixtures.after Fixtures.env_fail Fixtures.cfg_fail Fixtures.sched_late in
  let soon := Fixtures.after Fixtures.env_fail Fixtures.cfg_fail Fixtures.sched_fail in
  Concurrency Fixtures.cfg_fail = 1 ∧
  workItems Fixtures.cfg_fail = [Fixtures.a_com; Fixtures.b_com] ∧
  (reachable Fixtures.env_fail Fixtures.cfg_fail late ∧ halted late = true ∧
   In (EvLog (LogRoundDone 1)) (trace late) ∧
   dequeued 1 (trace late) = [(0%nat, Fixtures.a_com)] ∧
   queue late = [Fixtures.b_com] ∧
   (∀ r w, ¬ In Fixtures.b_com (seen r w (trace late))) ∧
   ¬ concat (map (λ w, seen 1 w (trace late)) (seq 0 (pool Fixtures.cfg_fail)))
       ≡ₚ workItems Fixtures.cfg_fail) ∧
  (reachable Fixtures.env_fail Fixtures.cfg_fail soon ∧ halted soon = true ∧
   dequeued 1 (trace soon) = [(0%nat, Fixtures.a_com)] ∧
   queue soon = [Fixtures.b_com] ∧
   ∀ r w, ¬ In Fixtures.b_com (seen r w (trace soon))).
Proof.
  intros late soon.
  assert (∀ t r w,
            forallb (λ e, match e with
                          | EvDequeue _ _ work =>
                              negb (String.eqb (DnsWorkItem.Domain work) "b.com")
                          | _ => true
                          end) t = true →
            ¬ In Fixtures.b_com (seen r w t)) as Hnever.
  { intros t r w Hall Hin. unfold seen in Hin.
    apply in_map_iff in Hin as ([w' work] & Heq & Hin). simpl in Heq. subst work.
    apply list_elem_of_In, list_elem_of_filter in Hin as [_ Hin].
    apply list_elem_of_In, dequeued_In in Hin.
    apply (proj1 (forallb_forall _ _) Hall) in Hin. discriminate Hin. }
  split; [reflexivity |]. split; [reflexivity |]. split.
  - split; [apply after_reachable |]. split; [vm_compute; reflexivity |].
    split; [vm_compute; tauto |]. split; [vm_compute; reflexivity |].
    split; [vm_compute; reflexivity |].
    split; [intros r w; apply Hnever; vm_compute; reflexivity |].
    intros Hperm. apply Permutation_length in Hperm.
    vm_compute in Hperm. discriminate Hperm.
  - split; [apply after_reachable |]. split; [vm_compute; reflexivity |].
    split; [vm_compute; reflexivity |]. split; [vm_compute; reflexivity |].
    intros r w. apply Hnever. vm_compute. reflexivity.
Qed.

(** ** Records in the buffer of the CSV writer *)

Lemma whole_record_tail (rest : list CsvField) (n : nat) (toks : list CsvToken) :
  (0 < n)%nat →
  whole AfterField (record_tokens n rest ++ toks) = whole AtStart toks.
Proof.
  revert n; induction rest as [|f rest IH]; intros n Hn; simpl; [done |].
  replace (0 <? n)%nat with true by (symmetry; apply Nat.ltb_lt; lia).
  simpl. apply IH. lia.
Qed.

Lemma whole_record (record : list CsvField) (toks : list CsvToken) :
  whole AtStart (record_tokens 0 record ++ toks) = whole AtStart toks.
Proof.
  destruct record as [|f rest]; simpl; [done |].
  apply whole_record_tail. lia.
Qed.

Lemma serialized_whole (toks : list CsvToken) :
  serialized toks → whole AtStart toks = true.
Proof.
  intros [records ->]. induction records as [|record records IH]; simpl; [done |].
  by rewrite whole_record.
Qed.

(** C3. Two workers that save records write to the one CSV writer without
    a lock: here the first worker puts the domain of its record, then the
    second puts the domain and the first comma of its own, and the buffer
    ends with the fields of the two records mixed, in a run that goes to
    its end. *)
Theorem csv_records_interleave :
  let s := Fixtures.after Fixtures.env_two Fixtures.cfg_two Fixtures.sched_two in
  reachable Fixtures.env_two Fixtures.cfg_two s ∧
  pc s = MExit ∧ dying s = None ∧
  take 5 (drop 8 (csv_tokens (trace s))) =
    [TField (FStr "a.com"); TField (FStr "b.com"); TComma; TComma;
     TField (FStr "8.8.8.8")] ∧
  ¬ serialized (csv_tokens (trace s)).
Proof.
  intros s. split; [apply after_reachable |].
  split; [vm_compute; reflexivity |]. split; [vm_compute; reflexivity |].
  split; [vm_compute; reflexivity |].
  intros Hser. apply serialized_whole in Hser. vm_compute in Hser. discriminate.
Qed.

(** ** Failures *)

(** A failed sample is logged with its index, domain and server, and the
    loop of [StartAndRecordLatencies] still makes all its lookups. *)
Lemma failed_sample_logged (env : Env) (domain dnsServer : string)
    (interval : Duration) (c n : nat) (i : Z) (k : nat) (err : error) :
  (k < n)%nat →
  resolver env (c + k) domain dnsServer = LookupErr err →
  In (EvLog (LogQueryError domain dnsServer (i + Z.of_nat k) err))
    (sample_events env domain dnsServer interval c n i) ∧
  lookups (sample_events env domain dnsServer interval c n i) = n.
Proof.
  intros Hk Hres. split; [|apply lookups_sample_events].
  revert c i k Hk Hres; induction n as [|n IH]; intros c i k Hk Hres; [lia |].
  simpl. destruct k as [|k].
  - rewrite Nat.add_0_r in Hres. rewrite Hres, Z.add_0_r. simpl. auto.
  - assert (In (EvLog (LogQueryError domain dnsServer (i + 1 + Z.of_nat k) err))
              (sample_events env domain dnsServer interval (S c) n (i + 1))) as Hin.
    { apply IH; [lia |]. by replace (S c + k)%nat with (c + S k)%nat by lia. }
    replace (i + Z.of_nat (S k)) with (i + 1 + Z.of_nat k) by lia.
    destruct (resolver env c domain dnsServer); simpl; auto.
Qed.

(** C8. Two domains, one worker, the only sample of the first domain
    fails: the failure is logged, then the division of
    [calculateAverageDelay] panics, the deferred [wg.Done()] of the worker
    runs and the runtime ends the process, with the second domain still in
    the queue and the round not complete. When the runtime is slower than
    [main], the completion line of the round is printed first, the second
    domain never measured. *)
Theorem failed_sample_aborts_round :
  let panic := "runtime error: integer divide by zero" in
  let events :=
    [EvDequeue 1 0 Fixtures.a_com;
     EvLookup "a.com" "8.8.8.8" (LookupErr "i/o timeout");
     EvLog (LogQueryError "a.com" "8.8.8.8" 1 "i/o timeout");
     EvReturn 1 0 (Some panic)] in
  let s := Fixtures.after Fixtures.env_fail Fixtures.cfg_fail Fixtures.sched_fail in
  let s' := Fixtures.after Fixtures.env_fail Fixtures.cfg_fail Fixtures.sched_late in
  (reachable Fixtures.env_fail Fixtures.cfg_fail s ∧
   trace s = events ++ [EvPanic panic] ∧
   halted s = true ∧ pc s = MWait ∧ queue s = [Fixtures.b_com] ∧
   ∀ tid, exec_step Fixtures.env_fail Fixtures.cfg_fail tid s = None) ∧
  (reachable Fixtures.env_fail Fixtures.cfg_fail s' ∧
   trace s' = events ++ [EvLog (LogRoundDone 1); EvPanic panic] ∧
   halted s' = true ∧ queue s' = [Fixtures.b_com]).
Proof.
  intros panic events s s'. split.
  - split; [apply after_reachable |].
    split; [vm_compute; reflexivity |]. split; [vm_compute; reflexivity |].
    split; [vm_compute; reflexivity |]. split; [vm_compute; reflexivity |].
    intros tid. unfold exec_step.
    by replace (halted s) with true by (vm_compute; reflexivity).
  - split; [apply after_reachable |].
    split; [vm_compute; reflexivity |]. split; vm_compute; reflexivity.
Qed.

(** ** The error of [StartAndRecordLatencies] *)

(** Whenever [StartAndRecordLatencies] returns, the error it returns is
    nil; it returns whenever the count is one the runtime can allocate for
    and at least one sample succeeds; and in no run does a worker print
    the line of its error branch (line 216). *)
Theorem error_always_nil (env : Env) (cfg : Config) :
  (∀ domain dnsServer count interval t t' avgDelay delays err,
     run env (StartAndRecordLatencies domain dnsServer count interval) t =
       (t', Done (avgDelay, delays, err)) →
     err = None) ∧
  (∀ domain dnsServer count interval t,
     0 ≤ count → 8 * count ≤ maxAlloc →
     successes env domain dnsServer (lookups t) (Z.to_nat count) ≠ [] →
     ∃ t' avgDelay delays,
       run env (StartAndRecordLatencies domain dnsServer count interval) t =
         (t', Done (avgDelay, delays, None))) ∧
  (∀ s domain dnsServer err,
     reachable env cfg s →
     ¬ In (EvLog (LogWorkError domain dnsServer err)) (trace s)).
Proof.
  split; [|split].
  - intros domain dnsServer count interval t t' avgDelay delays err Hrun.
    apply run_returns in Hrun. by eapply returns_StartAndRecordLatencies.
  - intros domain dnsServer count interval t H0 Hmax Hne.
    rewrite run_StartAndRecordLatencies by done.
    destruct (successes env _ _ _ _) as [|d delays]; [done |]. eauto.
  - intros s domain dnsServer err Hs.
    apply (inv_no_work_error _ _ (Inv_reachable env cfg s Hs)).
Qed.

Lemma error_always_nil_witness :
  (∃ t' avgDelay delays,
     run Fixtures.env_two (StartAndRecordLatencies "a.com" "8.8.8.8" 1 0) [] =
       (t', Done (avgDelay, delays, None))) ∧
  ¬ In (EvLog (LogWorkError "a.com" "8.8.8.8" "i/o timeout"))
      (trace (Fixtures.after Fixtures.env_two Fixtures.cfg_two Fixtures.sched_two)).
Proof.
  destruct (error_always_nil Fixtures.env_two Fixtures.cfg_two) as (_ & Hret & Hno).
  split.
  - apply Hret; [lia | vm_compute; discriminate | discriminate].
  - apply Hno, after_reachable.
Defined.

(** C9. [StartAndRecordLatencies] does not return a nil error for every
    input: it returns, and then with a nil error, exactly when the count
    is one the runtime can allocate for and at least one of its samples
    succeeds. With a count of zero it returns no error at all, nil or
    other: it does not return, the division of [calculateAverageDelay]
    panics. *)
Theorem nil_error_needs_success (env : Env) (domain dnsServer : string)
    (count : Z) (interval : Duration) (t : Trace) :
  ((∃ t' avgDelay delays err,
      run env (StartAndRecordLatencies domain dnsServer count interval) t =
        (t', Done (avgDelay, delays, err))) ↔
   0 ≤ count ∧ 8 * count ≤ maxAlloc ∧
   successes env domain dnsServer (lookups t) (Z.to_nat count) ≠ []) ∧
  (¬ ∃ t' avgDelay delays err,
       run env (StartAndRecordLatencies domain dnsServer 0 interval) t =
         (t', Done (avgDelay, delays, err))) ∧
  (run env (StartAndRecordLatencies domain dnsServer 0 interval) t).2 =
    Panicked "runtime error: integer divide by zero".
Proof.
  split; [|split; [|reflexivity]].
  - split.
    + intros (t' & avgDelay & delays & err & Hrun).
      destruct ((count <? 0) || (maxAlloc <? 8 * count)) eqn:E.
      { unfold StartAndRecordLatencies in Hrun. rewrite E in Hrun.
        discriminate Hrun. }
      apply orb_false_elim in E as [E1 E2].
      split; [lia |]. split; [lia |].
      rewrite run_StartAndRecordLatencies in Hrun by lia.
      intros Hnil. rewrite Hnil in Hrun. discriminate Hrun.
    + intros (H0 & Hmax & Hne).
      rewrite run_StartAndRecordLatencies by done.
      destruct (successes env _ _ _ _) as [|d delays]; [done |]. eauto.
  - intros (t' & avgDelay & delays & err & Hrun). discriminate Hrun.
Qed.

(** * More of the code *)

(** ** The effects of [StartAndRecordLatencies] *)

Section SampleEffects.
Context (env : Env) (domain dnsServer : string) (interval : Duration).

Lemma queries_app (t1 t2 : Trace) : queries (t1 ++ t2) = queries t1 ++ queries t2.
Proof.
  induction t1 as [|e t1 IH]; simpl; [done |]. destruct e; simpl; by rewrite ?IH.
Qed.

Lemma sleeps_app (t1 t2 : Trace) : sleeps (t1 ++ t2) = sleeps t1 ++ sleeps t2.
Proof.
  induction t1 as [|e t1 IH]; simpl; [done |]. destruct e; simpl; by rewrite ?IH.
Qed.

Lemma log_lines_app (t1 t2 : Trace) :
  log_lines (t1 ++ t2) = log_lines t1 ++ log_lines t2.
Proof.
  induction t1 as [|e t1 IH]; simpl; [done |]. destruct e; simpl; by rewrite ?IH.
Qed.

Lemma clock_reads_app (t1 t2 : Trace) :
  clock_reads (t1 ++ t2) = clock_reads t1 ++ clock_reads t2.
Proof.
  induction t1 as [|e t1 IH]; simpl; [done |]. destruct e; simpl; by rewrite ?IH.
Qed.

Lemma put_errors_app (t1 t2 : Trace) :
  put_errors (t1 ++ t2) = put_errors t1 ++ put_errors t2.
Proof.
  induction t1 as [|e t1 IH]; simpl; [done |].
  destruct e as [| | | |tok [err|]| | | |]; simpl; by rewrite ?IH.
Qed.

Lemma sample_events_blocks (c n : nat) (i : Z) :
  sample_events env domain dnsServer interval c n i =
  concat (imap (λ k r,
      match r with
      | LookupOk latency =>
          [EvLookup domain dnsServer r;
           EvLog (LogQueryDelay domain dnsServer (i + Z.of_nat k) latency);
           EvSleep interval]
      | LookupErr err =>
          [EvLookup domain dnsServer r;
           EvLog (LogQueryError domain dnsServer (i + Z.of_nat k) err)]
      end)
    (map (λ k, resolver env k domain dnsServer) (seq c n))).
Proof.
  revert c i; induction n as [|n IH]; intros c i; [done |].
  cbn [sample_events seq map imap concat]. rewrite (IH (S c) (i + 1)).
  rewrite Z.add_0_r.
  assert (∀ l : list LookupResult,
    imap (λ k r,
      match r with
      | LookupOk latency =>
          [EvLookup domain dnsServer r;
           EvLog (LogQueryDelay domain dnsServer (i + 1 + Z.of_nat k) latency);
           EvSleep interval]
      | LookupErr err =>
          [EvLookup domain dnsServer r;
           EvLog (LogQueryError domain dnsServer (i + 1 + Z.of_nat k) err)]
      end) l =
    imap ((λ k r,
      match r with
      | LookupOk latency =>
          [EvLookup domain dnsServer r;
           EvLog (LogQueryDelay domain dnsServer (i + Z.of_nat k) latency);
           EvSleep interval]
      | LookupErr err =>
          [EvLookup domain dnsServer r;
           EvLog (LogQueryError domain dnsServer (i + Z.of_nat k) err)]
      end) ∘ S) l) as ->.
  { intros l. apply imap_ext. intros k r _. simpl.
    by replace (i + 1 + Z.of_nat k) with (i + Z.pos (Pos.of_succ_nat k)) by lia. }
  by destruct (resolver env c domain dnsServer).
Qed.

End SampleEffects.

(** For a count the runtime can allocate for, what
    [StartAndRecordLatencies] does is one block of events per sample, the
    blocks in the order of the samples and nothing between or after them.
    The block of sample [k] (counted from 1) is the lookup for the domain
    and server of the call, then the line of that sample with index [k],
    and then, only when the lookup succeeded, the sleep of [interval]: a
    sample that failed is followed at once by the next lookup, one that
    succeeded by a sleep, also the last. So there are exactly [count]
    lookups, whatever their answers, no timestamp and no write to the CSV
    writer. *)
Theorem sampling_effects (env : Env) (domain dnsServer : string) (count : Z)
    (interval : Duration) (t : Trace) :
  0 ≤ count → 8 * count ≤ maxAlloc →
  (run env (StartAndRecordLatencies domain dnsServer count interval) t).1 =
  t ++ concat (imap (λ k r,
         match r with
         | LookupOk latency =>
             [EvLookup domain dnsServer r;
              EvLog (LogQueryDelay domain dnsServer (1 + Z.of_nat k) latency);
              EvSleep interval]
         | LookupErr err =>
             [EvLookup domain dnsServer r;
              EvLog (LogQueryError domain dnsServer (1 + Z.of_nat k) err)]
         end)
       (map (λ k, resolver env k domain dnsServer)
          (seq (lookups t) (Z.to_nat count)))).
Proof.
  intros H0 Hmax. rewrite run_StartAndRecordLatencies by done.
  cbn [fst]. f_equal. apply sample_events_blocks.
Qed.

Lemma sampling_effects_witness :
  (run Fixtures.env_2_4_fail
     (StartAndRecordLatencies "a.com" "8.8.8.8" 5 7) []).1 =
  [EvLookup "a.com" "8.8.8.8" (LookupOk (Fixtures.ms 10));
   EvLog (LogQueryDelay "a.com" "8.8.8.8" 1 (Fixtures.ms 10));
   EvSleep 7;
   EvLookup "a.com" "8.8.8.8" (LookupErr "i/o timeout");
   EvLog (LogQueryError "a.com" "8.8.8.8" 2 "i/o timeout");
   EvLookup "a.com" "8.8.8.8" (LookupOk (Fixtures.ms 20));
   EvLog (LogQueryDelay "a.com" "8.8.8.8" 3 (Fixtures.ms 20));
   EvSleep 7;
   EvLookup "a.com" "8.8.8.8" (LookupErr "i/o timeout");
   EvLog (LogQueryError "a.com" "8.8.8.8" 4 "i/o timeout");
   EvLookup "a.com" "8.8.8.8" (LookupOk (Fixtures.ms 60));
   EvLog (LogQueryDelay "a.com" "8.8.8.8" 5 (Fixtures.ms 60));
   EvSleep 7].
Proof.
  rewrite (sampling_effects Fixtures.env_2_4_fail "a.com" "8.8.8.8" 5 7 []);
    [reflexivity | lia | vm_compute; discriminate].
Defined.

(** ** The outcome of the body of a worker's loop *)

(** The body of the loop of a worker ends in one of three ways, decided by
    the count and the answers of the resolver alone: [make] panics on a
    count that is negative or too large, before any lookup; the division of
    [calculateAverageDelay] panics when no sample succeeded; otherwise the
    body comes to its end, whatever the CSV writer answers. *)
Theorem worker_outcome (env : Env) (cfg : Config) (work : DnsWorkItem.t)
    (t : Trace) :
  let delays := successes env (DnsWorkItem.Domain work)
                  (DnsWorkItem.DNSServer work) (lookups t)
                  (Z.to_nat (TestCount cfg)) in
  (run env (workerBody cfg work) t).2 =
  if (TestCount cfg <? 0) || (maxAlloc <? 8 * TestCount cfg)
  then Panicked "runtime error: makeslice: cap out of range"
  else match delays with
       | [] => Panicked "runtime error: integer divide by zero"
       | _ :: _ => Done tt
       end.
Proof.
  intros delays. unfold workerBody. rewrite run_bind.
  destruct ((TestCount cfg <? 0) || (maxAlloc <? 8 * TestCount cfg)) eqn:E.
  - unfold StartAndRecordLatencies. by rewrite E.
  - apply orb_false_elim in E as [E1 E2].
    rewrite run_StartAndRecordLatencies by lia. fold delays.
    destruct delays as [|d delays']; [done |].
    cbn [bind run printf]. destruct (SaveCsv cfg); [|done].
    match goal with |- context [run env (persistLoop work ?ds) ?t0] =>
      destruct (run_persistLoop env work ds t0) as (evs & -> & _) end.
    done.
Qed.

(** ** [calculateAverageDelay] *)

Lemma wrap64_add (a b : Z) : wrap64 (wrap64 a + b) = wrap64 (a + b).
Proof.
  unfold wrap64.
  replace ((a + 2 ^ 63) mod 2 ^ 64 - 2 ^ 63 + b + 2 ^ 63)
    with ((a + 2 ^ 63) mod 2 ^ 64 + b) by lia.
  replace (a + b + 2 ^ 63) with (a + 2 ^ 63 + b) by lia.
  by rewrite Zplus_mod_idemp_l.
Qed.

Lemma wrap64_idemp (a : Z) : wrap64 (wrap64 a) = wrap64 a.
Proof.
  replace (wrap64 a) with (wrap64 a + 0) at 1 by lia.
  rewrite wrap64_add. f_equal. lia.
Qed.

(** The sum of the loop, wrapped at every step, is the sum wrapped once. *)
Lemma sum64_wrap (delays : list Duration) :
  sum64 delays = wrap64 (total delays).
Proof.
  unfold sum64.
  assert (∀ acc,
    fold_left (λ sum delay, wrap64 (sum + delay)) delays (wrap64 acc) =
    wrap64 (acc + total delays)) as H.
  { induction delays as [|d delays IH]; intros acc; simpl.
    - by rewrite Z.add_0_r.
    - rewrite wrap64_add, IH. f_equal. lia. }
  specialize (H 0). rewrite (wrap64_small 0) in H by lia.
  by rewrite H.
Qed.

Lemma total_bounds (delays : list Duration) (lo hi : Z) :
  Forall (λ d, lo ≤ d ≤ hi) delays →
  lo * Z.of_nat (length delays) ≤ total delays ≤ hi * Z.of_nat (length delays).
Proof.
  induction 1 as [|d delays Hd _ IH]; simpl length; simpl total; [lia |].
  rewrite Nat2Z.inj_succ. lia.
Qed.

(** The average of latencies that are not negative and whose sum fits in
    64 bits lies between the smallest and the largest of them; it is the
    common value when they are all the same. *)
Theorem average_between (delays : list Duration) (lo hi : Duration) :
  delays ≠ [] → Forall (λ d, lo ≤ d ≤ hi) delays → 0 ≤ lo →
  total delays < 2 ^ 63 →
  ∃ avgDelay,
    calculateAverageDelay delays = Ret avgDelay ∧ lo ≤ avgDelay ≤ hi.
Proof.
  intros Hne Hall Hlo Hfit.
  assert (0 < Z.of_nat (length delays)) as Hn by (destruct delays; [done | simpl; lia]).
  pose proof (total_bounds _ _ _ Hall) as [Hl Hh].
  exists (Z.quot (sum64 delays) (Z.of_nat (length delays))). split.
  - unfold calculateAverageDelay, sum64.
    destruct (Z.eqb_spec (Z.of_nat (length delays)) 0); [lia | done].
  - rewrite sum64_total; [| |done].
    + rewrite Z.quot_div_nonneg by lia. split.
      * apply Z.div_le_lower_bound; lia.
      * apply Z.div_le_upper_bound; lia.
    + eapply Forall_impl; [exact Hall |]. simpl. intros d Hd. lia.
Qed.

Lemma average_between_witness :
  ∃ avgDelay,
    calculateAverageDelay [Fixtures.ms 10; Fixtures.ms 25; Fixtures.ms 12] =
      Ret avgDelay ∧
    Fixtures.ms 10 ≤ avgDelay ≤ Fixtures.ms 25.
Proof.
  apply (average_between [Fixtures.ms 10; Fixtures.ms 25; Fixtures.ms 12]
           (Fixtures.ms 10) (Fixtures.ms 25)).
  - discriminate.
  - repeat constructor; vm_compute; discriminate.
  - vm_compute. discriminate.
  - vm_compute. reflexivity.
Defined.

(** The sum of [calculateAverageDelay] is an [int64]: the average it
    returns is the sum modulo 2^64, read as a signed number, divided by the
    number of latencies. Once the true sum of latencies that are not
    negative reaches 2^63 ns (and stays below 2^64) the average returned is
    not positive. *)
Theorem average_wraps (delays : list Duration) :
  delays ≠ [] →
  calculateAverageDelay delays =
    Ret (Z.quot (wrap64 (total delays)) (Z.of_nat (length delays))) ∧
  (2 ^ 63 ≤ total delays < 2 ^ 64 →
   Z.quot (wrap64 (total delays)) (Z.of_nat (length delays)) ≤ 0).
Proof.
  intros Hne.
  assert (0 < Z.of_nat (length delays)) as Hn by (destruct delays; [done | simpl; lia]).
  split.
  - unfold calculateAverageDelay. fold (sum64 delays). rewrite sum64_wrap.
    destruct (Z.eqb_spec (Z.of_nat (length delays)) 0); [lia | done].
  - intros Hbig.
    assert (wrap64 (total delays) = total delays - 2 ^ 64) as ->.
    { unfold wrap64.
      replace (total delays + 2 ^ 63) with (total delays - 2 ^ 63 + 1 * 2 ^ 64) by lia.
      rewrite Z_mod_plus_full, Z.mod_small; lia. }
    apply Z.quot_le_upper_bound; lia.
Qed.

Lemma average_wraps_witness :
  calculateAverageDelay [2 ^ 62; 2 ^ 62] = Ret (- 2 ^ 62).
Proof.
  destruct (average_wraps [2 ^ 62; 2 ^ 62]) as [Heq _]; [discriminate |].
  rewrite Heq. f_equal.
Defined.

(** ** Writing a record *)

Section Writing.
Context (env : Env).

(** [csvWrite] puts the tokens of its record in order and stops at the
    first put that fails. *)
Lemma run_csvWrite_cases (record : list CsvField) (n : nat) (t : Trace) :
  ∃ evs res,
    run env (csvWrite n record) t = (t ++ evs, Done res) ∧
    match res with
    | None => evs = map put_ok (record_tokens n record)
    | Some err =>
        ∃ toks tok,
          evs = map put_ok toks ++ [EvCsv tok (Some err)] ∧
          (toks ++ [tok]) `prefix_of` record_tokens n record
    end.
Proof.
  revert n t; induction record as [|field rest IH]; intros n t.
  - cbn [csvWrite record_tokens]. rewrite run_csvPut.
    destruct (csv_error env (length t)) as [err|] eqn:E.
    + exists [EvCsv TNewline (Some err)], (Some err). split; [done |].
      by exists [], TNewline.
    + by exists [EvCsv TNewline None], None.
  - assert (Hfield : ∀ t0, ∃ evs res,
      run env (e <- csvPut (TField field) ;;
               match e with
               | Some err => Ret (Some err)
               | None => csvWrite (S n) rest
               end) t0 = (t0 ++ evs, Done res) ∧
      match res with
      | None => evs = map put_ok (TField field :: record_tokens (S n) rest)
      | Some err =>
          ∃ toks tok,
            evs = map put_ok toks ++ [EvCsv tok (Some err)] ∧
            (toks ++ [tok]) `prefix_of` (TField field :: record_tokens (S n) rest)
      end).
    { intros t0. rewrite run_bind, run_csvPut.
      destruct (csv_error env (length t0)) as [err|] eqn:E.
      - exists [EvCsv (TField field) (Some err)], (Some err). split; [done |].
        exists [], (TField field). split; [done |].
        by exists (record_tokens (S n) rest).
      - destruct (IH (S n) (t0 ++ [EvCsv (TField field) None]))
          as (evs & res & Hrun & Hres).
        exists (EvCsv (TField field) None :: evs), res. split.
        + rewrite Hrun. by rewrite <- app_assoc.
        + destruct res as [err|].
          * destruct Hres as (toks & tok & -> & Hpre).
            exists (TField field :: toks), tok. split; [done |].
            simpl. by apply prefix_cons.
          * by rewrite Hres. }
    cbn [csvWrite record_tokens]. rewrite run_bind.
    destruct (0 <? n)%nat.
    + rewrite run_csvPut.
      destruct (csv_error env (length t)) as [err|] eqn:E.
      * exists [EvCsv TComma (Some err)], (Some err). split; [done |].
        exists [], TComma. split; [done |].
        by exists (TField field :: record_tokens (S n) rest).
      * destruct (Hfield (t ++ [EvCsv TComma None])) as (evs & res & Hrun & Hres).
        exists (EvCsv TComma None :: evs), res. split.
        -- rewrite Hrun. by rewrite <- app_assoc.
        -- destruct res as [err|].
           ++ destruct Hres as (toks & tok & -> & Hpre).
              exists (TComma :: toks), tok. split; [done |].
              simpl. by apply prefix_cons.
           ++ by rewrite Hres.
    + apply Hfield.
Qed.

Lemma run_writeResultToCsv_cases (result : DnsTestResult) (t : Trace) :
  ∃ evs res,
    run env (writeResultToCsv result) t = (t ++ evs, Done res) ∧
    match res with
    | None => evs = map put_ok (record_tokens 0 (record_of result))
    | Some e =>
        ∃ toks tok err,
          e = ("写入CSV记录失败: " ++ err)%string ∧
          evs = map put_ok toks ++ [EvCsv tok (Some err)] ∧
          (toks ++ [tok]) `prefix_of` record_tokens 0 (record_of result)
    end.
Proof.
  destruct (run_csvWrite_cases (record_of result) 0 t) as (evs & res & Hrun & Hres).
  unfold writeResultToCsv. rewrite run_bind, Hrun.
  destruct res as [err|].
  - exists evs, (Some ("写入CSV记录失败: " ++ err)%string). split; [done |].
    destruct Hres as (toks & tok & -> & Hpre). by exists toks, tok, err.
  - by exists evs, None.
Qed.

End Writing.

(** [writeResultToCsv] never panics. It puts the fields of the record in
    the order domain, server, timestamp, latency, with a comma between two
    fields and the line end last; when no put fails it returns nil and the
    record is in the buffer whole. It stops at the first put that fails:
    nothing is put after it, the record stays unfinished in the buffer, and
    the error returned is that of the writer behind the prefix of
    line 112. *)
Theorem writeResultToCsv_outcome (env : Env) (result : DnsTestResult) (t : Trace) :
  let record :=
    [TField (FStr (Domain result)); TComma; TField (FStr (Server result));
     TComma; TField (FTime (Timestamp result)); TComma;
     TField (FMillis (Latency result)); TNewline] in
  ∃ evs res,
    run env (writeResultToCsv result) t = (t ++ evs, Done res) ∧
    match res with
    | None => evs = map put_ok record
    | Some e =>
        ∃ toks tok err,
          e = ("写入CSV记录失败: " ++ err)%string ∧
          evs = map put_ok toks ++ [EvCsv tok (Some err)] ∧
          (toks ++ [tok]) `prefix_of` record
    end.
Proof. intros record. apply run_writeResultToCsv_cases. Qed.

(** ** The loop that saves the records of an item *)

Section Saving.
Context (env : Env).

Lemma observers_put_ok (toks : list CsvToken) :
  clock_reads (map put_ok toks) = [] ∧ log_lines (map put_ok toks) = [] ∧
  put_errors (map put_ok toks) = [] ∧ queries (map put_ok toks) = [] ∧
  sleeps (map put_ok toks) = [].
Proof. induction toks as [|tok toks IH]; simpl; auto. Qed.

(** What a call of [writeResultToCsv] and the line that follows a failure
    add to the trace. *)
Lemma write_and_log (result : DnsTestResult) (t : Trace) :
  ∃ evs res,
    run env (writeResultToCsv result) t = (t ++ evs, Done res) ∧
    clock_reads evs = [] ∧ log_lines evs = [] ∧ queries evs = [] ∧
    sleeps evs = [] ∧
    put_errors evs = match res with
                     | Some e => [default ""%string (put_errors evs !! 0%nat)]
                     | None => []
                     end ∧
    match res with
    | Some e => e = ("写入CSV记录失败: " ++
                     default ""%string (put_errors evs !! 0%nat))%string
    | None => True
    end.
Proof.
  destruct (run_writeResultToCsv_cases env result t) as (evs & res & Hrun & Hres).
  exists evs, res. split; [done |].
  destruct res as [e|].
  - destruct Hres as (toks & tok & err & -> & -> & _).
    destruct (observers_put_ok toks) as (Hc & Hl & Hp & Hq & Hs).
    rewrite clock_reads_app, log_lines_app, queries_app, sleeps_app,
      put_errors_app, Hc, Hl, Hp, Hq, Hs. done.
  - subst evs. destruct (observers_put_ok (record_tokens 0 (record_of result)))
      as (Hc & Hl & Hp & Hq & Hs). by rewrite Hc, Hl, Hp, Hq, Hs.
Qed.

End Saving.

(** The loop over the delays of an item never panics and never stops
    early: it reads the clock once per delay, whatever the CSV writer
    answers. A write that fails is logged, with the error of the writer
    behind the prefix of line 112, and the loop goes on with the next
    delay: the lines it prints are exactly those of the puts that failed,
    in order, at most one per delay. It makes no lookup and does not
    sleep. *)
Theorem persist_continues (env : Env) (work : DnsWorkItem.t)
    (delays : list Duration) (t : Trace) :
  ∃ evs,
    run env (persistLoop work delays) t = (t ++ evs, Done tt) ∧
    length (clock_reads evs) = length delays ∧
    log_lines evs =
      map (λ err, LogCsvError ("写入CSV记录失败: " ++ err)%string) (put_errors evs) ∧
    (length (put_errors evs) ≤ length delays)%nat ∧
    queries evs = [] ∧ sleeps evs = [].
Proof.
  revert t; induction delays as [|delay rest IH]; intros t.
  - exists []. by rewrite app_nil_r.
  - cbn [persistLoop]. unfold now. cbn [bind run]. rewrite run_bind.
    set (c := clock env (length t)).
    set (result := {| Domain := _; Server := _; Timestamp := c; Latency := delay |}).
    destruct (write_and_log env result (t ++ [EvNow c]))
      as (puts & res & Hrun & Hc & Hl & Hq & Hs & Hp & He).
    rewrite Hrun.
    set (L := match res with
              | Some err => [EvLog (LogCsvError err)]
              | None => []
              end).
    destruct (IH (((t ++ [EvNow c]) ++ puts) ++ L))
      as (evs & Hrest & Hc' & Hl' & Hp' & Hq' & Hs').
    exists (EvNow c :: (puts ++ L) ++ evs).
    assert (clock_reads L = [] ∧ queries L = [] ∧ sleeps L = [] ∧
            put_errors L = []) as (HcL & HqL & HsL & HpL)
      by (by destruct res; subst L).
    split; [|split; [|split; [|split; [|split]]]].
    + destruct res as [err|]; subst L; cbn [bind run printf].
      * rewrite Hrest. by rewrite <- !app_assoc.
      * rewrite app_nil_r in Hrest. rewrite Hrest, app_nil_r.
        by rewrite <- !app_assoc.
    + simpl. rewrite !clock_reads_app, Hc, HcL, length_app, Hc'. done.
    + simpl. rewrite !log_lines_app, !put_errors_app, Hl, HpL, Hl', map_app.
      rewrite app_nil_r. f_equal. rewrite Hp.
      destruct res as [err|]; subst L; simpl; [by rewrite He | done].
    + simpl. rewrite !put_errors_app, !length_app, HpL, Hp.
      destruct res; simpl; lia.
    + simpl. by rewrite !queries_app, Hq, HqL, Hq'.
    + simpl. by rewrite !sleeps_app, Hs, HsL, Hs'.
Qed.

(** ** [initCSV] *)

(** [initCSV] never panics. When the directory cannot be made it tries
    nothing else; when the file cannot be opened nothing is written. Once
    the file is open the header is written and the writer is flushed, also
    when the header could not be written (the flush is deferred), and the
    flush is the last thing done. It returns nil exactly when the
    directory, the file and every put of the header went through; the
    buffer then holds the header whole. The error of a failed step comes
    back behind the prefix of that step. *)
Theorem initCSV_outcome (env : Env) (stamp : Z) (t : Trace) :
  let mkdir := EvFile (MkdirAll "dns_test_results") in
  let open := EvFile (OpenCsv stamp) in
  ∃ evs res,
    run env (initCSV stamp) t = (t ++ evs, Done res) ∧
    ((∃ err, evs = [mkdir (Some err)] ∧
             res = Some ("创建目录失败: " ++ err)%string) ∨
     (∃ err, evs = [mkdir None; open (Some err)] ∧
             res = Some ("创建/打开CSV文件失败: " ++ err)%string) ∨
     (∃ toks tok err e,
        evs = [mkdir None; open None] ++ map put_ok toks ++
              [EvCsv tok (Some err); EvFile Flush e] ∧
        (toks ++ [tok]) `prefix_of` record_tokens 0 header ∧
        res = Some ("写入CSV表头失败: " ++ err)%string) ∨
     (∃ e,
        evs = [mkdir None; open None] ++ map put_ok (record_tokens 0 header) ++
              [EvFile Flush e] ∧
        res = None)).
Proof.
  intros mkdir open. unfold initCSV, file. cbn [bind run].
  destruct (file_error env (length t)) as [err|] eqn:E1.
  { exists [mkdir (Some err)], (Some ("创建目录失败: " ++ err)%string).
    split; [done |]. left. by exists err. }
  cbn [bind run].
  destruct (file_error env (length (t ++ [EvFile (MkdirAll "dns_test_results") None])))
    as [err|] eqn:E2.
  { exists [mkdir None; open (Some err)],
      (Some ("创建/打开CSV文件失败: " ++ err)%string).
    split; [by rewrite <- app_assoc |]. right. left. by exists err. }
  rewrite run_bind.
  match goal with |- context [run env (csvWrite 0 header) ?t0] =>
    destruct (run_csvWrite_cases env header 0 t0) as (evs & res & -> & Hres);
    set (t1 := t0) end.
  cbn [bind run].
  set (e := file_error env (length (t1 ++ evs))).
  destruct res as [err|].
  - destruct Hres as (toks & tok & -> & Hpre).
    exists ([mkdir None; open None] ++ map put_ok toks ++
            [EvCsv tok (Some err); EvFile Flush e]),
      (Some ("写入CSV表头失败: " ++ err)%string).
    split.
    + subst t1. cbn [run]. by rewrite <- !app_assoc.
    + right. right. left. by exists toks, tok, err, e.
  - subst evs.
    exists ([mkdir None; open None] ++ map put_ok (record_tokens 0 header) ++
            [EvFile Flush e]), None.
    split.
    + subst t1. cbn [run]. by rewrite <- !app_assoc.
    + right. right. right. by exists e.
Qed.

(** ** The branches of the machine *)

Lemma exec_step_transition (env : Env) (cfg : Config) (tid : Tid) (s s' : State) :
  exec_step env cfg tid s = Some s' → transition env cfg s s'.
Proof.
  unfold exec_step. destruct (halted s); [done |].
  destruct tid as [|w|].
  - unfold main_step. destruct (pc s) as [|p| |i|pending| | | |] eqn:Hpc.
    + destruct (Z.leb_spec (round s) (TestRounds cfg)); intros [= <-].
      * by apply tr_enter.
      * by apply tr_leave.
    + destruct p as [[err|]|msg|d sv k|l k|d k|k|tok k|op k];
        intros [= <-];
        try (by eapply tr_ctx; [exact Hpc | reflexivity]).
      * by apply tr_fatal.
      * by apply tr_ctx_ok.
      * by apply tr_ctx_panic.
    + destruct (Z.ltb_spec (Concurrency cfg) 0); intros [= <-].
      * by apply tr_bad_pool.
      * by apply tr_make.
    + destruct (Z.ltb_spec i (Concurrency cfg)); intros [= <-].
      * by eapply tr_spawn.
      * by eapply tr_spawned.
    + destruct pending as [|work pending].
      * intros [= <-]. by apply tr_close.
      * destruct (Nat.ltb_spec (length (queue s)) (channel_capacity cfg));
          intros [= <-]. by apply tr_send.
    + destruct (Z.eqb_spec (wg s) 0); intros [= <-]. by apply tr_wait.
    + intros [= <-]. by apply tr_log.
    + intros [= <-]. by apply tr_flush.
    + done.
  - destruct (workers s !! w) as [ws|] eqn:Hw; [|done].
    unfold worker_step. destruct ws as [|p|].
    + destruct (queue s) as [|work rest] eqn:Hq.
      * destruct (closed s) eqn:Hc; intros [= <-]. by apply tr_return.
      * intros [= <-]. by eapply tr_dequeue.
    + destruct p as [a|msg|d sv k|l k|d k|k|tok k|op k];
        intros [= <-];
        try (by eapply tr_work; [exact Hw | reflexivity]).
      * by eapply tr_next.
      * by apply tr_unwind.
    + done.
  - destruct (dying s) as [msg|] eqn:Hd; intros [= <-]. by apply tr_crash.
Qed.

(** ** Programs in a world *)

Lemma wp_bind {A B} (W : World) (P : Event → Prop) (Q : B → Prop)
    (m : Prog A) (f : A → Prog B) :
  wp W P (λ a, wp W P Q (f a)) m → wp W P Q (bind m f).
Proof.
  induction m as [a|msg|d s k IH|l k IH|d k IH|k IH|tok k IH|op k IH];
    simpl; auto.
  - intros H r Hr. destruct (H r Hr). auto.
  - intros [? ?]. auto.
  - intros [? ?]. auto.
  - intros H c. destruct (H c). auto.
  - intros H e He. destruct (H e He). auto.
  - intros H e He. destruct (H e He). auto.
Qed.

Lemma wp_mono {A} (W : World) (P : Event → Prop) (Q Q' : A → Prop) (p : Prog A) :
  (∀ a, Q a → Q' a) → wp W P Q p → wp W P Q' p.
Proof.
  intros HQ.
  induction p as [a|msg|d s k IH|l k IH|d k IH|k IH|tok k IH|op k IH];
    simpl; auto.
  - intros H r Hr. destruct (H r Hr). auto.
  - intros [? ?]. auto.
  - intros [? ?]. auto.
  - intros H c. destruct (H c). auto.
  - intros H e He. destruct (H e He). auto.
  - intros H e He. destruct (H e He). auto.
Qed.

(** An action of a program in a world it is made for. *)
Lemma wp_act {A} (env : Env) (W : World) (P : Event → Prop) (Q : A → Prop)
    (t : Trace) (p p' : Prog A) (e : Event) :
  lives_in env W → wp W P Q p → act env t p = Some (e, p') →
  P e ∧ wp W P Q p'.
Proof.
  intros (Hl & Hc & Hf).
  destruct p as [a|msg|d s k|l k|d k|k|tok k|op k]; simpl; try done;
    intros H [= <- <-]; auto.
Qed.

Lemma lives_in_any (env : Env) : lives_in env any_world.
Proof. by repeat split. Qed.

(** *** The programs of [main.go] in a world *)

Section Worlds.
Context (W : World) (P : Event → Prop).

Lemma wp_csvWrite (record : list CsvField) (n : nat) :
  (∀ tok e, w_csv W e → P (EvCsv tok e)) →
  wp W P (λ _, True) (csvWrite n record).
Proof.
  intros HP. revert n; induction record as [|field rest IH]; intros n.
  - simpl. auto.
  - cbn [csvWrite]. destruct (0 <? n)%nat; cbn [csvPut bind wp].
    + intros [err|] He; (split; [auto |]); [done |].
      cbn [bind wp]. intros [err|] He'; (split; [auto |]); [done | apply IH].
    + intros [err|] He; (split; [auto |]); [done | apply IH].
Qed.

End Worlds.

(** ** The events of a run *)

Section Events.
Context (env : Env) (cfg : Config) (W : World) (P : Event → Prop).
Hypothesis Hlive : lives_in env W.
Hypothesis Hmc : machine_closed cfg P.
Hypothesis Hbody : ∀ work, In work (workItems cfg) →
  wp W P (λ _, True) (workerBody cfg work).
Hypothesis Hctx :
  wp W P (λ res, ∀ err, res = Some err → P (fatal_line err))
    (NewDnsTestContext cfg).

Lemma events_init : events_inv cfg W P init.
Proof. constructor; simpl; try done; constructor. Qed.

Lemma busy_insert (R : Prog unit → Prop) (ws : list WState) (w : nat)
    (new : WState) :
  (∀ w' p, ws !! w' = Some (WBusy p) → R p) →
  (∀ p, new = WBusy p → R p) →
  ∀ w' p, <[w:=new]> ws !! w' = Some (WBusy p) → R p.
Proof.
  intros Hold Hnew w' p Hw'. destruct (decide (w = w')) as [->|Hne].
  - apply lookup_lt_Some in Hw' as Hlt. rewrite length_insert in Hlt.
    rewrite list_lookup_insert_eq in Hw' by done. apply Hnew. congruence.
  - rewrite list_lookup_insert_ne in Hw' by done. by eapply Hold.
Qed.

Lemma Forall_snoc (t : Trace) (e : Event) : Forall P t → P e → Forall P (t ++ [e]).
Proof. intros Ht He. apply Forall_app. split; [done |]. by constructor. Qed.

Lemma events_step (s s' : State) :
  events_inv cfg W P s → transition env cfg s s' → events_inv cfg W P s'.
Proof.
  intros [Ht Hw Hc Hd Hq Hp] Hs.
  destruct Hs as [Hpc Hr|Hpc Hr|p e p' Hpc Hact|Hpc|err Hpc|msg Hpc|Hpc HK
                 |Hpc HK|i Hpc Hi|i Hpc Hi|work pending Hpc Hcap|Hpc|Hpc Hwg
                 |Hpc|Hpc|w work rest Hw' Hq'|w Hw' Hq' Hcl|w msg Hw'|w a Hw'
                 |w p e p' Hw' Hact|msg Hdy].
  - constructor; simpl; auto; try done; by intros p [= <-].
  - constructor; simpl; auto; done.
  - destruct (wp_act _ _ _ _ _ _ _ _ Hlive (Hc p Hpc) Hact) as [He Hp'].
    constructor; simpl; auto; try done.
    + by apply Forall_snoc.
    + by intros p0 [= <-].
  - constructor; simpl; auto; done.
  - constructor; simpl; auto.
    apply Forall_snoc; [done |]. by apply (Hc _ Hpc).
  - constructor; simpl; auto.
    apply Forall_snoc; [done |]. apply (Hc _ Hpc).
  - constructor; simpl; auto.
    apply Forall_snoc; [done |]. by apply (mc_pool _ _ Hmc).
  - constructor; simpl; auto; done.
  - constructor; simpl; auto; try done.
    intros w p Hlk. apply lookup_app_Some in Hlk as [Hlk|[_ Hlk]]; [by eapply Hw |].
    by destruct (w - length (workers s))%nat.
  - constructor; simpl; auto; try done.
    intros pending [= <-]. apply Forall_forall. intros x Hx.
    by apply list_elem_of_In.
  - specialize (Hp _ Hpc). inversion Hp as [|? ? Hwork Hpend]; subst.
    constructor; simpl; auto; try done.
    + apply Forall_app. split; [done |]. by constructor.
    + by intros pending' [= <-].
  - constructor; simpl; auto; done.
  - constructor; simpl; auto; done.
  - constructor; simpl; auto; try done.
    apply Forall_snoc; [done |]. apply (mc_done _ _ Hmc).
  - destruct (SaveCsv cfg) eqn:Hsave; constructor; simpl; auto; try done.
    apply Forall_snoc; [done |]. by apply (mc_flush _ _ Hmc).
  - rewrite Hq' in Hq. inversion Hq as [|? ? Hwork Hrest]; subst.
    constructor; simpl; auto.
    + apply Forall_snoc; [done |]. by apply (mc_dequeue _ _ Hmc).
    + apply busy_insert; [done |]. intros p [= <-]. by apply Hbody.
  - constructor; simpl; auto.
    + apply Forall_snoc; [done |]. apply (mc_return _ _ Hmc).
    + by apply busy_insert.
  - pose proof (Hw _ _ Hw') as Hmsg. simpl in Hmsg.
    constructor; simpl; auto.
    + apply Forall_snoc; [done |]. by apply (mc_unwind _ _ Hmc).
    + by apply busy_insert.
    + intros msg'. destruct (dying s) as [first|] eqn:Hdy.
      * intros [= <-]. by apply Hd.
      * by intros [= <-].
  - constructor; simpl; auto. by apply busy_insert.
  - destruct (wp_act _ _ _ _ _ _ _ _ Hlive (Hw _ _ Hw') Hact) as [He Hp'].
    constructor; simpl; auto.
    + by apply Forall_snoc.
    + apply busy_insert; [done |]. by intros p0 [= <-].
  - constructor; simpl; auto.
    apply Forall_snoc; [done |]. by apply Hd.
Qed.

Lemma events_reachable (s : State) :
  reachable env cfg s → events_inv cfg W P s.
Proof.
  induction 1 as [|s tid s' _ IH Hstep]; [apply events_init |].
  eapply events_step; [exact IH |]. by eapply exec_step_transition.
Qed.

End Events.

(** *** The programs of [main.go] in any world *)

Section Expected.
Context (cfg : Config).

Lemma wp_sampleLoop_any (domain dnsServer : string) (n : nat) (i : Z)
    (delays : list Duration) :
  configured cfg domain dnsServer → 1 ≤ i →
  i + Z.of_nat n = TestCount cfg + 1 →
  wp any_world (expected cfg) (λ _, True)
    (sampleLoop domain dnsServer (QueryInterval cfg) n i delays).
Proof.
  intros Hin. revert i delays; induction n as [|n IH]; intros i delays Hi Hn;
    [done |].
  cbn [sampleLoop lookup bind wp]. intros r _. split; [done |].
  destruct r as [latency|err]; cbn [printf sleep bind wp expected].
  - split; [split; [done | lia] |]. split; [done |]. apply IH; lia.
  - split; [split; [done | lia] |]. apply IH; lia.
Qed.

Lemma wp_persistLoop_any (work : DnsWorkItem.t) (delays : list Duration) :
  SaveCsv cfg = true →
  wp any_world (expected cfg) (λ _, True) (persistLoop work delays).
Proof.
  intros Hsave. induction delays as [|delay rest IH]; [done |].
  cbn [persistLoop now bind wp]. intros c. split; [done |].
  apply wp_bind. unfold writeResultToCsv. apply wp_bind.
  eapply wp_mono; [|by apply wp_csvWrite].
  intros [err|] _; cbn [wp bind printf expected]; auto.
Qed.

Lemma wp_workerBody_any (work : DnsWorkItem.t) :
  In work (workItems cfg) →
  wp any_world (expected cfg) (λ _, True) (workerBody cfg work).
Proof.
  intros Hin. destruct work as [domain dnsServer].
  unfold workerBody. cbn [DnsWorkItem.Domain DnsWorkItem.DNSServer].
  apply wp_bind. unfold StartAndRecordLatencies.
  destruct ((TestCount cfg <? 0) || (maxAlloc <? 8 * TestCount cfg)) eqn:E.
  - cbn [wp expected]. right. left. split; [done |].
    apply orb_true_iff in E as [E|E]; lia.
  - apply orb_false_elim in E as [E1 E2].
    apply wp_bind. eapply wp_mono; [|apply wp_sampleLoop_any; [done | lia | lia]].
    intros delays _. unfold calculateAverageDelay.
    destruct (_ =? 0); cbn [bind wp expected printf]; [by left |].
    split; [done |].
    destruct (SaveCsv cfg) eqn:Hsave; [by apply wp_persistLoop_any | done].
Qed.

Lemma wp_NewDnsTestContext_any :
  wp any_world (expected cfg)
    (λ res, ∀ err, res = Some err → expected cfg (fatal_line err))
    (NewDnsTestContext cfg).
Proof.
  unfold NewDnsTestContext. apply wp_bind.
  destruct (SaveCsv cfg) eqn:Hsave.
  - assert (∀ res : option error,
      wp any_world (expected cfg)
        (λ res, ∀ err, res = Some err → expected cfg (fatal_line err))
        (match res with
         | Some err => Ret (Some err)
         | None => if LogToFile cfg then setupLogging "dns_test.log" else Ret None
         end)) as Hrest.
    { intros [err|]; cbn [wp expected fatal_line]; [by left |].
      destruct (LogToFile cfg) eqn:Hlog; [|done].
      unfold setupLogging, file. cbn [bind wp expected].
      intros [err|] _; (split; [done |]); [by right | done]. }
    cbn [now bind wp expected]. intros c. split; [done |].
    unfold initCSV, file. cbn [bind wp expected]. intros [err|] _;
      (split; [done |]); [apply Hrest |].
    cbn [bind wp expected]. intros [err|] _; (split; [done |]); [apply Hrest |].
    apply wp_bind. eapply wp_mono; [|by apply wp_csvWrite].
    intros res _. cbn [bind wp expected]. intros e _. split; [done |].
    destruct res; apply Hrest.
  - cbn [wp]. destruct (LogToFile cfg) eqn:Hlog; [|done].
    unfold setupLogging, file. cbn [bind wp expected fatal_line].
    intros [err|] _; (split; [done |]); [by right | done].
Qed.

Lemma expected_closed : machine_closed cfg (expected cfg).
Proof.
  constructor; simpl; auto. intros HK. right. right. done.
Qed.

End Expected.

(** Every event of a run is one the configuration accounts for. *)
Lemma expected_reachable (env : Env) (cfg : Config) (s : State) :
  reachable env cfg s → Forall (expected cfg) (trace s).
Proof.
  intros Hs.
  apply (ei_trace cfg any_world (expected cfg)).
  apply (events_reachable env cfg any_world (expected cfg)); auto.
  - apply lives_in_any.
  - apply expected_closed.
  - apply wp_workerBody_any.
  - apply wp_NewDnsTestContext_any.
Qed.

Lemma expected_In (env : Env) (cfg : Config) (s : State) (e : Event) :
  reachable env cfg s → In e (trace s) → expected cfg e.
Proof.
  intros Hs Hin. pose proof (expected_reachable env cfg s Hs) as Hall.
  rewrite Forall_forall in Hall. by apply Hall, list_elem_of_In.
Qed.

Lemma configured_In (cfg : Config) (domain dnsServer : string) :
  configured cfg domain dnsServer ↔
  In domain (Domains cfg) ∧ In dnsServer (DNSServers cfg).
Proof.
  unfold configured, workItems. rewrite enqueueAll_matrix. simpl.
  unfold matrix. rewrite in_flat_map. split.
  - intros (d & Hd & Hin). apply in_map_iff in Hin as (sv & [= -> ->] & Hsv). done.
  - intros [Hd Hsv]. exists domain. split; [done |].
    apply in_map_iff. by exists dnsServer.
Qed.

(** Whatever the world answers and whatever the scheduler does, a run
    looks up only pairs of a configured domain and a configured server,
    sleeps only for [query_interval], and numbers the samples in its lines
    from 1 to [test_count]. *)
Theorem only_configured_effects (env : Env) (cfg : Config) (s : State) :
  reachable env cfg s →
  (∀ domain dnsServer r, In (EvLookup domain dnsServer r) (trace s) →
     In domain (Domains cfg) ∧ In dnsServer (DNSServers cfg)) ∧
  (∀ d, In (EvSleep d) (trace s) → d = QueryInterval cfg) ∧
  (∀ domain dnsServer i latency,
     In (EvLog (LogQueryDelay domain dnsServer i latency)) (trace s) →
     In domain (Domains cfg) ∧ In dnsServer (DNSServers cfg) ∧
     1 ≤ i ≤ TestCount cfg) ∧
  (∀ domain dnsServer i err,
     In (EvLog (LogQueryError domain dnsServer i err)) (trace s) →
     In domain (Domains cfg) ∧ In dnsServer (DNSServers cfg) ∧
     1 ≤ i ≤ TestCount cfg).
Proof.
  intros Hs. split; [|split; [|split]].
  - intros domain dnsServer r Hin.
    apply (configured_In cfg), (expected_In env cfg s _ Hs Hin).
  - intros d Hin. apply (expected_In env cfg s _ Hs Hin).
  - intros domain dnsServer i latency Hin.
    destruct (expected_In env cfg s _ Hs Hin) as [Hc Hi].
    apply (configured_In cfg) in Hc as [? ?]. auto.
  - intros domain dnsServer i err Hin.
    destruct (expected_In env cfg s _ Hs Hin) as [Hc Hi].
    apply (configured_In cfg) in Hc as [? ?]. auto.
Qed.

Lemma only_configured_effects_witness :
  let s := Fixtures.after Fixtures.env_two Fixtures.cfg_two Fixtures.sched_two in
  In (EvLookup "b.com" "8.8.8.8" (LookupOk (Fixtures.ms 20))) (trace s) ∧
  In "b.com" (Domains Fixtures.cfg_two) ∧
  In "8.8.8.8" (DNSServers Fixtures.cfg_two).
Proof.
  intros s.
  assert (In (EvLookup "b.com" "8.8.8.8" (LookupOk (Fixtures.ms 20))) (trace s))
    as Hin by (vm_compute; tauto).
  split; [exact Hin |].
  destruct (only_configured_effects Fixtures.env_two Fixtures.cfg_two s
              (after_reachable _ _ _)) as (Hlk & _).
  exact (Hlk _ _ _ Hin).
Defined.

(** With [save_csv] off a run never takes a timestamp for a file name or
    for a record (the [time.Now] of lines 123 and 227), puts nothing to a
    CSV writer, and opens, makes or flushes no file but the log file; with
    [log_to_file] off it never opens the log file; with both off
    [NewDnsTestContext] cannot fail, so the run never ends in
    [log.Fatalf]. The line that reports a failed CSV write is printed only
    with [save_csv] on. *)
Theorem nothing_saved_when_disabled (env : Env) (cfg : Config) (s : State) :
  reachable env cfg s →
  (SaveCsv cfg = false →
   (∀ tok e, ¬ In (EvCsv tok e) (trace s)) ∧
   (∀ c, ¬ In (EvNow c) (trace s)) ∧
   (∀ err, ¬ In (EvLog (LogCsvError err)) (trace s)) ∧
   (∀ op e, In (EvFile op e) (trace s) → ∃ name, op = OpenLog name)) ∧
  (LogToFile cfg = false → ∀ name e, ¬ In (EvFile (OpenLog name) e) (trace s)) ∧
  (SaveCsv cfg = false → LogToFile cfg = false →
   ∀ err, ¬ In (EvLog (LogFatal err)) (trace s)).
Proof.
  intros Hs. split; [|split].
  - intros Hsave. repeat split.
    + intros tok e Hin. apply (expected_In env cfg s _ Hs) in Hin. simpl in Hin.
      congruence.
    + intros c Hin. apply (expected_In env cfg s _ Hs) in Hin. simpl in Hin.
      congruence.
    + intros err Hin. apply (expected_In env cfg s _ Hs) in Hin. simpl in Hin.
      congruence.
    + intros op e Hin. apply (expected_In env cfg s _ Hs) in Hin.
      destruct op; simpl in Hin; try congruence. eauto.
  - intros Hlog name e Hin. apply (expected_In env cfg s _ Hs) in Hin.
    simpl in Hin. congruence.
  - intros Hsave Hlog err Hin. apply (expected_In env cfg s _ Hs) in Hin.
    simpl in Hin. destruct Hin; congruence.
Qed.

Lemma nothing_saved_when_disabled_witness :
  let s := Fixtures.after Fixtures.env_two Fixtures.cfg_rounds
             Fixtures.sched_rounds in
  length (trace s) = 14%nat ∧
  (∀ tok e, ¬ In (EvCsv tok e) (trace s)) ∧
  (∀ op e, ¬ In (EvFile op e) (trace s)).
Proof.
  intros s.
  destruct (nothing_saved_when_disabled Fixtures.env_two Fixtures.cfg_rounds s
              (after_reachable _ _ _)) as (Hsave & Hlog & _).
  destruct Hsave as (Hcsv & _ & _ & Hfile); [reflexivity |].
  split; [vm_compute; reflexivity |]. split; [exact Hcsv |].
  intros op e Hin. destruct (Hfile op e Hin) as [name ->].
  by apply (Hlog eq_refl name e).
Defined.

(** With a matrix the channel can be made for, a [concurrency] in the
    range of the counter of the wait group, and no two workers writing to
    the CSV writer at once, the code of [main.go] can only die of three
    panics of its own: the division by zero of [calculateAverageDelay];
    the [make] of [StartAndRecordLatencies], when [test_count] is negative
    or too large to allocate for; [wg.Add], when [concurrency] is negative.
    So with a [test_count] that can be allocated for and a [concurrency]
    that is not negative, the only panic is the division by zero. *)
Theorem panic_causes (env : Env) (cfg : Config) (s : State) (msg : string) :
  chan_fits cfg → pool_fits cfg → one_writer cfg →
  reachable env cfg s → In (EvPanic msg) (trace s) →
  msg = "runtime error: integer divide by zero" ∨
  (msg = "runtime error: makeslice: cap out of range" ∧
   (TestCount cfg < 0 ∨ maxAlloc < 8 * TestCount cfg)) ∨
  (msg = "sync: negative WaitGroup counter" ∧ Concurrency cfg < 0).
Proof. intros _ _ _ Hs Hin. apply (expected_In env cfg s _ Hs Hin). Qed.

Lemma panic_causes_witness :
  let s := Fixtures.after Fixtures.env_fail Fixtures.cfg_fail Fixtures.sched_fail in
  ∃ msg, In (EvPanic msg) (trace s) ∧
    (msg = "runtime error: integer divide by zero" ∨
     (msg = "runtime error: makeslice: cap out of range" ∧
      (TestCount Fixtures.cfg_fail < 0 ∨ maxAlloc < 8 * TestCount Fixtures.cfg_fail)) ∨
     (msg = "sync: negative WaitGroup counter" ∧ Concurrency Fixtures.cfg_fail < 0)).
Proof.
  intros s. exists "runtime error: integer divide by zero".
  assert (In (EvPanic "runtime error: integer divide by zero") (trace s)) as Hin
    by (vm_compute; tauto).
  split; [exact Hin |].
  apply (panic_causes Fixtures.env_fail Fixtures.cfg_fail s).
  - vm_compute. discriminate.
  - unfold pool_fits. simpl. lia.
  - by left.
  - apply after_reachable.
  - exact Hin.
Defined.

(** ** A world in which nothing fails *)

Section Kind.
Context (cfg : Config).

Lemma wp_sampleLoop_kind (domain dnsServer : string) (interval : Duration)
    (n : nat) (i : Z) (delays : list Duration) :
  wp kind_world calm (λ ds, length ds = (length delays + n)%nat)
    (sampleLoop domain dnsServer interval n i delays).
Proof.
  revert i delays; induction n as [|n IH]; intros i delays.
  - simpl. lia.
  - cbn [sampleLoop lookup bind wp]. intros r [latency ->]. split; [done |].
    cbn [printf sleep bind wp calm]. split; [done |]. split; [done |].
    eapply wp_mono; [|apply IH]. intros ds Hds. simpl in Hds.
    rewrite length_app in Hds. simpl in Hds. lia.
Qed.

Lemma wp_csvWrite_kind (record : list CsvField) (n : nat) :
  wp kind_world calm (λ e, e = None) (csvWrite n record).
Proof.
  revert n; induction record as [|field rest IH]; intros n.
  - simpl. by intros e ->.
  - cbn [csvWrite]. destruct (0 <? n)%nat; cbn [csvPut bind wp].
    + intros e ->. split; [done |]. cbn [bind wp].
      intros e ->. split; [done |]. apply IH.
    + intros e ->. split; [done |]. apply IH.
Qed.

Lemma wp_persistLoop_kind (work : DnsWorkItem.t) (delays : list Duration) :
  wp kind_world calm (λ _, True) (persistLoop work delays).
Proof.
  induction delays as [|delay rest IH]; [done |].
  cbn [persistLoop now bind wp]. intros c. split; [done |].
  apply wp_bind. unfold writeResultToCsv. apply wp_bind.
  eapply wp_mono; [|apply wp_csvWrite_kind].
  intros e ->. cbn [wp]. exact IH.
Qed.

Lemma wp_workerBody_kind (work : DnsWorkItem.t) :
  1 ≤ TestCount cfg → 8 * TestCount cfg ≤ maxAlloc →
  wp kind_world calm (λ _, True) (workerBody cfg work).
Proof.
  intros H1 Hmax. unfold workerBody. apply wp_bind.
  unfold StartAndRecordLatencies.
  replace (TestCount cfg <? 0) with false by lia.
  replace (maxAlloc <? 8 * TestCount cfg) with false by lia.
  cbn [orb]. apply wp_bind.
  eapply wp_mono; [|apply wp_sampleLoop_kind].
  intros delays Hlen. simpl in Hlen. unfold calculateAverageDelay.
  destruct (Z.eqb_spec (Z.of_nat (length delays)) 0) as [H0|_]; [lia |].
  cbn [bind wp printf calm]. split; [done |].
  destruct (SaveCsv cfg); [apply wp_persistLoop_kind | done].
Qed.

Lemma wp_NewDnsTestContext_kind :
  wp kind_world calm (λ res, ∀ err, res = Some err → calm (fatal_line err))
    (NewDnsTestContext cfg).
Proof.
  unfold NewDnsTestContext. apply wp_bind.
  assert (wp kind_world calm
            (λ res, ∀ err, res = Some err → calm (fatal_line err))
            (if LogToFile cfg then setupLogging "dns_test.log" else Ret None))
    as Hrest.
  { destruct (LogToFile cfg); [|done].
    unfold setupLogging, file. cbn [bind wp]. intros e ->. split; done. }
  destruct (SaveCsv cfg); [|exact Hrest].
  cbn [now bind wp]. intros c. split; [done |].
  unfold initCSV, file. cbn [bind wp]. intros e ->. split; [done |].
  cbn [bind wp]. intros e ->. split; [done |].
  apply wp_bind. eapply wp_mono; [|apply wp_csvWrite_kind].
  intros res ->. cbn [bind wp]. intros e ->. split; [done |]. exact Hrest.
Qed.

Lemma calm_closed : 0 ≤ Concurrency cfg → machine_closed cfg calm.
Proof. intros HK. constructor; simpl; auto. lia. Qed.

End Kind.

Lemma calm_reachable (env : Env) (cfg : Config) (s : State) :
  lives_in env kind_world →
  1 ≤ TestCount cfg → 8 * TestCount cfg ≤ maxAlloc → 0 ≤ Concurrency cfg →
  reachable env cfg s → events_inv cfg kind_world calm s.
Proof.
  intros Hlive H1 Hmax HK Hs.
  apply (events_reachable env cfg kind_world calm); auto.
  - by apply calm_closed.
  - intros work _. by apply wp_workerBody_kind.
  - apply wp_NewDnsTestContext_kind.
Qed.

Lemma calm_In (t : Trace) (e : Event) : Forall calm t → In e t → calm e.
Proof.
  intros Hall Hin. rewrite Forall_forall in Hall. by apply Hall, list_elem_of_In.
Qed.

Lemma steady_kind (latency : Duration) :
  lives_in (Examples.steady latency) kind_world.
Proof. repeat split. intros n domain dnsServer. by exists latency. Qed.

(** When every lookup is answered and no operation on a file or on the CSV
    writer fails, with a [test_count] of at least one that can be allocated
    for, a [concurrency] that is not negative and within the range of the
    counter of the wait group, a matrix the channel can be made for, and
    no two workers writing to the CSV writer at once, no run goes wrong,
    whatever the scheduler does: no goroutine panics, the process does not
    end in [log.Fatalf], and no line reports an error. *)
Theorem kind_world_no_crash (env : Env) (cfg : Config) (s : State) :
  lives_in env kind_world →
  1 ≤ TestCount cfg → 8 * TestCount cfg ≤ maxAlloc → 0 ≤ Concurrency cfg →
  chan_fits cfg → pool_fits cfg → one_writer cfg →
  reachable env cfg s →
  no_crash (trace s) ∧ (∀ r, no_panic r (trace s)) ∧ dying s = None ∧
  (∀ domain dnsServer i err,
     ¬ In (EvLog (LogQueryError domain dnsServer i err)) (trace s)) ∧
  (∀ err, ¬ In (EvLog (LogCsvError err)) (trace s)).
Proof.
  intros Hlive H1 Hmax HK _ _ _ Hs.
  destruct (calm_reachable env cfg s Hlive H1 Hmax HK Hs) as [Ht _ _ Hd _ _].
  split; [split |]; [| |split; [|split; [|split]]].
  - intros msg Hin. apply (calm_In _ _ Ht Hin).
  - intros err Hin. apply (calm_In _ _ Ht Hin).
  - intros r w msg Hin. apply (calm_In _ _ Ht Hin).
  - destruct (dying s) as [msg|] eqn:E; [|done]. destruct (Hd msg eq_refl).
  - intros domain dnsServer i err Hin. apply (calm_In _ _ Ht Hin).
  - intros err Hin. apply (calm_In _ _ Ht Hin).
Qed.

Lemma kind_world_no_crash_witness :
  let s := Fixtures.after (Examples.steady 5) Examples.cfg_one Examples.sched_one in
  halted s = true ∧ length (trace s) = 7%nat ∧
  no_crash (trace s) ∧ (∀ r, no_panic r (trace s)) ∧ dying s = None.
Proof.
  intros s. split; [vm_compute; reflexivity |]. split; [vm_compute; reflexivity |].
  destruct (kind_world_no_crash (Examples.steady 5) Examples.cfg_one s)
    as (Hc & Hp & Hd & _).
  - apply steady_kind.
  - simpl. lia.
  - vm_compute. discriminate.
  - simpl. lia.
  - vm_compute. discriminate.
  - unfold pool_fits. simpl. lia.
  - by left.
  - apply after_reachable.
  - auto.
Defined.

(** In such a world and under the same bounds, with at least one worker,
    a process that has ended has gone through every round: each round
    from 1 to [test_rounds] has printed its completion line, and in each
    of them every item of the matrix was taken from the queue, once and
    in order. *)
Theorem kind_world_measures_all (env : Env) (cfg : Config) (s : State) (r : Z) :
  lives_in env kind_world →
  1 ≤ TestCount cfg → 8 * TestCount cfg ≤ maxAlloc → 1 ≤ Concurrency cfg →
  chan_fits cfg → pool_fits cfg → one_writer cfg →
  reachable env cfg s → halted s = true → 1 ≤ r ≤ TestRounds cfg →
  In (EvLog (LogRoundDone r)) (trace s) ∧
  map snd (dequeued r (trace s)) = workItems cfg.
Proof.
  intros Hlive H1 Hmax HK _ _ _ Hs Hh Hr.
  destruct (calm_reachable env cfg s Hlive H1 Hmax ltac:(lia) Hs)
    as [Ht _ _ _ _ _].
  pose proof (Inv_reachable env cfg s Hs) as HI.
  assert (In (EvLog (LogRoundDone r)) (trace s)) as Hdone.
  { destruct (inv_halt _ _ HI Hh) as [Hpc|[[msg Hin]|[err Hin]]].
    - apply (inv_rounds _ _ HI). destruct (inv_exit _ _ HI Hpc). lia.
    - destruct (calm_In _ _ Ht Hin).
    - destruct (calm_In _ _ Ht Hin). }
  split; [done |].
  apply (inv_complete _ _ HI r Hdone HK).
  intros w msg Hin. apply (calm_In _ _ Ht Hin).
Qed.

Lemma kind_world_measures_all_witness :
  let s := Fixtures.after (Examples.steady 5) Examples.cfg_one Examples.sched_one in
  In (EvLog (LogRoundDone 1)) (trace s) ∧
  map snd (dequeued 1 (trace s)) = [Fixtures.a_com].
Proof.
  intros s.
  apply (kind_world_measures_all (Examples.steady 5) Examples.cfg_one s 1).
  - apply steady_kind.
  - simpl. lia.
  - vm_compute. discriminate.
  - simpl. lia.
  - vm_compute. discriminate.
  - unfold pool_fits. simpl. lia.
  - by left.
  - apply after_reachable.
  - vm_compute. reflexivity.
  - simpl. lia.
Defined.

(** ** The channel and the wait group *)

(** When [main] is about to send an item the channel has room for it:
    the capacity of the channel is the number of items, so no send ever
    blocks, whatever the workers do. *)
Theorem sends_never_block (env : Env) (cfg : Config) (s : State)
    (work : DnsWorkItem.t) (pending : list DnsWorkItem.t) :
  reachable env cfg s → halted s = false → pc s = MSend (work :: pending) →
  (length (queue s) < channel_capacity cfg)%nat ∧
  exec_step env cfg TMain s =
    Some (set_pc (set_queue s (queue s ++ [work])) (MSend pending)).
Proof.
  intros Hs Hh Hpc. pose proof (inv_phase _ _ (Inv_reachable env cfg s Hs)) as Hp.
  unfold phase_inv in Hp. rewrite Hpc in Hp.
  destruct Hp as (_ & _ & _ & _ & _ & Heq & _).
  apply (f_equal length) in Heq.
  rewrite !length_app, workItems_capacity in Heq. simpl in Heq.
  assert (length (queue s) < channel_capacity cfg)%nat as Hlt by lia.
  split; [done |]. unfold exec_step, main_step. rewrite Hh, Hpc.
  by replace (length (queue s) <? channel_capacity cfg)%nat with true
    by (symmetry; apply Nat.ltb_lt; lia).
Qed.

Lemma sends_never_block_witness :
  let s := Fixtures.after Fixtures.env_two Fixtures.cfg_fail (replicate 6 TMain) in
  pc s = MSend [Fixtures.b_com] ∧ queue s = [Fixtures.a_com] ∧
  (length (queue s) < channel_capacity Fixtures.cfg_fail)%nat.
Proof.
  intros s. split; [vm_compute; reflexivity |]. split; [vm_compute; reflexivity |].
  apply (sends_never_block Fixtures.env_two Fixtures.cfg_fail s Fixtures.b_com []).
  - apply after_reachable.
  - vm_compute. reflexivity.
  - vm_compute. reflexivity.
Defined.

Section WaitGroup.
Context (env : Env) (cfg : Config).

Lemma idle_step (s s' : State) :
  Inv cfg s → idle cfg s → transition env cfg s s' → idle cfg s'.
Proof.
  intros HI [Hlen Hi] Hs. pose proof (inv_phase _ _ HI) as Hp.
  assert (∀ w ws, workers s !! w = Some ws → ws ≠ WExit →
          match pc s with MSpawn _ | MSend _ | MWait => True | _ => False end)
    as Hlive.
  { intros w ws Hw Hne. unfold phase_inv in Hp.
    destruct (pc s); try done;
      try (by destruct Hp as [Hall _]; destruct Hne;
           eapply Forall_eq_lookup in Hall; [|exact Hw]). }
  unfold idle in *.
  destruct Hs as [Hpc Hr|Hpc Hr|p e p' Hpc Hact|Hpc|err Hpc|msg Hpc|Hpc HK
                 |Hpc HK|i Hpc Hi'|i Hpc Hi'|work pending Hpc Hcap|Hpc|Hpc Hwg
                 |Hpc|Hpc|w work rest Hw Hq|w Hw Hq Hcl|w msg Hw|w a Hw
                 |w p e p' Hw Hact|msg Hdy];
    simpl; rewrite ?length_insert; try rewrite Hpc in *; auto;
    try (by split; [done |]; (eapply Hlive in Hw; [|done]); destruct (pc s)).
  - split; [lia | done].
  - split; [|done]. unfold phase_inv in Hp. rewrite Hpc in Hp.
    destruct Hp as (? & Hl & _). rewrite length_app, Hl. simpl.
    unfold pool. lia.
  - destruct (SaveCsv cfg); simpl; done.
Qed.

Lemma idle_reachable (s : State) : reachable env cfg s → idle cfg s.
Proof.
  induction 1 as [|s tid s' Hs IH Hstep].
  - split; simpl; [lia | done].
  - eapply idle_step; [exact (Inv_reachable env cfg s Hs) | exact IH |].
    by eapply exec_step_transition.
Qed.

End WaitGroup.

(** With a [concurrency] that is not negative and within the range of the
    counter of the wait group, the counter never goes below zero, so
    [wg.Done] never panics; it is never above [concurrency]; and from the
    moment the workers are started until [wg.Wait] returns it is the
    number of workers of the round whose function has not ended, so that
    [wg.Wait] returns exactly when all of them have. There are never more
    than [concurrency] workers. *)
Theorem wait_group_counts (env : Env) (cfg : Config) (s : State) :
  0 ≤ Concurrency cfg < 2 ^ 31 →
  reachable env cfg s →
  0 ≤ wg s ≤ Concurrency cfg ∧
  (length (workers s) ≤ pool cfg)%nat ∧
  ((∃ pending, pc s = MSend pending) ∨ pc s = MWait →
   wg s = Z.of_nat (length (workers s) - exited (workers s))).
Proof.
  intros HK Hs. pose proof (Inv_reachable env cfg s Hs) as HI.
  pose proof (inv_phase _ _ HI) as Hp.
  destruct (idle_reachable env cfg s Hs) as [Hlen Hi].
  pose proof (exited_le (workers s)) as Hle.
  unfold phase_inv in Hp. unfold pool in *.
  destruct (pc s) as [|p| |i|pending| | | |] eqn:Hpc.
  all: try (destruct Hp as (? & ? & ? & ? & ? & ? & ?)).
  all: split; [lia |]; split; [lia |].
  all: intros [[pending' Heq]|Heq]; try done; lia.
Qed.

Lemma wait_group_counts_witness :
  let s := Fixtures.after Fixtures.env_two Fixtures.cfg_two
             (replicate 21 TMain ++ replicate 7 (TWorker 0)) in
  pc s = MWait ∧ wg s = 2 ∧ exited (workers s) = 0%nat ∧
  0 ≤ wg s ≤ Concurrency Fixtures.cfg_two ∧
  (length (workers s) ≤ pool Fixtures.cfg_two)%nat.
Proof.
  intros s. split; [vm_compute; reflexivity |]. split; [vm_compute; reflexivity |].
  split; [vm_compute; reflexivity |].
  destruct (wait_group_counts Fixtures.env_two Fixtures.cfg_two s
              ltac:(simpl; lia) (after_reachable _ _ _)) as (Hwg & Hlen & _).
  auto.
Defined.

(** ** The rounds *)

Lemma done_rounds_app (t1 t2 : Trace) :
  done_rounds (t1 ++ t2) = done_rounds t1 ++ done_rounds t2.
Proof.
  induction t1 as [|e t1 IH]; simpl; [done |].
  destruct e as [|[]| | | | | | |]; simpl; by rewrite ?IH.
Qed.

Lemma done_rounds_plain (t : Trace) (e : Event) :
  plain e = true → done_rounds (t ++ [e]) = done_rounds t.
Proof.
  intros He. rewrite done_rounds_app.
  destruct e as [|[]| | | | | | |]; simpl in *; try done; by rewrite app_nil_r.
Qed.

Section Rounds.
Context (env : Env) (cfg : Config).

Lemma rounds_step (s s' : State) :
  Inv cfg s → rounds_inv cfg s → transition env cfg s s' → rounds_inv cfg s'.
Proof.
  intros HI (Hr & Hpc' & Hd) Hs. unfold rounds_inv in *.
  destruct Hs as [Hpc Hr'|Hpc Hr'|p e p' Hpc Hact|Hpc|err Hpc|msg Hpc|Hpc HK
                 |Hpc HK|i Hpc Hi'|i Hpc Hi'|work pending Hpc Hcap|Hpc|Hpc Hwg
                 |Hpc|Hpc|w work rest Hw Hq|w Hw Hq Hcl|w msg Hw|w a Hw
                 |w p e p' Hw Hact|msg Hdy];
    simpl; try rewrite Hpc in *;
    rewrite ?done_rounds_plain by done; auto.
  - rewrite done_rounds_plain by (by eapply (ctx_event_plain env cfg s)). auto.
  - split; [done |]. split; [done |].
    rewrite done_rounds_app, Hd. simpl.
    replace (Z.to_nat (round s)) with (S (Z.to_nat (round s - 1))) by lia.
    rewrite seq_S, map_app. simpl. do 2 f_equal. lia.
  - split; [lia |]. split; [done |].
    replace (round s + 1 - 1) with (round s) by lia.
    destruct (SaveCsv cfg); simpl; [|done].
    by rewrite done_rounds_plain.
  - split; [done |]. split; [done |].
    assert (done_rounds (trace s ++ [EvDequeue (round s) w work]) =
            done_rounds (trace s)) as ->; [|done].
    rewrite done_rounds_app. simpl. by rewrite app_nil_r.
  - split; [done |]. split; [done |].
    assert (done_rounds (trace s ++ [EvReturn (round s) w None]) =
            done_rounds (trace s)) as ->; [|done].
    rewrite done_rounds_app. simpl. by rewrite app_nil_r.
  - split; [done |]. split; [done |].
    assert (done_rounds (trace s ++ [EvReturn (round s) w (Some msg)]) =
            done_rounds (trace s)) as ->; [|done].
    rewrite done_rounds_app. simpl. by rewrite app_nil_r.
  - rewrite done_rounds_plain by (by eapply (work_event_plain env cfg s)). auto.
Qed.

Lemma rounds_reachable (s : State) : reachable env cfg s → rounds_inv cfg s.
Proof.
  induction 1 as [|s tid s' Hs IH Hstep].
  - unfold rounds_inv. simpl. split; [lia | done].
  - eapply rounds_step; [exact (Inv_reachable env cfg s Hs) | exact IH |].
    by eapply exec_step_transition.
Qed.

End Rounds.

(** The completion lines of a run are those of the rounds 1, 2, 3, ... in
    this order, each once, and never more than [test_rounds] of them; a
    process that has ended without a panic and without [log.Fatalf] has
    printed all of them. *)
Theorem completion_lines_in_order (env : Env) (cfg : Config) (s : State) :
  rounds_fit cfg → reachable env cfg s →
  ∃ k : nat,
    done_rounds (trace s) = map Z.of_nat (seq 1 k) ∧
    (k ≤ Z.to_nat (TestRounds cfg))%nat ∧
    (halted s = true → no_crash (trace s) → k = Z.to_nat (TestRounds cfg)).
Proof.
  intros _ Hs. destruct (rounds_reachable env cfg s Hs) as (Hr & Hpc & Hd).
  pose proof (Inv_reachable env cfg s Hs) as HI.
  eexists. split; [exact Hd |]. split.
  - destruct (pc s); lia.
  - intros Hh [Hpanic Hfatal].
    destruct (inv_halt _ _ HI Hh) as [Hexit|[[msg Hin]|[err Hin]]].
    + rewrite Hexit in *. lia.
    + by destruct (Hpanic msg).
    + by destruct (Hfatal err).
Qed.

Lemma completion_lines_in_order_witness :
  let s := Fixtures.after Fixtures.env_two Fixtures.cfg_rounds
             Fixtures.sched_rounds in
  done_rounds (trace s) = [1; 2] ∧
  ∃ k : nat,
    done_rounds (trace s) = map Z.of_nat (seq 1 k) ∧
    (k ≤ Z.to_nat (TestRounds Fixtures.cfg_rounds))%nat.
Proof.
  intros s. split; [vm_compute; reflexivity |].
  destruct (completion_lines_in_order Fixtures.env_two Fixtures.cfg_rounds s)
    as (k & Hk & Hle & _); [vm_compute; reflexivity | apply after_reachable |].
  exists k. split; [exact Hk | exact Hle].
Defined.

(** With [test_rounds] of zero or less the loop of [main] is not entered:
    the process ends at once and has done nothing, no file made, no worker
    started, no lookup. *)
Theorem no_rounds_nothing_done (env : Env) (cfg : Config) (s : State) :
  TestRounds cfg ≤ 0 → reachable env cfg s →
  trace s = [] ∧ workers s = [] ∧
  (s = init ∨ s = halt (set_pc init MExit)) ∧
  exec_step env cfg TMain init = Some (halt (set_pc init MExit)).
Proof.
  intros Hr Hs.
  assert (exec_step env cfg TMain init = Some (halt (set_pc init MExit))) as Hmain.
  { unfold exec_step, main_step. cbn [halted pc round init].
    by replace (1 <=? TestRounds cfg) with false by lia. }
  assert (s = init ∨ s = halt (set_pc init MExit)) as Hcase.
  { induction Hs as [|s tid s' _ IH Hstep]; [by left |].
    right. destruct IH as [-> | ->].
    - destruct tid as [|w|].
      + rewrite Hmain in Hstep. by injection Hstep.
      + unfold exec_step in Hstep. cbn [halted workers init] in Hstep.
        rewrite lookup_nil in Hstep. discriminate Hstep.
      + unfold exec_step in Hstep. cbn [halted dying init] in Hstep.
        discriminate Hstep.
    - unfold exec_step in Hstep. cbn [halted halt] in Hstep.
      discriminate Hstep. }
  split; [|split; [|split; [exact Hcase | exact Hmain]]];
    destruct Hcase as [-> | ->]; reflexivity.
Qed.

Lemma no_rounds_nothing_done_witness :
  let cfg := Fixtures.config ["a.com"] 1 1 true 0 in
  let s := Fixtures.after Fixtures.env_two cfg [TMain] in
  halted s = true ∧ trace s = [] ∧ workers s = [].
Proof.
  intros cfg s. split; [vm_compute; reflexivity |].
  destruct (no_rounds_nothing_done Fixtures.env_two cfg s) as (Ht & Hw & _).
  - simpl. lia.
  - apply after_reachable.
  - auto.
Defined.

(** ** The number of lookups *)

Lemma looks_bind {A B} (m : Prog A) (f : A → Prog B) (n : nat) :
  looks n m → (∀ a, returns m a → looks 0 (f a)) → looks n (bind m f).
Proof.
  revert n.
  induction m as [a|msg|d s k IH|l k IH|d k IH|k IH|tok k IH|op k IH];
    intros n Hn Hf; simpl in *; eauto.
  - subst n. by apply Hf.
  - destruct n as [|n]; [done |]. intros r. apply IH; eauto.
Qed.

Lemma looks_act {A} (env : Env) (t : Trace) (p p' : Prog A) (n : nat) (e : Event) :
  looks n p → act env t p = Some (e, p') →
  ∃ n', looks n' p' ∧ (n = (if is_lookup e then 1 else 0) + n')%nat.
Proof.
  destruct p as [a|msg|d s k|l k|d k|k|tok k|op k]; simpl; try done;
    intros Hn [= <- <-]; simpl; eauto.
  destruct n as [|n]; [done |]. eauto.
Qed.

Lemma looks_sampleLoop (domain dnsServer : string) (interval : Duration)
    (n : nat) (i : Z) (delays : list Duration) :
  looks n (sampleLoop domain dnsServer interval n i delays).
Proof.
  revert i delays; induction n as [|n IH]; intros i delays; [done |].
  cbn [sampleLoop lookup bind looks]. intros [latency|err];
    cbn [printf sleep bind looks]; apply IH.
Qed.

Lemma looks_csvWrite (record : list CsvField) (n : nat) :
  looks 0 (csvWrite n record).
Proof.
  revert n; induction record as [|field rest IH]; intros n; [done |].
  cbn [csvWrite]. destruct (0 <? n)%nat; cbn [csvPut bind looks].
  - intros [err|]; [done |]. cbn [bind looks]. intros [err|]; [done | apply IH].
  - intros [err|]; [done | apply IH].
Qed.

Lemma looks_persistLoop (work : DnsWorkItem.t) (delays : list Duration) :
  looks 0 (persistLoop work delays).
Proof.
  induction delays as [|delay rest IH]; [done |].
  cbn [persistLoop now bind looks]. intros c.
  apply looks_bind.
  - unfold writeResultToCsv. apply looks_bind; [apply looks_csvWrite |].
    by intros [err|] _.
  - intros [err|] _; cbn [printf bind looks]; exact IH.
Qed.

Lemma looks_workerBody (cfg : Config) (work : DnsWorkItem.t) :
  looks (samples cfg) (workerBody cfg work).
Proof.
  unfold samples, workerBody, StartAndRecordLatencies.
  destruct ((TestCount cfg <? 0) || (maxAlloc <? 8 * TestCount cfg)); [done |].
  apply looks_bind.
  - apply looks_bind; [apply looks_sampleLoop |].
    intros delays _. unfold calculateAverageDelay. by destruct (_ =? 0).
  - intros [[avgDelay delays] err] Hret.
    apply returns_bind in Hret as (ds & _ & Hret).
    apply returns_bind in Hret as (avg & _ & Hret). simpl in Hret.
    injection Hret as _ _ <-. cbn [printf bind looks].
    destruct (SaveCsv cfg); [apply looks_persistLoop | done].
Qed.

Lemma looks_NewDnsTestContext (cfg : Config) : looks 0 (NewDnsTestContext cfg).
Proof.
  unfold NewDnsTestContext. apply looks_bind.
  - destruct (SaveCsv cfg); [|done]. cbn [now bind looks]. intros c.
    unfold initCSV, file. cbn [bind looks]. intros [err|]; [done |].
    cbn [bind looks]. intros [err|]; [done |].
    apply looks_bind; [apply looks_csvWrite |].
    intros res _. cbn [bind looks]. intros e. by destruct res.
  - intros [err|] _; [done |]. destruct (LogToFile cfg); [|done].
    unfold setupLogging, file. cbn [bind looks]. by intros [err|].
Qed.

Lemma takes_app (t1 t2 : Trace) : takes (t1 ++ t2) = (takes t1 + takes t2)%nat.
Proof.
  induction t1 as [|e t1 IH]; simpl; [done |]. destruct e; simpl; lia.
Qed.

Lemma takes_before_app (r : Z) (t1 t2 : Trace) :
  takes_before r (t1 ++ t2) = (takes_before r t1 + takes_before r t2)%nat.
Proof.
  induction t1 as [|e t1 IH]; simpl; [done |]. destruct e; simpl; lia.
Qed.

(** The takes of a trace whose rounds go up to [r]. *)
Lemma takes_split (r : Z) (t : Trace) :
  (∀ r' w work, In (EvDequeue r' w work) t → r' ≤ r) →
  takes t = (takes_before r t + length (dequeued r t))%nat ∧
  takes_before (r + 1) t = takes t.
Proof.
  induction t as [|e t IH]; intros Hle; [done |].
  destruct IH as [IH1 IH2]; [intros r' w work Hin; apply (Hle r' w work); by right |].
  destruct e as [| | | | | | |r' w work|]; simpl; auto.
  assert (r' ≤ r) as Hr by (apply (Hle r' w work); by left).
  destruct (Z.ltb_spec r' r), (Z.eqb_spec r' r), (Z.ltb_spec r' (r + 1));
    simpl; lia.
Qed.

Lemma no_wlooks (ns : list nat) (ws : list WState) :
  Forall2 wlooks ns ws → Forall (eq WExit) ws → sum_list ns = 0%nat.
Proof.
  induction 1 as [|n ws0 ns ws Hn _ IH]; [done |].
  intros Hall. inversion Hall as [|? ? <- Hall']; subst. simpl in *.
  rewrite IH by done. lia.
Qed.

Section Counting.
Context (env : Env) (cfg : Config).

(** Worker [w] goes from [old] to [new] and owes [n'] lookups where it
    owed [n]. *)
Lemma wlooks_update (ns : list nat) (ws : list WState) (w : nat)
    (old new : WState) (n' : nat) :
  Forall2 wlooks ns ws → ws !! w = Some old → wlooks n' new →
  ∃ n ns', wlooks n old ∧ Forall2 wlooks ns' (<[w:=new]> ws) ∧
    (sum_list ns' + n = sum_list ns + n')%nat.
Proof.
  intros Hall Hw Hnew.
  destruct (Forall2_lookup_r _ _ _ _ _ Hall Hw) as (n & Hn & Hold).
  exists n, (<[w:=n']> ns). split; [done |]. split.
  - by apply Forall2_insert.
  - by apply sum_list_insert.
Qed.

Lemma lookups_snoc (t : Trace) (e : Event) :
  lookups (t ++ [e]) = (lookups t + (if is_lookup e then 1 else 0))%nat.
Proof. rewrite lookups_app. simpl. lia. Qed.

Lemma takes_snoc (t : Trace) (e : Event) :
  takes (t ++ [e]) =
  (takes t + match e with EvDequeue _ _ _ => 1 | _ => 0 end)%nat.
Proof. rewrite takes_app. destruct e; simpl; lia. Qed.

Lemma lookups_step (s s' : State) :
  Inv cfg s → lookups_inv cfg s → transition env cfg s s' → lookups_inv cfg s'.
Proof.
  intros HI [Hc (ns & Hall & Heq)] Hs. pose proof (inv_phase _ _ HI) as Hp.
  destruct Hs as [Hpc Hr'|Hpc Hr'|p e p' Hpc Hact|Hpc|err Hpc|msg Hpc|Hpc HK
                 |Hpc HK|i Hpc Hi'|i Hpc Hi'|work pending Hpc Hcap|Hpc|Hpc Hwg
                 |Hpc|Hpc|w work rest Hw Hq|w Hw Hq Hcl|w msg Hw|w a Hw
                 |w p e p' Hw Hact|msg Hdy].
  - constructor; simpl; [|by exists ns].
    intros p [= <-]. apply looks_NewDnsTestContext.
  - constructor; simpl; [done | by exists ns].
  - destruct (looks_act _ _ _ _ _ _ (Hc _ Hpc) Hact) as (n' & Hn' & Hn).
    destruct (is_lookup e) eqn:He; [lia |]. simpl in Hn. subst n'.
    constructor; simpl; [by intros p0 [= <-] |].
    exists ns. split; [done |]. rewrite lookups_snoc, takes_snoc, He.
    pose proof (ctx_event_plain env cfg s p e p' HI Hpc Hact) as Hpl.
    destruct e; simpl in *; try done; lia.
  - constructor; simpl; [done | by exists ns].
  - constructor; simpl; [auto |].
    exists ns. split; [done |]. rewrite lookups_snoc, takes_snoc. simpl. lia.
  - constructor; simpl; [auto |].
    exists ns. split; [done |]. rewrite lookups_snoc, takes_snoc. simpl. lia.
  - constructor; simpl; [by rewrite Hpc |].
    exists ns. split; [done |]. rewrite lookups_snoc, takes_snoc. simpl. lia.
  - constructor; simpl; [done |].
    exists []. split; [constructor |].
    unfold phase_inv in Hp. rewrite Hpc in Hp. destruct Hp as [Hex _].
    rewrite (no_wlooks _ _ Hall Hex) in Heq. simpl. lia.
  - constructor; simpl; [done |].
    exists (ns ++ [0%nat]). split.
    + apply Forall2_app; [done |]. by repeat constructor.
    + rewrite sum_list_snoc. lia.
  - constructor; simpl; [done | by exists ns].
  - constructor; simpl; [done | by exists ns].
  - constructor; simpl; [done | by exists ns].
  - constructor; simpl; [done | by exists ns].
  - constructor; simpl; [done |].
    exists ns. split; [done |]. rewrite lookups_snoc, takes_snoc. simpl. lia.
  - constructor; [simpl; done |].
    exists ns. destruct (SaveCsv cfg); simpl; (split; [done |]); [|done].
    rewrite lookups_snoc, takes_snoc. simpl. lia.
  - destruct (wlooks_update ns (workers s) w WRecv
                (WBusy (workerBody cfg work)) (samples cfg) Hall Hw)
      as (n & ns' & Hn & Hall' & Hsum); [apply looks_workerBody |].
    simpl in Hn. subst n.
    constructor; simpl; [auto |].
    exists ns'. split; [done |]. rewrite lookups_snoc, takes_snoc. simpl. lia.
  - destruct (wlooks_update ns (workers s) w WRecv WExit 0%nat Hall Hw)
      as (n & ns' & Hn & Hall' & Hsum); [done |].
    simpl in Hn. subst n.
    constructor; simpl; [auto |].
    exists ns'. split; [done |]. rewrite lookups_snoc, takes_snoc. simpl. lia.
  - destruct (wlooks_update ns (workers s) w (WBusy (Panic msg)) WExit 0%nat
                Hall Hw) as (n & ns' & Hn & Hall' & Hsum); [done |].
    simpl in Hn. subst n.
    constructor; simpl; [auto |].
    exists ns'. split; [done |]. rewrite lookups_snoc, takes_snoc. simpl. lia.
  - destruct (wlooks_update ns (workers s) w (WBusy (Ret a)) WRecv 0%nat
                Hall Hw) as (n & ns' & Hn & Hall' & Hsum); [done |].
    simpl in Hn. subst n.
    constructor; simpl; [auto |]. exists ns'. split; [done | lia].
  - destruct (Forall2_lookup_r _ _ _ _ _ Hall Hw) as (n & Hnw & Hn).
    simpl in Hn.
    destruct (looks_act _ _ _ _ _ _ Hn Hact) as (n' & Hn' & Hnn).
    destruct (wlooks_update ns (workers s) w (WBusy p) (WBusy p') n' Hall Hw)
      as (n0 & ns' & _ & Hall' & Hsum); [done |].
    pose proof (sum_list_insert ns w n n' Hnw) as Hsum'.
    constructor; simpl; [auto |].
    exists (<[w:=n']> ns). split; [by apply Forall2_insert |].
    rewrite lookups_snoc, takes_snoc.
    pose proof (work_event_plain env cfg s w p e p' HI Hw Hact) as Hpl.
    destruct e; simpl in *; try done; lia.
  - constructor; simpl; [auto |].
    exists ns. split; [done |]. rewrite lookups_snoc, takes_snoc. simpl. lia.
Qed.

Lemma lookups_reachable (s : State) : reachable env cfg s → lookups_inv cfg s.
Proof.
  induction 1 as [|s tid s' Hs IH Hstep].
  - constructor; simpl; [done |]. exists []. split; [constructor | simpl; lia].
  - eapply lookups_step; [exact (Inv_reachable env cfg s Hs) | exact IH |].
    by eapply exec_step_transition.
Qed.

End Counting.

Lemma takes_none (t : Trace) :
  (∀ r w work, ¬ In (EvDequeue r w work) t) → takes t = 0%nat.
Proof.
  induction t as [|e t IH]; intros Hno; [done |].
  assert (takes t = 0%nat) as Ht.
  { apply IH. intros r w work Hin. apply (Hno r w work). by right. }
  destruct e as [| | | | | | |r w work|]; simpl; auto.
  destruct (Hno r w work). by left.
Qed.

Section Past.
Context (env : Env) (cfg : Config).

Lemma past_step (s s' : State) :
  Inv cfg s → rounds_inv cfg s → past_inv cfg s → step env cfg s s' →
  past_inv cfg s'.
Proof.
  intros HI (Hr & _) [Hle Heq] Hs. pose proof (inv_phase _ _ HI) as Hp.
  assert (∀ e, trace s' = trace s ++ [e] →
          (∀ r, no_panic r (trace s')) → ∀ r, no_panic r (trace s)) as Hno.
  { intros e He Hall r. rewrite He in Hall. by eapply no_panic_snoc. }
  destruct (step_round env cfg s s' Hs) as [[Hround _]|[Hpc Hround]].
  - (* inside a round *)
    unfold past_inv. rewrite Hround.
    destruct (step_trace env cfg s s' HI Hs) as [Ht|(e & Ht & He)].
    + rewrite Ht. done.
    + assert (takes_before (round s) (trace s') = takes_before (round s) (trace s))
        as Hsame.
      { rewrite Ht, takes_before_app.
        destruct He as [He|[(-> & _)|[(w & work & rest & -> & _)
                       |(w & panic & ->)]]]; simpl; try lia.
        - destruct e; simpl in *; try done; lia.
        - destruct (Z.ltb_spec (round s) (round s)); lia. }
      rewrite Hsame. split; [done |]. intros Hall HK. apply Heq; eauto.
  - (* to the next round *)
    unfold phase_inv in Hp. rewrite Hpc in Hp. destruct Hp as [Hex Hdone].
    assert (takes_before (round s + 1) (trace s') = takes (trace s)) as Hnext.
    { destruct (takes_split (round s) (trace s)) as [_ Hsp].
      { intros r' w work Hin. by destruct (inv_dequeue _ _ HI _ _ _ Hin). }
      destruct (step_trace env cfg s s' HI Hs) as [Ht|(e & Ht & He)];
        rewrite Ht; [done |].
      rewrite takes_before_app, Hsp.
      destruct He as [He|[(-> & _)|[(w & work & rest & -> & Hw & _)
                     |(w & panic & ->)]]]; simpl; try lia.
      - destruct e; simpl in *; try done; lia.
      - by eapply Forall_eq_lookup in Hex; [|exact Hw]. }
    destruct (takes_split (round s) (trace s)) as [Hsp _].
    { intros r' w work Hin. by destruct (inv_dequeue _ _ HI _ _ _ Hin). }
    pose proof (prefix_length _ _ (inv_prefix _ _ HI (round s))) as Hpre.
    rewrite length_map in Hpre.
    unfold past_inv. rewrite Hround, Hnext, Hsp.
    replace (Z.to_nat (round s + 1 - 1)) with (S (Z.to_nat (round s - 1))) by lia.
    split; [lia |]. intros Hall HK.
    assert (∀ r, no_panic r (trace s)) as Hall'.
    { destruct (step_trace env cfg s s' HI Hs) as [Ht|(e & Ht & _)];
        [by rewrite <- Ht | by eapply Hno]. }
    rewrite (Heq Hall' HK).
    pose proof (inv_complete _ _ HI (round s) Hdone HK (Hall' (round s))) as Hc.
    apply (f_equal length) in Hc. rewrite length_map in Hc. lia.
Qed.

Lemma past_reachable (s : State) : reachable env cfg s → past_inv cfg s.
Proof.
  induction 1 as [|s tid s' Hs IH Hstep].
  - split; simpl; [lia | done].
  - eapply past_step;
      [exact (Inv_reachable env cfg s Hs) | exact (rounds_reachable env cfg s Hs)
      | exact IH | by eapply exec_step_step].
Qed.

(** The items taken so far, all rounds together. *)
Lemma takes_bound (s : State) :
  reachable env cfg s →
  (takes (trace s) ≤ Z.to_nat (TestRounds cfg) * length (workItems cfg))%nat.
Proof.
  intros Hs. pose proof (Inv_reachable env cfg s Hs) as HI.
  destruct (rounds_reachable env cfg s Hs) as (Hr & Hpc & _).
  destruct (past_reachable s Hs) as [Hle _].
  destruct (takes_split (round s) (trace s)) as [Hsp _].
  { intros r' w work Hin. by destruct (inv_dequeue _ _ HI _ _ _ Hin). }
  pose proof (prefix_length _ _ (inv_prefix _ _ HI (round s))) as Hpre.
  rewrite length_map in Hpre.
  pose proof (inv_phase _ _ HI) as Hp. unfold phase_inv in Hp.
  assert (Z.to_nat (round s - 1) * length (workItems cfg) +
          length (dequeued (round s) (trace s)) ≤
          Z.to_nat (TestRounds cfg) * length (workItems cfg))%nat; [|lia].
  destruct (pc s) eqn:E;
    try (replace (Z.to_nat (TestRounds cfg))
           with (S (Z.to_nat (TestRounds cfg - 1))) by lia;
         assert (Z.to_nat (round s - 1) ≤ Z.to_nat (TestRounds cfg - 1))%nat
           as Hk by lia;
         apply (Nat.mul_le_mono_r _ _ (length (workItems cfg))) in Hk; lia).
  - destruct Hp as [_ Hno]. rewrite (dequeued_none _ _ Hno). simpl.
    rewrite Nat.add_0_r. apply Nat.mul_le_mono_r. lia.
  - destruct Hp as [_ Hno]. rewrite (dequeued_none _ _ Hno). simpl.
    rewrite Nat.add_0_r. apply Nat.mul_le_mono_r. lia.
Qed.

End Past.

(** Whatever the world answers and whatever the scheduler does, a run
    never makes more lookups than [test_rounds] rounds of [test_count]
    samples for each pair of a domain and a server (with a [test_rounds]
    below the largest [int]). *)
Theorem lookups_bounded (env : Env) (cfg : Config) (s : State) :
  rounds_fit cfg → reachable env cfg s →
  (lookups (trace s) ≤
   Z.to_nat (TestRounds cfg) *
   (length (Domains cfg) * length (DNSServers cfg)) *
   Z.to_nat (TestCount cfg))%nat.
Proof.
  intros _ Hs. pose proof (takes_bound env cfg s Hs) as Ht.
  destruct (lookups_reachable env cfg s Hs) as [_ (ns & _ & Heq)].
  rewrite (workItems_capacity cfg) in Ht. unfold channel_capacity in Ht.
  assert (samples cfg ≤ Z.to_nat (TestCount cfg))%nat as Hn.
  { unfold samples. destruct (_ || _); lia. }
  assert (lookups (trace s) ≤ samples cfg * takes (trace s))%nat as Hl by lia.
  etransitivity; [exact Hl |].
  rewrite (Nat.mul_comm _ (Z.to_nat (TestCount cfg))).
  by apply Nat.mul_le_mono.
Qed.

Lemma lookups_bounded_witness :
  let s := Fixtures.after Fixtures.env_two Fixtures.cfg_rounds
             Fixtures.sched_rounds in
  lookups (trace s) = 2%nat ∧
  (lookups (trace s) ≤ 2 * (1 * 1) * 1)%nat.
Proof.
  intros s. split; [vm_compute; reflexivity |].
  apply (lookups_bounded Fixtures.env_two Fixtures.cfg_rounds s);
    [vm_compute; reflexivity | apply after_reachable].
Defined.

(** When [main] has returned from a run in which no worker panicked, with
    at least one worker, a [test_count] that can be allocated for, a
    matrix the channel can be made for and a [test_rounds] below the
    largest [int], the
    number of lookups made is exactly [test_rounds] times the number of
    pairs times [test_count]: every sample of every pair was tried in
    every round, the failed ones included, and none was tried twice. *)
Theorem lookups_exact (env : Env) (cfg : Config) (s : State) :
  reachable env cfg s →
  0 ≤ TestCount cfg → 8 * TestCount cfg ≤ maxAlloc → 1 ≤ Concurrency cfg →
  chan_fits cfg → rounds_fit cfg →
  pc s = MExit → (∀ r, no_panic r (trace s)) →
  lookups (trace s) =
  (Z.to_nat (TestRounds cfg) *
   (length (Domains cfg) * length (DNSServers cfg)) *
   Z.to_nat (TestCount cfg))%nat.
Proof.
  intros Hs H0 Hmax HK _ _ Hpc Hno. pose proof (Inv_reachable env cfg s Hs) as HI.
  destruct (rounds_reachable env cfg s Hs) as (Hr & Hpc' & _).
  destruct (past_reachable env cfg s Hs) as [_ Heq].
  destruct (lookups_reachable env cfg s Hs) as [_ (ns & Hall & Hsum)].
  destruct (takes_split (round s) (trace s)) as [Hsp _].
  { intros r' w work Hin. by destruct (inv_dequeue _ _ HI _ _ _ Hin). }
  pose proof (inv_phase _ _ HI) as Hp. unfold phase_inv in Hp.
  rewrite Hpc in Hp, Hpc'. destruct Hp as [Hex Hnone].
  rewrite (no_wlooks _ _ Hall Hex) in Hsum.
  rewrite (dequeued_none _ _ Hnone) in Hsp. simpl in Hsp.
  rewrite (Heq Hno HK) in Hsp.
  replace (Z.to_nat (round s - 1)) with (Z.to_nat (TestRounds cfg)) in Hsp by lia.
  rewrite (workItems_capacity cfg) in Hsp. unfold channel_capacity in Hsp.
  assert (samples cfg = Z.to_nat (TestCount cfg)) as Hn.
  { unfold samples. replace (TestCount cfg <? 0) with false by lia.
    by replace (maxAlloc <? 8 * TestCount cfg) with false by lia. }
  rewrite Hn, Hsp in Hsum. lia.
Qed.

Lemma lookups_exact_witness :
  let s := Fixtures.after Fixtures.env_two Fixtures.cfg_rounds
             Fixtures.sched_rounds in
  lookups (trace s) = (2 * (1 * 1) * 1)%nat.
Proof.
  intros s.
  apply (lookups_exact Fixtures.env_two Fixtures.cfg_rounds s).
  - apply after_reachable.
  - simpl. lia.
  - vm_compute. discriminate.
  - simpl. lia.
  - vm_compute. discriminate.
  - vm_compute. reflexivity.
  - vm_compute. reflexivity.
  - intros r. apply no_panic_test. vm_compute.
    destruct (1 =? r), (2 =? r); reflexivity.
Defined.

(** ** A pool without workers *)

Section EmptyPool.
Context (env : Env) (cfg : Config).

Lemma stuck_step (s s' : State) :
  Concurrency cfg < 0 → stuck_at_add s → transition env cfg s s' →
  stuck_at_add s'.
Proof.
  intros HK [Hr Hpc] Hs. unfold stuck_at_add in *.
  destruct Hs; simpl; try rewrite H in *; try done; try lia.
Qed.

End EmptyPool.

Lemma stuck_reachable (env : Env) (cfg : Config) (s : State) :
  Concurrency cfg < 0 → reachable env cfg s → stuck_at_add s.
Proof.
  intros HK. induction 1 as [|s tid s' Hs IH Hstep]; [done |].
  eapply stuck_step; [exact HK | exact IH | by eapply exec_step_transition].
Qed.

(** With a [concurrency] of zero or less, within the range of the counter
    of the wait group, no worker is started: no item is ever taken from
    the queue and no lookup is ever made, in any round. With a negative
    [concurrency] no round completes either ([wg.Add] panics in the first
    one); with zero the rounds go by, the items sent and left in the
    channel. *)
Theorem empty_pool_measures_nothing (env : Env) (cfg : Config) (s : State) :
  pool_fits cfg → Concurrency cfg ≤ 0 → reachable env cfg s →
  workers s = [] ∧ takes (trace s) = 0%nat ∧ lookups (trace s) = 0%nat ∧
  (Concurrency cfg < 0 → done_rounds (trace s) = []) ∧
  (Concurrency cfg = 0 → pc s = MLog → queue s = workItems cfg).
Proof.
  intros _ HK Hs. pose proof (Inv_reachable env cfg s Hs) as HI.
  assert (takes (trace s) = 0%nat) as Ht.
  { apply takes_none. intros r w work Hin.
    destruct (inv_dequeue _ _ HI _ _ _ Hin) as [_ Hw]. unfold pool in Hw. lia. }
  destruct (idle_reachable env cfg s Hs) as [Hlen _].
  assert (workers s = []) as Hws.
  { unfold pool in Hlen. destruct (workers s); [done | simpl in Hlen; lia]. }
  split; [done |]. split; [done |]. split; [|split].
  - destruct (lookups_reachable env cfg s Hs) as [_ (ns & _ & Heq)].
    rewrite Ht in Heq. lia.
  - intros Hneg. destruct (stuck_reachable env cfg s Hneg Hs) as [Hr Hpc].
    destruct (rounds_reachable env cfg s Hs) as (_ & _ & Hd).
    rewrite Hd, Hr. by destruct (pc s).
  - intros H0 Hpc.
    assert (∀ s0, reachable env cfg s0 →
            match pc s0 with
            | MWait | MLog => queue s0 = workItems cfg
            | _ => True
            end) as Hq.
    { clear s Hs HI Ht Hlen Hws Hpc.
      induction 1 as [|s tid s' Hs IH Hstep]; [done |].
      pose proof (inv_phase _ _ (Inv_reachable env cfg s Hs)) as Hp.
      pose proof (Inv_reachable env cfg s Hs) as HI.
      destruct (idle_reachable env cfg s Hs) as [Hlen _].
      assert (workers s = []) as Hws.
      { unfold pool in Hlen. destruct (workers s); [done | simpl in Hlen; lia]. }
      apply exec_step_transition in Hstep.
      destruct Hstep as [Hpc Hr'|Hpc Hr'|p e p' Hpc Hact|Hpc|err Hpc|msg Hpc|Hpc HK'
                   |Hpc HK'|i Hpc Hi'|i Hpc Hi'|work pending Hpc Hcap|Hpc|Hpc Hwg
                   |Hpc|Hpc|w work rest Hw Hq|w Hw Hq Hcl|w msg Hw|w a Hw
                   |w p e p' Hw Hact|msg Hdy];
        simpl; try rewrite Hpc in *; auto;
        try (by rewrite Hws, lookup_nil in Hw).
      unfold phase_inv in Hp. rewrite Hpc in Hp.
      destruct Hp as (_ & _ & _ & _ & _ & Heq & _).
      assert (taken s = []) as Htk.
      { unfold taken. rewrite dequeued_none; [done |].
        intros w work Hin. destruct (inv_dequeue _ _ HI _ _ _ Hin) as [_ Hw].
        unfold pool in Hw. lia. }
      by rewrite Htk, app_nil_r in Heq. }
    specialize (Hq s Hs). by rewrite Hpc in Hq.
Qed.

Lemma empty_pool_measures_nothing_witness :
  let cfg := Fixtures.config ["a.com"] 1 0 false 1 in
  let s := Fixtures.after Fixtures.env_two cfg (replicate 10 TMain) in
  halted s = true ∧ done_rounds (trace s) = [1] ∧
  takes (trace s) = 0%nat ∧ lookups (trace s) = 0%nat.
Proof.
  intros cfg s. split; [vm_compute; reflexivity |].
  split; [vm_compute; reflexivity |].
  destruct (empty_pool_measures_nothing Fixtures.env_two cfg s)
    as (_ & Ht & Hl & _).
  - unfold pool_fits. simpl. lia.
  - simpl. lia.
  - apply after_reachable.
  - auto.
Defined.

(** ** The end of a process *)

(** Every run of the process ends, whatever the world answers and
    whatever the scheduler does: with a [test_rounds] below the largest
    [int], no schedule of [main], the workers and the runtime takes more
    steps than [run_bound], a number the configuration fixes. No loop of
    the program goes on for ever. *)
Theorem every_run_ends (env : Env) (cfg : Config) (sched : list Tid) (s : State) :
  rounds_fit cfg → run_schedule env cfg sched init = Some s →
  (length sched ≤ run_bound cfg)%nat ∧
  run_bound cfg =
    (Z.to_nat (TestRounds cfg) *
     (8 + length (Domains cfg) * length (DNSServers cfg) *
          (14 * Z.to_nat (TestCount cfg) + 4) +
      2 * Z.to_nat (Concurrency cfg) + 14) + 1)%nat.
Proof.
  intros _ Hrun. split.
  - eapply run_schedule_fits; [apply fits_init | exact Hrun].
  - unfold run_bound, round_cost, item_cost, body_bound, ctx_bound, pool.
    rewrite (workItems_capacity cfg). unfold channel_capacity. lia.
Qed.

Lemma every_run_ends_witness :
  (length Fixtures.sched_rounds ≤ run_bound Fixtures.cfg_rounds)%nat ∧
  run_bound Fixtures.cfg_rounds = 85%nat.
Proof.
  destruct (every_run_ends Fixtures.env_two Fixtures.cfg_rounds
              Fixtures.sched_rounds
              (Fixtures.after Fixtures.env_two Fixtures.cfg_rounds
                 Fixtures.sched_rounds)) as [Hlen Hb].
  - vm_compute. reflexivity.
  - vm_compute. reflexivity.
  - split; [exact Hlen | vm_compute; reflexivity].
Defined.

(** ** No deadlock *)

Lemma not_all_exited (ws : list WState) :
  (exited ws < length ws)%nat → ∃ w ws0, ws !! w = Some ws0 ∧ ws0 ≠ WExit.
Proof.
  induction ws as [|ws0 ws IH]; simpl; [lia |]. intros Hlt.
  destruct ws0 as [|p|].
  - by exists 0%nat, WRecv.
  - by exists 0%nat, (WBusy p).
  - destruct IH as (w & ws1 & Hw & Hne); [lia |]. by exists (S w), ws1.
Qed.

(** With a [concurrency] in the range of the counter of the wait group, a
    process that has not ended always has a thread that can take a step:
    no send blocks for good and no round stays stuck at its barrier. *)
Theorem no_deadlock (env : Env) (cfg : Config) (s : State) :
  pool_fits cfg → reachable env cfg s → halted s = false →
  ∃ tid s', exec_step env cfg tid s = Some s'.
Proof.
  intros _ Hs Hh. pose proof (Inv_reachable env cfg s Hs) as HI.
  pose proof (inv_phase _ _ HI) as Hp.
  assert (pc s ≠ MExit) as Hpc.
  { intros Hexit. destruct (inv_exit _ _ HI Hexit) as [Hexit' _]. congruence. }
  unfold phase_inv in Hp.
  assert (∀ w p, workers s !! w = Some (WBusy p) →
          ∃ s', exec_step env cfg (TWorker w) s = Some s') as Hbusy.
  { intros w p Hw. unfold exec_step. rewrite Hh, Hw. simpl.
    destruct p; simpl; eauto. }
  destruct (pc s) as [|p| |i|pending| | | |] eqn:Hpc'; try done.
  - exists TMain. unfold exec_step, main_step. rewrite Hh, Hpc'.
    destruct (_ <=? _); eauto.
  - exists TMain. unfold exec_step, main_step. rewrite Hh, Hpc'.
    destruct p as [[e|]| | | | | | |]; simpl; eauto.
  - exists TMain. unfold exec_step, main_step. rewrite Hh, Hpc'.
    destruct (_ <? _); eauto.
  - exists TMain. unfold exec_step, main_step. rewrite Hh, Hpc'.
    destruct (_ <? _); eauto.
  - exists TMain. unfold exec_step, main_step. rewrite Hh, Hpc'.
    destruct pending as [|work pending]; [eauto |].
    destruct Hp as (_ & _ & _ & _ & _ & Heq & _).
    apply (f_equal length) in Heq.
    rewrite !length_app, workItems_capacity in Heq. simpl in Heq.
    replace (length (queue s) <? channel_capacity cfg)%nat with true; [eauto |].
    symmetry. apply Nat.ltb_lt. lia.
  - destruct Hp as (HK & Hlen & Hc & Hwg & _).
    destruct (Z.eqb_spec (wg s) 0) as [H0|Hne].
    + exists TMain. unfold exec_step, main_step. rewrite Hh, Hpc'.
      replace (wg s =? 0) with true by lia. eauto.
    + destruct (not_all_exited (workers s)) as (w & ws0 & Hw & Hws0).
      { pose proof (exited_le (workers s)). unfold pool in Hlen. lia. }
      destruct ws0 as [|p|]; [|by eapply (ex_intro _ (TWorker w)), Hbusy |done].
      exists (TWorker w). unfold exec_step. rewrite Hh, Hw. simpl.
      destruct (queue s); [rewrite Hc |]; eauto.
  - exists TMain. unfold exec_step, main_step. rewrite Hh, Hpc'. eauto.
  - exists TMain. unfold exec_step, main_step. rewrite Hh, Hpc'. eauto.
Qed.

Lemma no_deadlock_witness :
  let s := Fixtures.after Fixtures.env_two Fixtures.cfg_two (replicate 21 TMain) in
  pc s = MWait ∧ wg s = 2 ∧
  ∃ tid s', exec_step Fixtures.env_two Fixtures.cfg_two tid s = Some s'.
Proof.
  intros s. split; [vm_compute; reflexivity |]. split; [vm_compute; reflexivity |].
  apply (no_deadlock Fixtures.env_two Fixtures.cfg_two s).
  - unfold pool_fits. simpl. lia.
  - apply after_reachable.
  - vm_compute. reflexivity.
Defined.

(** While [main] is outside the lines that start the workers, fill the
    queue and wait (at the completion line, at the flush of the CSV
    writer, at the test of its loop, in [NewDnsTestContext], at the [make]
    of the next queue, or past its loop), the function of every worker has
    ended and no worker can take a step: the completion line, the flush
    and the files of the next round never run beside a worker. *)
Theorem workers_done_outside_round (env : Env) (cfg : Config) (s : State) :
  reachable env cfg s →
  (∀ i, pc s ≠ MSpawn i) → (∀ pending, pc s ≠ MSend pending) → pc s ≠ MWait →
  Forall (eq WExit) (workers s) ∧
  ∀ w, exec_step env cfg (TWorker w) s = None.
Proof.
  intros Hs Hsp Hse Hw.
  pose proof (inv_phase _ _ (Inv_reachable env cfg s Hs)) as Hp.
  assert (Forall (eq WExit) (workers s)) as Hall.
  { unfold phase_inv in Hp. destruct (pc s) as [|p| |i|pending| | | |] eqn:Hpc;
      try tauto.
    - by destruct (Hsp i).
    - by destruct (Hse pending). }
  split; [done |]. intros w. unfold exec_step.
  destruct (halted s); [done |].
  destruct (workers s !! w) as [ws|] eqn:Hws; [|done].
  by rewrite (Forall_eq_lookup _ _ _ _ Hall Hws).
Qed.

Lemma workers_done_outside_round_witness :
  let s := Fixtures.after Fixtures.env_two Fixtures.cfg_two
             (removelast Fixtures.sched_two) in
  pc s = MLoop ∧ round s = 2 ∧ length (workers s) = 2%nat ∧
  Forall (eq WExit) (workers s).
Proof.
  intros s. split; [vm_compute; reflexivity |]. split; [vm_compute; reflexivity |].
  split; [vm_compute; reflexivity |].
  assert (pc s = MLoop) as Hpc by (vm_compute; reflexivity).
  apply (workers_done_outside_round Fixtures.env_two Fixtures.cfg_two s).
  - apply after_reachable.
  - intros i. rewrite Hpc. discriminate.
  - intros pending. rewrite Hpc. discriminate.
  - rewrite Hpc. discriminate.
Defined.

Section LastWords.
Context (env : Env) (cfg : Config).

Lemma last_snoc (t : Trace) (e : Event) : last (t ++ [e]) = Some e.
Proof. induction t as [|x [|y t] IH]; simpl in *; auto. Qed.


Lemma last_words_step (s s' : State) :
  Inv cfg s → last_words s → halted s = false → transition env cfg s s' →
  last_words s'.
Proof.
  intros HI Hl Hh Hs.
  assert (∀ e, In e (trace s) → is_crash e = false) as Hold.
  { intros e Hin. destruct (is_crash e) eqn:He; [|done].
    destruct (Hl e Hin He) as [Hh' _]. congruence. }
  assert (∀ s1 e, trace s1 = trace s ++ [e] → is_crash e = false →
          last_words s1) as Hquiet.
  { intros s1 e Ht He x Hin Hx. rewrite Ht in Hin.
    apply In_snoc in Hin as [Hin| ->]; [|congruence].
    rewrite (Hold x Hin) in Hx. discriminate. }
  assert (∀ s1, trace s1 = trace s → last_words s1) as Hsame.
  { intros s1 Ht x Hin Hx. rewrite Ht in Hin.
    rewrite (Hold x Hin) in Hx. discriminate. }
  assert (∀ s1 e, trace s1 = trace s ++ [e] → halted s1 = true →
          (∀ err, e = EvLog (LogFatal err) →
             ∃ cause, pc s1 = MCtx (Ret (Some cause)) ∧
                      EvLog (LogFatal err) = fatal_line cause) →
          last_words s1) as Hend.
  { intros s1 e Ht Hh1 Hf x Hin Hx. rewrite Ht in *.
    apply In_snoc in Hin as [Hin| ->].
    - rewrite (Hold x Hin) in Hx. discriminate.
    - split; [done |]. split; [apply last_snoc | done]. }
  destruct Hs as [Hpc Hr'|Hpc Hr'|p e p' Hpc Hact|Hpc|err Hpc|msg Hpc|Hpc HK
                 |Hpc HK|i Hpc Hi'|i Hpc Hi'|work pending Hpc Hcap|Hpc|Hpc Hwg
                 |Hpc|Hpc|w work rest Hw Hq|w Hw Hq Hcl|w msg Hw|w a Hw
                 |w p e p' Hw Hact|msg Hdy];
    try (by apply Hsame);
    try (by eapply Hquiet; [reflexivity | reflexivity]);
    try (by eapply Hend; [reflexivity | reflexivity | intros ? [=]]).
  - eapply Hquiet; [reflexivity |].
    pose proof (inv_ctx _ _ HI) as Hc. rewrite Hpc in Hc.
    destruct (act_prints env _ _ _ _ _ Hact Hc) as [_ He].
    destruct e as [|[]| | | | | | |]; done.
  - eapply Hend; [reflexivity | reflexivity |].
    intros err' [= <-]. by exists err.
  - destruct (SaveCsv cfg); [|by apply Hsame].
    by eapply Hquiet; [reflexivity | reflexivity].
  - eapply Hquiet; [reflexivity |].
    pose proof (work_event_plain env cfg s w p e p' HI Hw Hact) as Hpl.
    pose proof (inv_quiet _ _ HI) as Hq.
    eapply Forall_lookup_1 in Hq; [|exact Hw]. simpl in Hq.
    destruct (act_prints env _ _ _ _ _ Hact Hq) as [_ He].
    destruct e as [|[]| | | | | | |]; done.
Qed.

Lemma last_words_reachable (s : State) : reachable env cfg s → last_words s.
Proof.
  induction 1 as [|s tid s' Hs IH Hstep]; [by intros e [] |].
  eapply last_words_step;
    [exact (Inv_reachable env cfg s Hs) | exact IH
    | by eapply exec_step_running | by eapply exec_step_transition].
Qed.

End LastWords.

(** [log.Fatalf] is reached only when [NewDnsTestContext] has returned an
    error, and carries that error. It ends the process at once: its line
    is the last event, and in the round in which it happens no worker was
    started, no item was taken from the queue and the completion line is
    not printed; the rounds that remain are not run. *)
Theorem fatal_before_round (env : Env) (cfg : Config) (s : State) (err : error) :
  reachable env cfg s → In (EvLog (LogFatal err)) (trace s) →
  halted s = true ∧ last (trace s) = Some (EvLog (LogFatal err)) ∧
  (∃ cause, pc s = MCtx (Ret (Some cause)) ∧
            err = ("初始化应用程序上下文失败: " ++ cause)%string) ∧
  dequeued (round s) (trace s) = [] ∧
  ¬ In (EvLog (LogRoundDone (round s))) (trace s) ∧
  ∀ tid, exec_step env cfg tid s = None.
Proof.
  intros Hs Hin. pose proof (Inv_reachable env cfg s Hs) as HI.
  destruct (last_words_reachable env cfg s Hs _ Hin eq_refl) as (Hh & Hlast & Hf).
  destruct (Hf err eq_refl) as (cause & Hpc & Heq).
  split; [done |]. split; [done |]. split; [|split; [|split]].
  - exists cause. split; [done |]. unfold fatal_line in Heq. congruence.
  - pose proof (inv_phase _ _ HI) as Hp. unfold phase_inv in Hp.
    rewrite Hpc in Hp. destruct Hp as [_ Hno]. by apply dequeued_none.
  - intros Hdone. destruct (inv_done _ _ HI _ Hdone) as [?|[_ Hpc']]; [lia |].
    congruence.
  - intros tid. unfold exec_step. by rewrite Hh.
Qed.

Lemma fatal_before_round_witness :
  let env := {| resolver := fun _ _ _ => LookupOk 1; clock := fun n => Z.of_nat n;
                csv_error := fun _ => None;
                file_error := fun _ => Some "permission denied"%string |} in
  let cfg := Fixtures.config ["a.com"] 1 1 true 1 in
  let s := Fixtures.after env cfg (replicate 4 TMain) in
  trace s =
    [EvNow 0; EvFile (MkdirAll "dns_test_results") (Some "permission denied"%string);
     EvLog (LogFatal "初始化应用程序上下文失败: 创建目录失败: permission denied")] ∧
  halted s = true ∧ dequeued (round s) (trace s) = [].
Proof.
  intros env cfg s.
  assert (trace s =
    [EvNow 0; EvFile (MkdirAll "dns_test_results") (Some "permission denied"%string);
     EvLog (LogFatal "初始化应用程序上下文失败: 创建目录失败: permission denied")])
    as Ht by (vm_compute; reflexivity).
  split; [exact Ht |].
  destruct (fatal_before_round env cfg s
              "初始化应用程序上下文失败: 创建目录失败: permission denied")
    as (Hh & _ & _ & Hd & _).
  - apply after_reachable.
  - rewrite Ht. simpl. tauto.
  - auto.
Defined.

(** ** Records written by one worker at a time *)

Lemma record_tokens_pos (n : nat) (record : list CsvField) :
  (0 < n)%nat → record_tokens n record = record_tokens 1 record.
Proof.
  revert n; induction record as [|f rest IH]; intros n Hn; simpl; [done |].
  replace (0 <? n)%nat with true by (symmetry; apply Nat.ltb_lt; lia).
  simpl. by rewrite (IH (S n)), (IH 2%nat) by lia.
Qed.

(** A buffer a reader accepts up to the start of a record is a sequence
    of whole records. *)
Lemma reads_serialized (toks : list CsvToken) :
  (reads AtStart toks = Some AtStart → serialized toks) ∧
  (reads AfterField toks = Some AtStart →
   ∃ fields rest, toks = record_tokens 1 fields ++ rest ∧ serialized rest) ∧
  (reads AfterComma toks = Some AtStart →
   ∃ f fields rest,
     toks = TField f :: record_tokens 1 fields ++ rest ∧ serialized rest).
Proof.
  induction toks as [|tok toks (IH1 & IH2 & IH3)].
  - split; [|split]; try done. intros _. by exists [].
  - split; [|split]; simpl.
    + destruct tok as [f| |]; simpl; try done.
      * intros H. destruct (IH2 H) as (fields & rest & -> & [records ->]).
        exists ((f :: fields) :: records). simpl. done.
      * intros H. destruct (IH1 H) as [records ->].
        by exists ([] :: records).
    + destruct tok as [f| |]; simpl; try done.
      * intros H. destruct (IH3 H) as (f & fields & rest & -> & Hrest).
        exists (f :: fields), rest. split; [|done]. simpl.
        by rewrite (record_tokens_pos 2) by lia.
      * intros H. exists [], toks. split; [done |]. by apply IH1.
    + destruct tok as [f| |]; simpl; try done.
      intros H. destruct (IH2 H) as (fields & rest & -> & Hrest).
      by exists f, fields, rest.
Qed.

Lemma reads_app (pos : Pos) (toks1 toks2 : list CsvToken) :
  reads pos (toks1 ++ toks2) =
  match reads pos toks1 with
  | Some pos' => reads pos' toks2
  | None => None
  end.
Proof.
  revert pos; induction toks1 as [|tok toks1 IH]; intros pos; simpl; [done |].
  destruct (next pos tok); [apply IH | done].
Qed.

Lemma wr_bind {A B} (pos : Pos) (Q : B → Pos → Prop) (m : Prog A)
    (f : A → Prog B) :
  wr pos (λ a pos', wr pos' Q (f a)) m → wr pos Q (bind m f).
Proof.
  revert pos.
  induction m as [a|msg|d s k IH|l k IH|d k IH|k IH|tok k IH|op k IH];
    intros pos; simpl; auto.
  intros (pos' & Hn & H). exists pos'. auto.
Qed.

Lemma wr_mono {A} (pos : Pos) (Q Q' : A → Pos → Prop) (p : Prog A) :
  (∀ a pos', Q a pos' → Q' a pos') → wr pos Q p → wr pos Q' p.
Proof.
  intros HQ. revert pos.
  induction p as [a|msg|d s k IH|l k IH|d k IH|k IH|tok k IH|op k IH];
    intros pos; simpl; auto.
  intros (pos' & Hn & H). exists pos'. auto.
Qed.

Lemma wr_act {A} (env : Env) (pos : Pos) (Q : A → Pos → Prop) (t : Trace)
    (p p' : Prog A) (e : Event) :
  (∀ n, csv_error env n = None) →
  wr pos Q p → act env t p = Some (e, p') →
  ∃ pos', reads pos (csv_tokens [e]) = Some pos' ∧ wr pos' Q p'.
Proof.
  intros Hok.
  destruct p as [a|msg|d s k|l k|d k|k|tok k|op k]; simpl; try done;
    intros H [= <- <-]; simpl; eauto.
  - destruct H as (pos' & Hn & H). rewrite Hok. simpl. rewrite Hn. eauto.
Qed.

Lemma wr_csvWrite (record : list CsvField) (n : nat) (pos : Pos) :
  pos = (if (0 <? n)%nat then AfterField else AtStart) →
  wr pos (λ e pos', e = None ∧ pos' = AtStart) (csvWrite n record).
Proof.
  revert n pos; induction record as [|field rest IH]; intros n pos ->.
  - simpl. exists AtStart. by destruct (0 <? n)%nat.
  - cbn [csvWrite]. destruct (0 <? n)%nat; cbn [csvPut bind wr].
    + exists AfterComma. split; [done |]. cbn [bind wr].
      exists AfterField. split; [done |]. by apply IH.
    + exists AfterField. split; [done |]. by apply IH.
Qed.

Lemma wr_persistLoop (work : DnsWorkItem.t) (delays : list Duration) :
  wr AtStart (λ _ pos', pos' = AtStart) (persistLoop work delays).
Proof.
  induction delays as [|delay rest IH]; [done |].
  cbn [persistLoop now bind wr]. intros c.
  apply wr_bind. unfold writeResultToCsv. apply wr_bind.
  eapply wr_mono; [|by apply wr_csvWrite].
  intros e pos' [-> ->]. cbn [wr]. exact IH.
Qed.

Lemma wr_sampleLoop (domain dnsServer : string) (interval : Duration)
    (n : nat) (i : Z) (delays : list Duration) :
  wr AtStart (λ _ pos', pos' = AtStart)
    (sampleLoop domain dnsServer interval n i delays).
Proof.
  revert i delays; induction n as [|n IH]; intros i delays; [done |].
  cbn [sampleLoop lookup bind wr]. intros [latency|err];
    cbn [printf sleep bind wr]; apply IH.
Qed.

Lemma wr_workerBody (cfg : Config) (work : DnsWorkItem.t) :
  wr AtStart (λ _ pos', pos' = AtStart) (workerBody cfg work).
Proof.
  unfold workerBody. apply wr_bind. unfold StartAndRecordLatencies.
  destruct (_ || _); [done |].
  apply wr_bind. eapply wr_mono; [|apply wr_sampleLoop].
  intros delays pos' ->. unfold calculateAverageDelay.
  destruct (_ =? 0); cbn [bind wr printf]; [done |].
  destruct (SaveCsv cfg); [apply wr_persistLoop | done].
Qed.

Lemma wr_NewDnsTestContext (cfg : Config) :
  wr AtStart (λ _ pos', pos' = AtStart) (NewDnsTestContext cfg).
Proof.
  unfold NewDnsTestContext. apply wr_bind.
  assert (∀ res : option error,
    wr AtStart (λ _ pos', pos' = AtStart)
      (match res with
       | Some err => Ret (Some err)
       | None => if LogToFile cfg then setupLogging "dns_test.log" else Ret None
       end)) as Hrest.
  { intros [err|]; [done |]. destruct (LogToFile cfg); [|done].
    unfold setupLogging, file. cbn [bind wr]. by intros [err|]. }
  destruct (SaveCsv cfg); [|apply (Hrest None)].
  cbn [now bind wr]. intros c. unfold initCSV, file. cbn [bind wr].
  intros [err|]; [exact (Hrest (Some _)) |]. cbn [bind wr].
  intros [err|]; [exact (Hrest (Some _)) |].
  apply wr_bind. eapply wr_mono; [|by apply wr_csvWrite].
  intros e pos' [-> ->]. cbn [bind wr]. intros e. exact (Hrest None).
Qed.

Section OneWriter.
Context (env : Env) (cfg : Config).
Hypothesis Hok : ∀ n, csv_error env n = None.
Hypothesis HK : Concurrency cfg ≤ 1.

(** There is at most one worker, the first. *)
Lemma one_worker (s : State) (w : nat) (ws : WState) :
  idle cfg s → workers s !! w = Some ws → w = 0%nat.
Proof.
  intros [Hlen _] Hw. apply lookup_lt_Some in Hw. unfold pool in Hlen. lia.
Qed.

Lemma csv_tokens_snoc (t : Trace) (e : Event) :
  csv_tokens (t ++ [e]) = csv_tokens t ++ csv_tokens [e].
Proof. apply csv_tokens_app. Qed.

Lemma csv_step (s s' : State) :
  Inv cfg s → idle cfg s → csv_inv s → transition env cfg s s' → csv_inv s'.
Proof.
  intros HI Hidle (pos & Hread & Hc & Hw & Hfree) Hs.
  pose proof (inv_phase _ _ HI) as Hp.
  assert (∀ w ws, workers s !! w = Some ws → ws ≠ WExit → ∀ p, pc s ≠ MCtx p)
    as Hlive.
  { intros w ws Hws Hne p Hpc. unfold phase_inv in Hp. rewrite Hpc in Hp.
    destruct Hp as [Hall _]. destruct Hne.
    by eapply Forall_eq_lookup in Hall; [|exact Hws]. }
  assert (∀ p, pc s = MCtx p → ∀ w p', workers s !! w ≠ Some (WBusy p'))
    as Hmain.
  { intros p Hpc w p' Hws. by eapply (Hlive w (WBusy p')). }
  (* the worker that moves is the only one *)
  assert (∀ w old new w' p, workers s !! w = Some old →
          <[w:=new]> (workers s) !! w' = Some (WBusy p) → new = WBusy p)
    as Honly.
  { intros w old new w' p Hold Hnew.
    pose proof (one_worker s w old Hidle Hold) as ->.
    apply lookup_lt_Some in Hnew as Hlt. rewrite length_insert in Hlt.
    destruct Hidle as [Hlen _]. unfold pool in Hlen.
    assert (w' = 0%nat) as -> by lia.
    rewrite list_lookup_insert_eq in Hnew by lia. congruence. }
  destruct Hs as [Hpc Hr'|Hpc Hr'|p e p' Hpc Hact|Hpc|err Hpc|msg Hpc|Hpc HK'
                 |Hpc HK'|i Hpc Hi'|i Hpc Hi'|work pending Hpc Hcap|Hpc|Hpc Hwg
                 |Hpc|Hpc|w work rest Hws Hq|w Hws Hq Hcl|w msg Hws|w a Hws
                 |w p e p' Hws Hact|msg Hdy].
  - (* into NewDnsTestContext: no worker is left *)
    assert (pos = AtStart) as ->.
    { apply Hfree; [by rewrite Hpc |]. intros w p Hws.
      unfold phase_inv in Hp. rewrite Hpc in Hp. destruct Hp as [Hall _].
      by eapply Forall_eq_lookup in Hall; [|exact Hws]. }
    exists AtStart. simpl. split; [done |]. split; [|split].
    + intros p [= <-]. apply wr_NewDnsTestContext.
    + exact Hw.
    + intros Hno. by destruct (Hno (NewDnsTestContext cfg)).
  - exists pos. simpl. split; [done |]. split; [done |]. split; [done |].
    intros _ Hno. apply Hfree; [by rewrite Hpc | done].
  - destruct (wr_act env _ _ _ _ _ _ Hok (Hc p Hpc) Hact) as (pos' & Hr & Hp').
    exists pos'. simpl. rewrite csv_tokens_snoc, reads_app, Hread.
    split; [done |]. split; [by intros p0 [= <-] |]. split.
    + intros w p0 Hws. by destruct (Hmain p Hpc w p0).
    + intros Hno. by destruct (Hno p').
  - specialize (Hc _ Hpc). simpl in Hc. subst pos.
    exists AtStart. simpl. split; [done |]. split; [done |]. split; [|done].
    intros w p Hws. by destruct (Hmain _ Hpc w p).
  - exists pos. simpl. rewrite csv_tokens_snoc, reads_app, Hread. simpl.
    split; [done |]. split; [done |]. split; [done |].
    intros Hno. by destruct (Hno (Ret (Some err))).
  - exists pos. simpl. rewrite csv_tokens_snoc, reads_app, Hread. simpl.
    split; [done |]. split; [done |]. split; [done |].
    intros Hno. by destruct (Hno (Panic msg)).
  - exists pos. simpl. rewrite csv_tokens_snoc, reads_app, Hread. simpl.
    split; [done |]. split; [by rewrite Hpc |]. split; [done |].
    intros _ Hno. apply Hfree; [by rewrite Hpc | done].
  - assert (pos = AtStart) as ->.
    { apply Hfree; [by rewrite Hpc |]. intros w p Hws.
      unfold phase_inv in Hp. rewrite Hpc in Hp. destruct Hp as [Hall _].
      by eapply Forall_eq_lookup in Hall; [|exact Hws]. }
    exists AtStart. simpl. split; [done |]. split; [done |]. split; [|done].
    intros w p Hws. by rewrite lookup_nil in Hws.
  - assert (pos = AtStart) as ->.
    { apply Hfree; [by rewrite Hpc |]. intros w p Hws.
      unfold phase_inv in Hp. rewrite Hpc in Hp.
      destruct Hp as (_ & _ & Hall & _).
      by eapply Forall_eq_lookup in Hall; [|exact Hws]. }
    exists AtStart. simpl. split; [done |]. split; [done |]. split; [|done].
    intros w p Hws. apply lookup_app_Some in Hws as [Hws|[_ Hws]].
    + unfold phase_inv in Hp. rewrite Hpc in Hp.
      destruct Hp as (_ & _ & Hall & _).
      by eapply Forall_eq_lookup in Hall; [|exact Hws].
    + by destruct (w - length (workers s))%nat.
  - exists pos. simpl. split; [done |]. split; [done |]. split; [done |].
    intros _ Hno. apply Hfree; [by rewrite Hpc | done].
  - exists pos. simpl. split; [done |]. split; [done |]. split; [done |].
    intros _ Hno. apply Hfree; [by rewrite Hpc | done].
  - exists pos. simpl. split; [done |]. split; [done |]. split; [done |].
    intros _ Hno. apply Hfree; [by rewrite Hpc | done].
  - exists pos. simpl. split; [done |]. split; [done |]. split; [done |].
    intros _ Hno. apply Hfree; [by rewrite Hpc | done].
  - exists pos. simpl. rewrite csv_tokens_snoc, reads_app, Hread. simpl.
    split; [done |]. split; [done |]. split; [done |].
    intros _ Hno. apply Hfree; [by rewrite Hpc | done].
  - exists pos. split; [|split; [done |split]].
    + destruct (SaveCsv cfg); simpl; [|done].
      by rewrite csv_tokens_snoc, reads_app, Hread.
    + destruct (SaveCsv cfg); simpl; exact Hw.
    + intros _ Hno. apply Hfree; [by rewrite Hpc |].
      destruct (SaveCsv cfg); simpl in Hno; exact Hno.
  - (* an item is taken: nobody is writing *)
    assert (pos = AtStart) as ->.
    { apply Hfree; [by eapply (Hlive w WRecv) |]. intros w' p Hws'.
      pose proof (one_worker s w _ Hidle Hws) as ->.
      pose proof (one_worker s w' _ Hidle Hws') as ->. congruence. }
    exists AtStart. simpl. rewrite csv_tokens_snoc, reads_app, Hread. simpl.
    split; [done |]. split; [|split].
    + intros p Hpc. by destruct (Hlive w WRecv Hws ltac:(done) p).
    + intros w' p Hnew. apply (Honly w WRecv) in Hnew; [|done].
      injection Hnew as <-. apply wr_workerBody.
    + intros _ Hno. destruct (Hno w (workerBody cfg work)).
      apply list_lookup_insert_eq. by eapply lookup_lt_Some.
  - assert (pos = AtStart) as ->.
    { apply Hfree; [by eapply (Hlive w WRecv) |]. intros w' p Hws'.
      pose proof (one_worker s w _ Hidle Hws) as ->.
      pose proof (one_worker s w' _ Hidle Hws') as ->. congruence. }
    exists AtStart. simpl. rewrite csv_tokens_snoc, reads_app, Hread. simpl.
    split; [done |]. split; [|split; [|done]].
    + intros p Hpc. by destruct (Hlive w WRecv Hws ltac:(done) p).
    + intros w' p Hnew. by apply (Honly w WRecv) in Hnew.
  - pose proof (Hw _ _ Hws) as Hpos. simpl in Hpos. subst pos.
    exists AtStart. simpl. rewrite csv_tokens_snoc, reads_app, Hread. simpl.
    split; [done |]. split; [|split; [|done]].
    + intros p Hpc. by destruct (Hlive w _ Hws ltac:(done) p).
    + intros w' p Hnew. by apply (Honly w (WBusy (Panic msg))) in Hnew.
  - pose proof (Hw _ _ Hws) as Hpos. simpl in Hpos. subst pos.
    exists AtStart. simpl. split; [done |]. split; [|split; [|done]].
    + intros p Hpc. by destruct (Hlive w _ Hws ltac:(done) p).
    + intros w' p Hnew. by apply (Honly w (WBusy (Ret a))) in Hnew.
  - destruct (wr_act env _ _ _ _ _ _ Hok (Hw _ _ Hws) Hact) as (pos' & Hr & Hp').
    exists pos'. simpl. rewrite csv_tokens_snoc, reads_app, Hread.
    split; [done |]. split; [|split].
    + intros p0 Hpc. by destruct (Hlive w _ Hws ltac:(done) p0).
    + intros w' p0 Hnew. apply (Honly w (WBusy p)) in Hnew; [|done].
      by injection Hnew as <-.
    + intros _ Hno. destruct (Hno w p').
      apply list_lookup_insert_eq. by eapply lookup_lt_Some.
  - exists pos. simpl. rewrite csv_tokens_snoc, reads_app, Hread. simpl.
    split; [done |]. split; [done |]. split; [done |]. exact Hfree.
Qed.

Lemma csv_reachable (s : State) : reachable env cfg s → csv_inv s.
Proof.
  induction 1 as [|s tid s' Hs IH Hstep].
  - exists AtStart. simpl. split; [done |]. split; [done |]. split; [|done].
    intros w p Hw. by rewrite lookup_nil in Hw.
  - eapply csv_step;
      [exact (Inv_reachable env cfg s Hs) | exact (idle_reachable env cfg s Hs)
      | exact IH | by eapply exec_step_transition].
Qed.

End OneWriter.

(** With a [concurrency] of one and a CSV writer that does not fail, the
    buffer of the writer never holds mixed records: whenever the worker is
    not inside the body of its loop and [main] is not inside
    [NewDnsTestContext], all that was put to the CSV writer, the headers
    and the records of all rounds, is a sequence of whole records. *)
Theorem one_worker_writes_whole_records (env : Env) (cfg : Config) (s : State) :
  (∀ n, csv_error env n = None) → Concurrency cfg ≤ 1 →
  reachable env cfg s →
  (∀ p, pc s ≠ MCtx p) → (∀ w p, workers s !! w ≠ Some (WBusy p)) →
  serialized (csv_tokens (trace s)).
Proof.
  intros Hok HK Hs Hpc Hw.
  destruct (csv_reachable env cfg Hok HK s Hs) as (pos & Hread & _ & _ & Hfree).
  rewrite (Hfree Hpc Hw) in Hread.
  by apply (reads_serialized (csv_tokens (trace s))).
Qed.

Lemma one_worker_writes_whole_records_witness :
  let s := Fixtures.after Fixtures.env_10_20_30 Fixtures.cfg_10_20_30 Saved.sched in
  halted s = true ∧ pc s = MExit ∧ length (csv_tokens (trace s)) = 32%nat ∧
  serialized (csv_tokens (trace s)).
Proof.
  intros s. split; [vm_compute; reflexivity |].
  assert (pc s = MExit) as Hpc by (vm_compute; reflexivity).
  assert (workers s = [WExit]) as Hws by (vm_compute; reflexivity).
  split; [exact Hpc |]. split; [vm_compute; reflexivity |].
  apply (one_worker_writes_whole_records Fixtures.env_10_20_30
           Fixtures.cfg_10_20_30 s).
  - reflexivity.
  - simpl. lia.
  - apply after_reachable.
  - intros p. rewrite Hpc. discriminate.
  - intros w p. rewrite Hws. destruct w as [|w]; simpl; [discriminate |].
    rewrite lookup_nil. discriminate.
Defined.

(** ** The matrix on its edges *)

Lemma matrix_NoDup (domains dnsServers : list string) :
  NoDup domains → NoDup dnsServers → NoDup (matrix domains dnsServers).
Proof.
  intros Hd Hs. unfold matrix.
  induction Hd as [|d domains Hnot _ IH]; simpl; [constructor |].
  apply NoDup_app. split; [|split; [|exact IH]].
  - apply NoDup_fmap_2; [|done]. by intros x y [= ->].
  - intros item Hin Hin'.
    apply list_elem_of_fmap in Hin as (sv & -> & _).
    apply list_elem_of_In, in_flat_map in Hin' as (d' & Hd' & Hin').
    apply in_map_iff in Hin' as (sv' & [= -> _] & _).
    by apply Hnot, list_elem_of_In.
Qed.

(** The matrix has no pair twice when no domain and no server is listed
    twice: the loops that fill the queue add no duplicate of their own
    (and remove none: a domain listed twice is measured twice). *)
Theorem workItems_distinct (cfg : Config) :
  NoDup (Domains cfg) → NoDup (DNSServers cfg) → NoDup (workItems cfg).
Proof.
  intros Hd Hs. unfold workItems. rewrite enqueueAll_matrix. simpl.
  by apply matrix_NoDup.
Qed.

Lemma workItems_distinct_witness :
  NoDup (workItems Fixtures.cfg_two) ∧
  workItems (Fixtures.config ["a.com"; "a.com"] 1 1 false 1) =
    [Fixtures.a_com; Fixtures.a_com].
Proof.
  split; [|reflexivity].
  apply (workItems_distinct Fixtures.cfg_two).
  - simpl. apply NoDup_cons. split; [|apply NoDup_singleton].
    intros Hin. apply list_elem_of_singleton in Hin. discriminate Hin.
  - apply NoDup_singleton.
Defined.

(** With no domain or no server the matrix is empty and the channel has
    no capacity: the rounds go by, no item is taken and no lookup is made,
    whatever [test_count] and [concurrency] are. *)
Theorem empty_matrix_measures_nothing (env : Env) (cfg : Config) (s : State) :
  Domains cfg = [] ∨ DNSServers cfg = [] → reachable env cfg s →
  workItems cfg = [] ∧ channel_capacity cfg = 0%nat ∧
  takes (trace s) = 0%nat ∧ lookups (trace s) = 0%nat.
Proof.
  intros Hempty Hs.
  assert (channel_capacity cfg = 0%nat) as Hcap.
  { unfold channel_capacity. destruct Hempty as [-> | ->]; simpl; lia. }
  assert (workItems cfg = []) as Hw.
  { pose proof (workItems_capacity cfg) as Hlen. rewrite Hcap in Hlen.
    by destruct (workItems cfg). }
  pose proof (takes_bound env cfg s Hs) as Ht. rewrite Hw in Ht. simpl in Ht.
  destruct (lookups_reachable env cfg s Hs) as [_ (ns & _ & Heq)].
  split; [done |]. split; [done |]. split; [lia |].
  assert (takes (trace s) = 0%nat) as Ht0 by lia. rewrite Ht0 in Heq. lia.
Qed.

Lemma empty_matrix_measures_nothing_witness :
  let cfg := Fixtures.config [] 3 2 false 1 in
  let s := Fixtures.after Fixtures.env_two cfg
             (replicate 7 TMain ++ [TWorker 0; TWorker 1] ++ replicate 4 TMain) in
  halted s = true ∧ done_rounds (trace s) = [1] ∧ lookups (trace s) = 0%nat.
Proof.
  intros cfg s. split; [vm_compute; reflexivity |].
  split; [vm_compute; reflexivity |].
  destruct (empty_matrix_measures_nothing Fixtures.env_two cfg s)
    as (_ & _ & _ & Hl).
  - by left.
  - apply after_reachable.
  - exact Hl.
Defined.
